(** * A shallow embedding of the kinematic engine of roboticstoolbox's ERobot

    Source: src/roboticstoolbox/robot/ERobot.py.

    Modelling conventions.
    - ELink objects live in a store ([list ELink]); an object reference is
      its position in the store.  Mutations of links (name, parent,
      children, jindex) are functional updates of the store.
    - Scalars are [Z]; a 4x4 homogeneous matrix is a function
      [nat -> nat -> Z] read on indices 0..3, a 2-D numpy array is an
      [arr2] record carrying its shape.  Evaluating a link transform
      [link.A(q)] (trigonometry) and inverting a matrix are parameters of
      the sections that use them: the claims settled here are about the
      structure of the computation, not about the numbers.
    - Python exceptions are [Err]; a [while] loop or recursion that runs out
      of the fuel it is given yields [Diverge]. *)

From Stdlib Require Import ZArith Lia.
From stdpp Require Import base list gmap sets strings pretty.

(** ** Results *)

Inductive pyerr :=
| ValueError (msg : string)
| KeyError (key : string)
| TypeError (msg : string)
| AttributeError (msg : string)
| IndexError
| NameError (name : string).

Inductive res (A : Type) :=
| Ok (a : A)
| Err (e : pyerr)
| Diverge.
Arguments Ok {A} a.
Arguments Err {A} e.
Arguments Diverge {A}.

Global Instance res_ret : MRet res := fun A a => Ok a.
Global Instance res_bind : MBind res := fun A B k m =>
  match m with Ok a => k a | Err e => Err e | Diverge => Diverge end.

(** ** Homogeneous transforms *)

Definition mat := nat -> nat -> Z.

Definition eye4 : mat := fun i j => if Nat.eqb i j then 1%Z else 0%Z.

(** [A @ B] for 4x4 matrices. *)
Definition mmul4 (A B : mat) : mat :=
  fun i j => (A i 0%nat * B 0%nat j + A i 1%nat * B 1%nat j
            + A i 2%nat * B 2%nat j + A i 3%nat * B 3%nat j)%Z.

(** A 2-D numpy array: its shape and its entries. *)
Record arr2 := mkArr2 { a2_rows : nat; a2_cols : nat; a2_get : nat -> nat -> Z }.

(** A 3-D numpy array. *)
Record arr3 := mkArr3 { a3_d0 : nat; a3_d1 : nat; a3_d2 : nat;
                        a3_get : nat -> nat -> nat -> Z }.

(** ** Links (ELink) *)

(** The axis of the joint ET [link.v]. *)
Inductive axis := Rx | Ry | Rz | tx | ty | tz.

(** [link._parent]: none, a link object, or a link name still to resolve. *)
Inductive parent_ref := PNone | PLink (i : nat) | PName (s : string).

Record ELink := mkELink {
  name : option string;
  parent : parent_ref;
  children : list nat;
  isjoint : bool;
  v_axis : axis;
  jindex : option nat
}.

Definition dummy_link : ELink := mkELink None PNone [] false tx None.

Definition link_at (st : list ELink) (i : nat) : ELink :=
  default dummy_link (st !! i).

Definition link_name (st : list ELink) (i : nat) : string :=
  default "" (name (link_at st i)).

Definition set_name (s : string) (l : ELink) : ELink :=
  mkELink (Some s) (parent l) (children l) (isjoint l) (v_axis l) (jindex l).
Definition set_parent (p : parent_ref) (l : ELink) : ELink :=
  mkELink (name l) p (children l) (isjoint l) (v_axis l) (jindex l).
Definition add_child (c : nat) (l : ELink) : ELink :=
  mkELink (name l) (parent l) (children l ++ [c]) (isjoint l) (v_axis l) (jindex l).
Definition set_jindex (j : nat) (l : ELink) : ELink :=
  mkELink (name l) (parent l) (children l) (isjoint l) (v_axis l) (Some j).

(** [link.parent] as an object reference (None for no parent). *)
Definition parent_of (st : list ELink) (i : nat) : option nat :=
  match st !! i with
  | Some l => match parent l with PLink p => Some p | _ => None end
  | None => None
  end.

(** ** dfs_links *)

(** [vis_children] of [dfs_links]: pre-order, a child already in
    [visited] is skipped.  [func] of [dfs_links] is applied to the links in
    the order they are appended to [visited]; it does not influence the
    traversal, so callers fold it over the returned list. *)
Fixpoint vis_children (fuel : nat) (st : list ELink) (x : nat)
    (visited : list nat) : option (list nat) :=
  match fuel with
  | O => None
  | S f =>
      fold_left
        (fun acc li =>
           match acc with
           | None => None
           | Some vis =>
               if bool_decide (li ∈ vis) then Some vis
               else vis_children f st li vis
           end)
        (children (link_at st x)) (Some (visited ++ [x]))
  end.

(** Each nested call visits a new link of the store, so the recursion
    depth is at most [length st + 1]. *)
Definition dfs_links (st : list ELink) (start : nat) : option (list nat) :=
  vis_children (S (length st)) st start [].

(** ** Gripper *)

(** Modelled from the spec: the Gripper class is not part of the sources.
    [Gripper(g_links)] is a sub-tree wrapper that keeps the links it is
    given, in that order, has its own joint count (the number of joint
    links among them) and a tool transform, unset ([None]) when none is
    passed. *)
Record Gripper := mkGripper {
  g_name : string;
  g_links : list nat;
  g_tool : option mat;
  g_n : nat
}.

Definition count_joints (st : list ELink) (ls : list nat) : nat :=
  length (filter (fun i => isjoint (link_at st i) = true) ls).

Definition make_gripper (st : list ELink) (g_links : list nat) : Gripper :=
  mkGripper "" g_links None (count_joints st g_links).

(** ** The robot after construction *)

Record ERobot := mkERobot {
  r_store : list ELink;
  r_links : list nat;                (** [self.links], the ordered links *)
  r_linkdict : gmap string nat;      (** [self._linkdict] *)
  r_base_link : option nat;
  r_ee_links : list (option nat);
  r_grippers : list Gripper;
  r_n : nat;
  r_nbranches : nat;
  r_base : option mat;               (** [self._base] *)
  r_tool : option mat;               (** [self._tool] *)
  (** The attributes set by [_reset_cache] and written by the lookups: *)
  r_path_cache : gmap string (gmap string (list nat * nat * mat));
                                     (** [self._path_cache] *)
  r_path_cache_fknm : gmap string (gmap string (list nat * nat * mat));
      (** [self._path_cache_fknm]: the entries for the native routines; the
          native handle [link._fknm] of a link is modelled by the link
          itself, [tool.A] by the matrix of [tool]. *)
  r_cache_end : option nat;          (** [self._cache_end] *)
  r_cache_end_tool : option mat;     (** [self._cache_end_tool] *)
  r_cache_start : option nat         (** [self._cache_start] *)
}.

(** The robot with the five attributes above replaced. *)
Definition with_caches (r : ERobot)
    (pc pcf : gmap string (gmap string (list nat * nat * mat)))
    (ce : option nat) (cet : option mat) (cs : option nat) : ERobot :=
  mkERobot (r_store r) (r_links r) (r_linkdict r) (r_base_link r)
    (r_ee_links r) (r_grippers r) (r_n r) (r_nbranches r) (r_base r)
    (r_tool r) pc pcf ce cet cs.

Definition set_path_caches (r : ERobot)
    (pc pcf : gmap string (gmap string (list nat * nat * mat))) : ERobot :=
  with_caches r pc pcf (r_cache_end r) (r_cache_end_tool r) (r_cache_start r).

(** [self._cache_end = end; self._cache_end_tool = tool] *)
Definition set_cache_end (r : ERobot) (e : option nat) (tool : option mat) : ERobot :=
  with_caches r (r_path_cache r) (r_path_cache_fknm r) e tool (r_cache_start r).

(** [self._cache_start = start] *)
Definition set_cache_start (r : ERobot) (s : option nat) : ERobot :=
  with_caches r (r_path_cache r) (r_path_cache_fknm r) (r_cache_end r)
    (r_cache_end_tool r) s.

(** ** BaseERobot.__init__ *)

(** The naming loop: unnamed links get ["link-<k>"], names must be unique,
    joint links are counted. *)
Fixpoint name_links (ls : list nat) (st : list ELink) (dict : gmap string nat)
    (n link_number : nat) : res (list ELink * gmap string nat * nat) :=
  match ls with
  | [] => Ok (st, dict, n)
  | i :: ls' =>
      let l := link_at st i in
      let '(nm, link_number') :=
        match name l with
        | Some s => (s, link_number)
        | None => ("link-" +:+ pretty link_number, S link_number)
        end in
      let st1 := alter (set_name nm) i st in
      match dict !! nm with
      | Some _ => Err (ValueError ("link name " +:+ nm +:+ " is not unique"))
      | None =>
          name_links ls' st1 (<[nm := i]> dict)
            (if isjoint l then S n else n) link_number'
      end
  end.

(** Parents given by name are looked up in the link dictionary. *)
Fixpoint resolve_parents (ls : list nat) (st : list ELink)
    (dict : gmap string nat) : res (list ELink) :=
  match ls with
  | [] => Ok st
  | i :: ls' =>
      match parent (link_at st i) with
      | PName s =>
          match dict !! s with
          | Some p => resolve_parents ls' (alter (set_parent (PLink p)) i st) dict
          | None => Err (KeyError s)
          end
      | _ => resolve_parents ls' st dict
      end
  end.

Definition all_parents_none (ls : list nat) (st : list ELink) : bool :=
  forallb (fun i => match parent (link_at st i) with PNone => true | _ => false end) ls.

(** [links[i + 1]._parent = links[i]] for consecutive links. *)
Fixpoint chain_parents (ls : list nat) (st : list ELink) : list ELink :=
  match ls with
  | i :: ((j :: _) as ls') => chain_parents ls' (alter (set_parent (PLink i)) j st)
  | _ => st
  end.

(** The scan for the base link, which also fills the children lists. *)
Fixpoint scan_base (ls : list nat) (st : list ELink) (base : option nat)
    : res (list ELink * option nat) :=
  match ls with
  | [] => Ok (st, base)
  | i :: ls' =>
      match parent (link_at st i) with
      | PNone =>
          match base with
          | Some _ => Err (ValueError "Multiple base links")
          | None => scan_base ls' st (Some i)
          end
      | PLink p => scan_base ls' (alter (add_child i) p st) base
      | PName _ => Err (AttributeError "'str' object has no attribute '_children'")
      end
  end.

(** Stages 1 to 3: names, parents, base link and children. *)
Definition build_tree (st0 : list ELink)
    : res (list ELink * gmap string nat * nat * option nat) :=
  let ls := seq 0 (length st0) in
  '(st1, dict, n) ← name_links ls st0 ∅ 0 0;
  st2 ← resolve_parents ls st1 dict;
  let st3 := if all_parents_none ls st2 then chain_parents ls st2 else st2 in
  '(st4, base) ← scan_base ls st3 None;
  Ok (st4, dict, n, base).

(** [links.remove(x)]: the first occurrence, a ValueError if absent. *)
Fixpoint list_remove (x : nat) (ls : list nat) : res (list nat) :=
  match ls with
  | [] => Err (ValueError "list.remove(x): x not in list")
  | y :: ls' =>
      if Nat.eq_dec x y then Ok ls' else (ls'' ← list_remove x ls'; Ok (y :: ls''))
  end.

Fixpoint remove_links (gs ls : list nat) : res (list nat) :=
  match gs with
  | [] => Ok ls
  | g :: gs' => ls' ← list_remove g ls; remove_links gs' ls'
  end.

(** Stage 4: each gripper root's depth-first sub-tree leaves [links]. *)
Fixpoint extract_grippers (gl : list nat) (st : list ELink) (ls : list nat)
    (acc : list Gripper) : res (list nat * list Gripper) :=
  match gl with
  | [] => Ok (ls, acc)
  | g :: gl' =>
      match dfs_links st g with
      | None => Diverge
      | Some g_links =>
          ls' ← remove_links g_links ls;
          extract_grippers gl' st ls' (acc ++ [make_gripper st g_links])
      end
  end.

Definition sum_gripper_n (gs : list Gripper) : nat := sum_list (map g_n gs).

(** Stage 5: the end-effector links. *)
Definition ee_of (st : list ELink) (gl ls : list nat) : list (option nat) :=
  match gl with
  | [] => map Some (filter (fun i => children (link_at st i) = []) ls)
  | _ => map (parent_of st) gl
  end.

(** Stage 6: joint indices. *)
Definition all_jindex_none (st : list ELink) (ls : list nat) : bool :=
  forallb (fun i => match jindex (link_at st i) with None => true | _ => false end) ls.

Definition all_joint_jindex_set (st : list ELink) (ls : list nat) : bool :=
  forallb (fun i => if isjoint (link_at st i)
                    then match jindex (link_at st i) with Some _ => true | None => false end
                    else true) ls.

(** [visit_link] folded over the depth-first order: a joint link of
    [links] takes the next index; links of [links] are appended to
    [orlinks]. *)
Fixpoint visit_links (vis ls : list nat) (st : list ELink) (c : nat)
    (orl : list nat) : list ELink * list nat :=
  match vis with
  | [] => (st, orl)
  | x :: vis' =>
      let inl := bool_decide (x ∈ ls) in
      let '(st', c') :=
        if isjoint (link_at st x) && inl
        then (alter (set_jindex c) x st, S c) else (st, c) in
      visit_links vis' ls st' c' (if inl then orl ++ [x] else orl)
  end.

(** The [checkjindex] loop: note that [jset -= set([link.jindex])] runs for
    every link, joint or not. *)
Fixpoint check_jindex (ls : list nat) (st : list ELink) (jset : gset nat)
    : res (gset nat) :=
  match ls with
  | [] => Ok jset
  | i :: ls' =>
      let l := link_at st i in
      let bad := if isjoint l then
                   match jindex l with Some k => bool_decide (k ∉ jset) | None => true end
                 else false in
      if bad then Err (ValueError "joint index was repeated or out of range")
      else check_jindex ls' st
             (match jindex l with Some k => jset ∖ {[k]} | None => jset end)
  end.

Definition assign_jindex (st : list ELink) (base : option nat) (ls : list nat)
    (n : nat) (checkjindex : bool) : res (list ELink * list nat) :=
  if all_jindex_none st ls then
    match base with
    | None => Err (AttributeError "'NoneType' object has no attribute 'isjoint'")
    | Some b =>
        match dfs_links st b with
        | None => Diverge
        | Some vis => Ok (visit_links vis ls st 0 [])
        end
    end
  else if all_joint_jindex_set st ls then
    if checkjindex then
      jset ← check_jindex ls st (list_to_set (seq 0 n));
      if bool_decide (jset = ∅) then Ok (st, ls)
      else Err (ValueError "joints were not assigned")
    else Ok (st, ls)
  else Err (ValueError "all links must have a jindex, or none have a jindex").

(** [ERobot(links, gripper_links=..., checkjindex=...)], with the base and
    tool transforms given as keyword arguments.  [Robot.__init__] (not in
    the sources) keeps [orlinks] as the robot's links; the qlim set-up
    cannot fail and is left out. *)
Definition construct (st0 : list ELink) (gl : list nat) (checkjindex : bool)
    (base tool : option mat) : res ERobot :=
  '(st, dict, n0, base_link) ← build_tree st0;
  '(ls, grippers) ← extract_grippers gl st (seq 0 (length st0)) [];
  let n := n0 - sum_gripper_n grippers in
  let ee := ee_of st gl ls in
  '(st', orlinks) ← assign_jindex st base_link ls n checkjindex;
  let nbranches := length (filter (fun i => children (link_at st' i) = []) ls) in
  (** [ERobot.__init__] ends with [self._reset_cache()]. *)
  Ok (mkERobot st' orlinks dict base_link ee grippers n nbranches base tool ∅ ∅
        None None None).

(** ** Link lookup *)

(** The [end]/[start] arguments: None, a name, an ELink, a Gripper (by its
    position in [robot.grippers]) or a value of another type. *)
Inductive link_arg := LNone | LName (s : string) | LLink (i : nat)
                    | LGripper (k : nat) | LOther.

Definition in_gripper_links (r : ERobot) (i : nat) : bool :=
  existsb (fun g => bool_decide (i ∈ g_links g)) (r_grippers r).

(** [_getlink] *)
Definition getlink (r : ERobot) (x : link_arg) : res nat :=
  match x with
  | LName s =>
      match r_linkdict r !! s with
      | Some i => Ok i
      | None => Err (ValueError ("no link named " +:+ s))
      end
  | LLink i =>
      if bool_decide (i ∈ r_links r) then Ok i
      else if in_gripper_links r i then Ok i
      else Err (ValueError "link not in robot links")
  | _ => Err (TypeError "unknown argument")
  end.

(** The loop of [_get_limit_links] over the grippers: an [end] equal to a
    gripper or to its name becomes the gripper's first link. *)
Definition match_gripper (k : nat) (g : Gripper) (acc : res (link_arg * option mat))
    : res (link_arg * option mat) :=
  '(e, tool) ← acc;
  let hit := match e with
             | LGripper k' => Nat.eqb k k'
             | LName s => bool_decide (s = g_name g)
             | _ => false
             end in
  if hit then
    match g_links g with
    | x :: _ => Ok (LLink x, g_tool g)
    | [] => Err IndexError
    end
  else Ok (e, tool).

Fixpoint match_grippers (k : nat) (gs : list Gripper) (acc : res (link_arg * option mat))
    : res (link_arg * option mat) :=
  match gs with
  | [] => acc
  | g :: gs' => match_grippers (S k) gs' (match_gripper k g acc)
  end.

(** The [end] half of [_get_limit_links]: the end link and the gripper
    tool.  With [end] None the end link is the sole gripper's first link,
    or the sole end-effector link, which can be None. *)
Definition limit_end (r : ERobot) (end_ : link_arg) : res (option nat * option mat) :=
  match end_ with
  | LNone =>
      match r_grippers r with
      | [g] =>
          match g_links g with
          | x :: _ => Ok (Some x, g_tool g)
          | [] => Err IndexError
          end
      | _ :: _ :: _ => Err (ValueError "Must specify which gripper")
      | [] =>
          match r_ee_links r with
          | [x] => Ok (x, None)
          | _ => Err (ValueError "Must specify which end-effector")
          end
      end
  | _ =>
      '(e', tool) ← match_grippers 0 (r_grippers r) (Ok (end_, None));
      e ← getlink r e';
      Ok (Some e, tool)
  end.

(** [_get_limit_links]: the end link, the start link and the gripper tool,
    and the robot with the attributes it writes: [_cache_end] and
    [_cache_end_tool] when [end] is None, [_cache_start] when [start] is
    None.  A None [start] becomes [self.base_link], which can be None. *)
Definition get_limit_links (r : ERobot) (end_ start : link_arg)
    : res (option nat * option nat * option mat) * ERobot :=
  match limit_end r end_ with
  | Ok (e, tool) =>
      let r1 := match end_ with LNone => set_cache_end r e tool | _ => r end in
      match start with
      | LNone => (Ok (e, r_base_link r1, tool), set_cache_start r1 (r_base_link r1))
      | _ =>
          match getlink r1 start with
          | Ok s => (Ok (e, Some s, tool), r1)
          | Err err => (Err err, r1)
          | Diverge => (Diverge, r1)
          end
      end
  | Err err => (Err err, r)
  | Diverge => (Diverge, r)
  end.

(** ** get_path *)

(** The [while link != start] loop: [link] is the last link appended to
    [path], [n] counts the joint links of [path]. *)
Fixpoint walk_up (fuel : nat) (st : list ELink) (start link : nat)
    (path : list nat) (n : nat) (msg : string) : res (list nat * nat) :=
  if Nat.eqb link start then Ok (path, n) else
  match fuel with
  | O => Diverge
  | S f =>
      match parent_of st link with
      | None => Err (ValueError msg)
      | Some p => walk_up f st start p (path ++ [p])
                    (if isjoint (link_at st p) then S n else n) msg
      end
  end.

Definition path_not_found (st : list ELink) (s e : nat) : string :=
  "cannot find path from " +:+ link_name st s +:+ " to " +:+ link_name st e.

Definition cache_lookup (c : gmap string (gmap string (list nat * nat * mat)))
    (sn en : string) : option (list nat * nat * mat) :=
  c !! sn ≫= fun d => d !! en.

(** [x.name] for a link reference that may be None. *)
Definition name_of (st : list ELink) (x : option nat) : res string :=
  match x with
  | Some i => Ok (link_name st i)
  | None => Err (AttributeError "'NoneType' object has no attribute 'name'")
  end.

(** [get_path(end, start, _fknm)]: a lookup in [_path_cache] (or in
    [_path_cache_fknm] when [_fknm]), else the walk from [end] up to
    [start], reversed and stored in both caches.  A missing key raises the
    KeyError the [try] catches; [start.name] and [end.name] on None raise
    AttributeError, which it does not catch. *)
Definition get_path (fuel : nat) (end_ start : link_arg) (fknm : bool) (r : ERobot)
    : res (list nat * nat * mat) * ERobot :=
  match get_limit_links r end_ start with
  | (Ok (oe, os, tool), r0) =>
      let st := r_store r0 in
      match os with
      | Some s =>
          let sn := link_name st s in
          let c := if fknm then r_path_cache_fknm r0 else r_path_cache r0 in
          let hit := match c !! sn with
                     | Some d => en ← name_of st oe; Ok (d !! en)
                     | None => Ok None
                     end in
          match hit with
          | Ok (Some entry) => (Ok entry, r0)
          | Ok None =>
              let pc := r_path_cache r0 in
              let pcf := r_path_cache_fknm r0 in
              let '(pc1, pcf1) := match pc !! sn with
                                  | Some _ => (pc, pcf)
                                  | None => (<[sn := ∅]> pc, <[sn := ∅]> pcf)
                                  end in
              let r1 := set_path_caches r0 pc1 pcf1 in
              match oe with
              | Some e =>
                  match walk_up fuel st s e [e] (if isjoint (link_at st e) then 1 else 0)
                          (path_not_found st s e) with
                  | Ok (path, n) =>
                      let en := link_name st e in
                      let path' := rev path in
                      let tool' := default eye4 tool in
                      let pc2 := <[sn := <[en := (path', n, tool')]> (default ∅ (pc1 !! sn))]> pc1 in
                      match pcf1 !! sn with
                      | Some d =>
                          (Ok (path', n, tool'),
                           set_path_caches r0 pc2 (<[sn := <[en := (path', n, tool')]> d]> pcf1))
                      | None => (Err (KeyError sn), set_path_caches r0 pc2 pcf1)
                      end
                  | Err err => (Err err, r1)
                  | Diverge => (Diverge, r1)
                  end
              | None => (Err (AttributeError "'NoneType' object has no attribute 'isjoint'"), r1)
              end
          | Err err => (Err err, r0)
          | Diverge => (Diverge, r0)
          end
      | None => (Err (AttributeError "'NoneType' object has no attribute 'name'"), r0)
      end
  | (Err err, r0) => (Err err, r0)
  | (Diverge, r0) => (Diverge, r0)
  end.

(** ** Forward kinematics *)

(** The joint-coordinate argument: a vector or an (m x n) array. *)
Inductive qarg := QVec (v : list Z) | QMat (rows : list (list Z)).

Fixpoint chunks (fuel n : nat) (v : list Z) : list (list Z) :=
  match fuel with
  | O => []
  | S f => match v with [] => [] | _ => take n v :: chunks f n (drop n v) end
  end.

(** [getmatrix(q, (None, n))] of spatialmath: a 2-D array must have [n]
    columns, a vector is reshaped to [(-1, n)]. *)
Definition getmatrix (q : qarg) (n : nat) : res (list (list Z)) :=
  match q with
  | QMat rows =>
      if forallb (fun row => Nat.eqb (length row) n) rows then Ok rows
      else Err (ValueError "incorrect matrix dimensions")
  | QVec v =>
      if Nat.eqb n 0 then Err (ValueError "cannot reshape array")
      else if Nat.eqb (length v mod n) 0 then Ok (chunks (length v) n v)
      else Err (ValueError "cannot reshape array")
  end.

(** [fkine]'s output: an SE3 instance with one value per configuration, or
    the bare 4x4 array of the native fast path. *)
Inductive fk_out := FKPoses (Ts : list mat) | FKArray (T : mat).

Section Kinematics.

(** [link.A(q, fast=True)]: the link transform at joint value [q]
    ([None] when the argument is not a joint value), [None] when the
    transform is the identity. *)
Variable link_A : ELink -> option Z -> option mat.
(** [robot.toradians] *)
Variable toradians : list Z -> list Z.
(** The native routine [fknm.fkine], given the path and the arguments. *)
Variable fknm_fkine : list nat -> qarg -> mat -> mat -> mat.

(** [qk[link.jindex]]: a joint value, or the whole row (ignored by [A]) for
    a link without a joint index. *)
Definition jval (l : ELink) (qk : list Z) : res (option Z) :=
  match jindex l with
  | Some i => match qk !! i with Some x => Ok (Some x) | None => Err IndexError end
  | None => Ok None
  end.

(** [A @ Tk] where [Tk] may still be [None]. *)
Definition premul (A : mat) (Tk : option mat) : res (option mat) :=
  match Tk with
  | Some T => Ok (Some (mmul4 A T))
  | None => Err (TypeError "unsupported operand type(s) for @")
  end.

(** The [while True] loop of [fkine], from the end link toward the base;
    [link is start] never holds when [start] is None. *)
Fixpoint fk_walk (fuel : nat) (st : list ELink) (start : option nat) (link : nat)
    (qk : list Z) (Tk : option mat) : res (option mat) :=
  match fuel with
  | O => Diverge
  | S f =>
      match parent_of st link with
      | None => Ok Tk
      | Some p =>
          x ← jval (link_at st p) qk;
          Tk' ← match link_A (link_at st p) x with
                | Some A => premul A Tk
                | None => Ok Tk
                end;
          if bool_decide (Some p = start) then Ok Tk' else fk_walk f st start p qk Tk'
      end
  end.

(** The pose for one configuration [qk]; [end] None fails at [link.A]. *)
Definition fkine_row (fuel : nat) (r : ERobot) (unit : string) (oe os : option nat)
    (tool : option mat) (qk0 : list Z) : res mat :=
  let st := r_store r in
  let qk := if bool_decide (unit = "deg") then toradians qk0 else qk0 in
  match oe with
  | None => Err (AttributeError "'NoneType' object has no attribute 'A'")
  | Some e =>
      x ← jval (link_at st e) qk;
      let Tk := match link_A (link_at st e) x with
                | None => tool
                | Some A => match tool with None => Some A | Some t => Some (mmul4 A t) end
                end in
      Tk ← fk_walk fuel st os e qk Tk;
      Tk ← match r_base r with
           | Some B => if bool_decide (os = r_base_link r) then premul B Tk else Ok Tk
           | None => Ok Tk
           end;
      (** [SE3(None)] is the identity *)
      Ok (default eye4 Tk)
  end.

Fixpoint map_res {A B} (f : A -> res B) (xs : list A) : res (list B) :=
  match xs with
  | [] => Ok []
  | x :: xs' => y ← f x; ys ← map_res f xs'; Ok (y :: ys)
  end.

(** [fkine(q, unit, end, start, tool, include_base, fast)] *)
Definition fkine (fuel : nat) (q : qarg) (unit : string) (end_ start : link_arg)
    (tool : option mat) (include_base fast : bool) (r : ERobot)
    : res fk_out * ERobot :=
  if fast then
    match get_path fuel end_ start true r with
    | (Ok (path, _, etool), r') =>
        let T := fknm_fkine path q etool (default eye4 tool) in
        (Ok (FKArray (if include_base then mmul4 (default eye4 (r_base r)) T else T)), r')
    | (Err e, r') => (Err e, r')
    | (Diverge, r') => (Diverge, r')
    end
  else
    match getmatrix q (r_n r) with
    | Ok rows =>
        match get_limit_links r end_ start with
        | (Ok (oe, os, etool), r1) =>
            let tool1 := match etool, tool with
                         | Some et, Some t => Some (mmul4 et t)
                         | Some et, None => Some et
                         | None, t => t
                         end in
            let tool2 := match tool1 with None => r_tool r1 | Some t => Some t end in
            (Ts ← map_res (fkine_row fuel r1 unit oe os tool2) rows; Ok (FKPoses Ts), r1)
        | (Err e, r1) => (Err e, r1)
        | (Diverge, r1) => (Diverge, r1)
        end
    | Err e => (Err e, r)
    | Diverge => (Diverge, r)
    end.

End Kinematics.

(** ** Jacobian and Hessian *)

Definition vec3 := nat -> Z.

(** [U[:3, k]] *)
Definition col (U : mat) (k : nat) : vec3 := fun i => U i k.
Definition vscale (v : vec3) (x : Z) : vec3 := fun i => (v i * x)%Z.
Definition vsub (v w : vec3) : vec3 := fun i => (v i - w i)%Z.
Definition zero3 : vec3 := fun _ => 0%Z.

(** [J[r0:r0+3, j] = v] *)
Definition set_col3 (J : nat -> nat -> Z) (r0 j : nat) (v : vec3) : nat -> nat -> Z :=
  fun r c => if Nat.eqb c j && Nat.leb r0 r && Nat.ltb r (r0 + 3)
             then v (r - r0) else J r c.

(** [getvector(q, n)] *)
Definition getvector (q : list Z) (n : nat) : res (list Z) :=
  if Nat.eqb (length q) n then Ok q else Err (ValueError "argument must be of length n").

(** [verifymatrix(J0, (rows, cols))] *)
Definition verifymatrix (J : arr2) (rows cols : nat) : res unit :=
  if Nat.eqb (a2_rows J) rows && Nat.eqb (a2_cols J) cols then Ok ()
  else Err (ValueError "incorrect matrix dimensions").

(** A link reference that may be [None], as an argument. *)
Definition opt_arg (o : option nat) : link_arg :=
  match o with Some i => LLink i | None => LNone end.

Section Jacobian.

Variable link_A : ELink -> option Z -> option mat.
Variable toradians : list Z -> list Z.
Variable fknm_fkine : list nat -> qarg -> mat -> mat -> mat.
(** [np.linalg.inv] *)
Variable inv4 : mat -> mat.
(** The native routine [fknm.jacob0(len(path), n, path, q, etool, tool, J)]. *)
Variable fknm_jacob0 : nat -> nat -> list nat -> list Z -> mat -> mat -> arr2.

(** One iteration of the [for link in path] loop of [jacob0]: the
    accumulated transform [U], the column counter [j] and the Jacobian [J].
    [at_end] is [link == end], true only when [end] was passed as that
    ELink. *)
Definition jac_step (st : list ELink) (q : list Z) (at_end : nat -> bool)
    (tool T : mat) (l : nat) (acc : mat * nat * (nat -> nat -> Z))
    : res (mat * nat * (nat -> nat -> Z)) :=
  let '(U, j, J) := acc in
  let L := link_at st l in
  if isjoint L then
    x ← jval L q;
    U1 ← match link_A L x with
         | Some A => Ok (mmul4 U A)
         | None => Err (TypeError "unsupported operand type(s) for @")
         end;
    let U2 := if at_end l then mmul4 U1 tool else U1 in
    let Tu := mmul4 (inv4 U2) T in
    let n := col U2 0 in
    let o := col U2 1 in
    let a := col U2 2 in
    let x := Tu 0 3 in
    let y := Tu 1 3 in
    let z := Tu 2 3 in
    let J' := match v_axis L with
              | Rz => set_col3 (set_col3 J 0 j (vsub (vscale o x) (vscale n y))) 3 j a
              | Ry => set_col3 (set_col3 J 0 j (vsub (vscale n z) (vscale a x))) 3 j o
              | Rx => set_col3 (set_col3 J 0 j (vsub (vscale a y) (vscale o z))) 3 j n
              | tx => set_col3 (set_col3 J 0 j n) 3 j zero3
              | ty => set_col3 (set_col3 J 0 j o) 3 j zero3
              | tz => set_col3 (set_col3 J 0 j a) 3 j zero3
              end in
    Ok (U2, S j, J')
  else
    Ok (match link_A L None with Some A => mmul4 U A | None => U end, j, J).

Fixpoint jac_loop (st : list ELink) (q : list Z) (at_end : nat -> bool)
    (tool T : mat) (path : list nat) (acc : mat * nat * (nat -> nat -> Z))
    : res (mat * nat * (nat -> nat -> Z)) :=
  match path with
  | [] => Ok acc
  | l :: path' => acc' ← jac_step st q at_end tool T l acc;
                  jac_loop st q at_end tool T path' acc'
  end.

(** The analytical-Jacobian step: the conversion helpers ([tr2rpy],
    [tr2eul], [trlog]) are not imported by ERobot.py, so each supported
    name stops with a NameError. *)
Definition analytical_step (half analytical : option string) (J : arr2) : res arr2 :=
  match analytical with
  | Some an =>
      if bool_decide (half = Some "trans") then Ok J
      else if bool_decide (an = "rpy-xyz") then Err (NameError "tr2rpy")
      else if bool_decide (an = "rpy-zyx") then Err (NameError "tr2rpy")
      else if bool_decide (an = "eul") then Err (NameError "tr2eul")
      else if bool_decide (an = "exp") then Err (NameError "trlog")
      else Err (ValueError "bad order specified")
  | None => Ok J
  end.

Definition half_step (half : option string) (J : arr2) : res arr2 :=
  match half with
  | None => Ok J
  | Some h =>
      if bool_decide (h = "trans") then Ok (mkArr2 3 (a2_cols J) (a2_get J))
      else if bool_decide (h = "rot")
      then Ok (mkArr2 3 (a2_cols J) (fun i c => a2_get J (i + 3) c))
      else Err (ValueError "bad half specified")
  end.

(** The geometric Jacobian of the Python branch of [jacob0], before the
    analytical and half steps. *)
Definition jacob0_geom (fuel : nat) (q : list Z) (end_ start : link_arg)
    (tool : option mat) (T : option mat) (r : ERobot) : res arr2 * ERobot :=
  let tool := default eye4 tool in
  match get_path fuel end_ start false r with
  | (Ok (path, n, _), r1) =>
      match getvector q (r_n r1) with
      | Ok q =>
          let '(T, r2) :=
            match T with
            | Some T => (Ok T, r1)
            | None =>
                match fkine link_A toradians fknm_fkine fuel (QVec q) "rad"
                        end_ start None false false r1 with
                | (Ok (FKPoses [T0]), r2) => (Ok (mmul4 T0 tool), r2)
                | (Ok _, r2) => (Err (TypeError "unexpected pose"), r2)
                | (Err e, r2) => (Err e, r2)
                | (Diverge, r2) => (Diverge, r2)
                end
            end in
          let at_end := fun l => match end_ with LLink i => Nat.eqb l i | _ => false end in
          (T ← T;
           '(_, _, J) ← jac_loop (r_store r2) q at_end tool T path
                          (eye4, 0, fun _ _ => 0%Z);
           Ok (mkArr2 6 n J), r2)
      | Err e => (Err e, r1)
      | Diverge => (Diverge, r1)
      end
  | (Err e, r1) => (Err e, r1)
  | (Diverge, r1) => (Diverge, r1)
  end.

(** [jacob0(q, end, start, tool, T, half, analytical, fast)] *)
Definition jacob0 (fuel : nat) (q : list Z) (end_ start : link_arg)
    (tool T : option mat) (half analytical : option string) (fast : bool)
    (r : ERobot) : res arr2 * ERobot :=
  if fast then
    match get_path fuel end_ start true r with
    | (Ok (path, n, etool), r') =>
        (Ok (fknm_jacob0 (length path) n path q etool (default eye4 tool)), r')
    | (Err e, r') => (Err e, r')
    | (Diverge, r') => (Diverge, r')
    end
  else
    match jacob0_geom fuel q end_ start tool T r with
    | (Ok J, r1) => (J ← analytical_step half analytical J; half_step half J, r1)
    | (Err e, r1) => (Err e, r1)
    | (Diverge, r1) => (Diverge, r1)
    end.

(** [cross(a, b)] of [hessian0] *)
Definition cross3 (a b : vec3) : vec3 :=
  fun k => match k with
           | 0 => (a 1%nat * b 2%nat - a 2%nat * b 1%nat)%Z
           | 1 => (a 2%nat * b 0%nat - a 0%nat * b 2%nat)%Z
           | 2 => (a 0%nat * b 1%nat - a 1%nat * b 0%nat)%Z
           | _ => 0%Z
           end.

(** [J0[:3, i]] and [J0[3:, j]] *)
Definition trans_col (J : arr2) (i : nat) : vec3 := fun k => a2_get J k i.
Definition rot_col (J : arr2) (j : nat) : vec3 := fun k => a2_get J (k + 3) j.

(** [H[r0:r0+3, i, j] = v] *)
Definition upd3 (H : nat -> nat -> nat -> Z) (r0 i j : nat) (v : vec3)
    : nat -> nat -> nat -> Z :=
  fun k a b => if Nat.leb r0 k && Nat.ltb k (r0 + 3) && Nat.eqb a i && Nat.eqb b j
               then v (k - r0) else H k a b.

(** The body of the double loop of [hessian0] at [(j, i)]. *)
Definition hess_step (J0 : arr2) (j : nat) (H : nat -> nat -> nat -> Z) (i : nat)
    : nat -> nat -> nat -> Z :=
  let H1 := upd3 H 0 i j (cross3 (rot_col J0 j) (trans_col J0 i)) in
  let H2 := upd3 H1 3 i j (cross3 (rot_col J0 j) (rot_col J0 i)) in
  if negb (Nat.eqb i j) then upd3 H2 0 j i (fun k => H2 k i j) else H2.

(** [for j in range(n): for i in range(j, n): ...] *)
Definition hess_loop (J0 : arr2) (n : nat) : nat -> nat -> nat -> Z :=
  fold_left (fun H j => fold_left (hess_step J0 j) (seq j (n - j)) H)
    (seq 0 n) (fun _ _ _ => 0%Z).

(** [hessian0(q, J0, end, start)]: [end] and [start] are resolved by
    [_get_limit_links] and passed on as links (or None). *)
Definition hessian0 (fuel : nat) (q : option (list Z)) (J0 : option arr2)
    (end_ start : link_arg) (r : ERobot) : res arr3 * ERobot :=
  match get_limit_links r end_ start with
  | (Ok (oe, os, _), r0) =>
      match get_path fuel (opt_arg oe) (opt_arg os) false r0 with
      | (Ok (_, n, _), r1) =>
          let mk J := mkArr3 6 n n (hess_loop J n) in
          match J0 with
          | None =>
              match q with
              | None => (Err (TypeError "argument must be a vector"), r1)
              | Some q =>
                  match getvector q n with
                  | Ok q' =>
                      match jacob0 fuel q' (opt_arg oe) (opt_arg os) None None None None
                              false r1 with
                      | (Ok J, r2) => (Ok (mk J), r2)
                      | (Err err, r2) => (Err err, r2)
                      | (Diverge, r2) => (Diverge, r2)
                      end
                  | Err err => (Err err, r1)
                  | Diverge => (Diverge, r1)
                  end
              end
          | Some J =>
              (_ ← verifymatrix J 6 n; Ok (mk J), r1)
          end
      | (Err err, r1) => (Err err, r1)
      | (Diverge, r1) => (Diverge, r1)
      end
  | (Err err, r0) => (Err err, r0)
  | (Diverge, r0) => (Diverge, r0)
  end.

End Jacobian.

(** ** rne: the backward recursion *)

Section RNE.

(** [Xup[j] * f]: a spatial force of link [j] transformed to its parent
    frame ([Xup] is computed by the forward recursion). *)
Variable Xup_f : nat -> list Z -> list Z.
(** [s[j]]: the joint motion subspace of link [j]. *)
Variable s : nat -> list Z.

(** [np.sum(f[j].A * s[j])] *)
Definition fdot (f v : list Z) : Z := fold_right Z.add 0%Z (zip_with Z.mul f v).

(** [f[jp] + Xup[j] * f[j]] *)
Definition fadd (f g : list Z) : list Z := zip_with Z.add f g.

Definition upd {A} (a : nat -> A) (k : nat) (x : A) : nat -> A :=
  fun i => if Nat.eqb i k then x else a i.

(** One iteration of [for j in reversed(range(0, n))], on the force array
    [f] and the joint forces [Q]; [robot[j]] is the [j]-th link of the
    robot. *)
Definition rne_back_step (r : ERobot) (acc : (nat -> list Z) * (nat -> Z)) (j : nat)
    : res ((nat -> list Z) * (nat -> Z)) :=
  let '(f, Q) := acc in
  match r_links r !! j with
  | None => Err IndexError
  | Some lj =>
      let Q' := upd Q j (fdot (f j) (s j)) in
      match parent_of (r_store r) lj with
      | None => Ok (f, Q')
      | Some p =>
          match jindex (link_at (r_store r) p) with
          | Some jp => Ok (upd f jp (fadd (f jp) (Xup_f j (f j))), Q')
          | None => Err (TypeError "list indices must be integers")
          end
      end
  end.

Fixpoint rne_back_loop (r : ERobot) (js : list nat)
    (acc : (nat -> list Z) * (nat -> Z)) : res ((nat -> list Z) * (nat -> Z)) :=
  match js with
  | [] => Ok acc
  | j :: js' => acc' ← rne_back_step r acc j; rne_back_loop r js' acc'
  end.

(** [reversed(range(0, n))] *)
Definition back_order (n : nat) : list nat := rev (seq 0 n).

(** The backward recursion of [rne], from the forces [f] of the forward
    recursion; [Q] starts as [np.empty]. *)
Definition rne_backward (r : ERobot) (f : nat -> list Z) (Q0 : nat -> Z)
    : res ((nat -> list Z) * (nat -> Z)) :=
  rne_back_loop r (back_order (r_n r)) (f, Q0).

End RNE.

(** ** Helpers for the Hessian proofs *)

(** Whether iteration [(j, i)] of the [hessian0] loop writes [H[k, a, b]]. *)
Definition hess_writes (j i k a b : nat) : bool :=
  (Nat.ltb k 3 && Nat.eqb a i && Nat.eqb b j)
  || (Nat.ltb k 3 && negb (Nat.eqb i j) && Nat.eqb a j && Nat.eqb b i)
  || (Nat.leb 3 k && Nat.ltb k 6 && Nat.eqb a i && Nat.eqb b j).

(** The value iteration [(j, _)] writes there. *)
Definition hess_value (J0 : arr2) (j k a b : nat) : Z :=
  if Nat.ltb k 3 then
    if Nat.eqb b j then cross3 (rot_col J0 j) (trans_col J0 a) k
    else cross3 (rot_col J0 j) (trans_col J0 b) k
  else cross3 (rot_col J0 j) (rot_col J0 a) (k - 3).

(** ** ets *)

(** [_getlink(link, default)]: a [None] argument is replaced by [default]. *)
Definition getlink_default (r : ERobot) (x d : link_arg) : res nat :=
  getlink r (match x with LNone => d | _ => x end).

Section Ets.

(** The ETS class: its product [*], [inv()] and [link.ets()]. *)
Variable ets_t : Type.
Variable ets_mul : ets_t -> ets_t -> ets_t.
Variable ets_inv : ets_t -> ets_t.
Variable link_ets : ELink -> ets_t.

(** The search above [link] once its children are done: [path] is the
    [path] argument ([None] at the top level), [go par ex p] the recursive
    call [self.ets(par, end, explored, p)]. *)
Definition ets_up (go : nat -> gset nat -> ets_t -> res (option ets_t * gset nat))
    (st : list ELink) (link : nat) (path : option ets_t) (ex : gset nat)
    : res (option ets_t * gset nat) :=
  match parent_of st link with
  | None => Ok (None, ex)
  | Some par =>
      if bool_decide (par ∈ ex) then Ok (None, ex)
      else
        let linv := ets_inv (link_ets (link_at st link)) in
        go par ex (match path with None => linv | Some p0 => ets_mul p0 linv end)
  end.

(** The loop over [link.children]; [pth] is [path], or [link.ets()] at the
    top level. *)
Fixpoint ets_children (go : nat -> gset nat -> ets_t -> res (option ets_t * gset nat))
    (st : list ELink) (link : nat) (path : option ets_t) (pth : ets_t)
    (cs : list nat) (ex : gset nat) : res (option ets_t * gset nat) :=
  match cs with
  | [] => ets_up go st link path ex
  | c :: cs' =>
      if bool_decide (c ∈ ex) then ets_children go st link path pth cs' ex
      else
        '(p, ex') ← go c ex (ets_mul pth (link_ets (link_at st c)));
        match p with
        | Some _ => Ok (p, ex')
        | None => ets_children go st link path pth cs' ex'
        end
  end.

(** [ets(start, end, explored, path)]; the set [explored] is shared by
    all the calls, so each call returns it with the links it added. *)
Fixpoint ets_go (fuel : nat) (r : ERobot) (start end_ : link_arg) (explored : gset nat)
    (path : option ets_t) : res (option ets_t * gset nat) :=
  match fuel with
  | O => Diverge
  | S f =>
      link ← getlink_default r start (opt_arg (r_base_link r));
      if match end_ with LNone => Nat.ltb 1 (length (r_ee_links r)) | _ => false end
      then Err (ValueError "ambiguous, specify which end-effector is required")
      else
        ee0 ← match r_ee_links r with [] => Err IndexError | x :: _ => Ok x end;
        e ← getlink_default r end_ (opt_arg ee0);
        let explored1 := {[link]} ∪ explored in
        if Nat.eqb link e then Ok (path, explored1)
        else
          let st := r_store r in
          ets_children (fun c ex p => ets_go f r (LLink c) (LLink e) ex (Some p)) st link path
            (default (link_ets (link_at st link)) path) (children (link_at st link)) explored1
  end.

(** [robot.ets(start, end)] *)
Definition ets (fuel : nat) (r : ERobot) (start end_ : link_arg) : res (option ets_t) :=
  '(p, _) ← ets_go fuel r start end_ ∅ None; Ok p.

End Ets.

(** ** Sample robots *)

Definition mk_link (nm : string) (p : parent_ref) (j : bool) (ax : axis)
    (ji : option nat) : ELink :=
  mkELink (Some nm) p [] j ax ji.

(** [a -> b -> c]: [a] and [b] revolute about z, [c] fixed. *)
Definition chain_links : list ELink :=
  [mk_link "a" PNone true Rz None; mk_link "b" (PName "a") true Rz None;
   mk_link "c" (PName "b") false Rz None].

(** A base [a] and two fixed links [b], [c], each the parent of the other;
    the joint index of [a] is given explicitly. *)
Definition cyclic_links : list ELink :=
  [mk_link "a" PNone true Rz (Some 0); mk_link "b" (PName "c") false Rz None;
   mk_link "c" (PName "b") false Rz None].

(** Two prismatic links with the same explicit joint index. *)
Definition dup_index_links : list ELink :=
  [mk_link "a" PNone true tz (Some 0); mk_link "b" (PName "a") true tz (Some 0)].

(** A base [a] with two revolute children [b] and [c]: two end-effectors. *)
Definition branch_links : list ELink :=
  [mk_link "a" PNone true Rz None; mk_link "b" (PName "a") true Rz None;
   mk_link "c" (PName "a") true Rz None].

(** A fixed base [a] and a revolute [b], both given joint index 0. *)
Definition fixed_index_links : list ELink :=
  [mk_link "a" PNone false Rz (Some 0); mk_link "b" (PName "a") true Rz (Some 0)].

(** Two revolute links, only the first with a joint index. *)
Definition mixed_index_links : list ELink :=
  [mk_link "a" PNone true Rz (Some 0); mk_link "b" (PName "a") true Rz None].

(** A single fixed link: a robot without joints. *)
Definition fixed_links : list ELink := [mk_link "a" PNone false Rz None].

(** Link transforms that are all the identity, for evaluation. *)
Definition A_id : ELink -> option Z -> option mat := fun _ _ => Some eye4.
Definition fknm_fkine_id : list nat -> qarg -> mat -> mat -> mat := fun _ _ _ _ => eye4.
Definition fknm_jacob0_zero : nat -> nat -> list nat -> list Z -> mat -> mat -> arr2 :=
  fun _ n _ _ _ _ => mkArr2 6 n (fun _ _ => 0%Z).

(** The value of a construction that succeeded. *)
Definition res_value {A} (d : A) (x : res A) : A :=
  match x with Ok a => a | _ => d end.

Definition empty_robot : ERobot :=
  mkERobot [] [] ∅ None [] [] 0 0 None None ∅ ∅ None None None.

(** [ERobot(chain_links)]. *)
Definition chain_robot : ERobot :=
  res_value empty_robot (construct chain_links [] true None None).

(** [ERobot(fixed_links)]: no joints. *)
Definition fixed_robot : ERobot :=
  res_value empty_robot (construct fixed_links [] true None None).

(** [ERobot(branch_links)]. *)
Definition branch_robot : ERobot :=
  res_value empty_robot (construct branch_links [] true None None).

(** [ERobot(dup_index_links, checkjindex=False)]. *)
Definition dup_robot : ERobot :=
  res_value empty_robot (construct dup_index_links [] false None None).

(** [ERobot(cyclic_links)]. *)
Definition cyclic_robot : ERobot :=
  res_value empty_robot (construct cyclic_links [] true None None).

(** An ETS written as the list of the link names it is made of, each
    with a flag for an inverted factor. *)
Definition ets_names (l : ELink) : list (string * bool) := [(default "" (name l), false)].
Definition ets_names_inv (p : list (string * bool)) : list (string * bool) :=
  rev (map (fun '(s, b) => (s, negb b)) p).

(** Two links, each the parent of the other, the joint index given: a
    robot without a base link and without end-effector links. *)
Definition loop_robot : ERobot :=
  res_value empty_robot
    (construct [mk_link "b" (PName "c") true Rz (Some 0); mk_link "c" (PName "b") false Rz None]
       [] true None None).

(** [ERobot(chain_links, gripper_links=[b])]: [b] and [c] form a gripper. *)
Definition grip_robot : ERobot :=
  res_value empty_robot (construct chain_links [1] true None None).

(** A 6x2 Jacobian whose rotational columns are the x and y axes. *)
Definition J0_xy : arr2 :=
  mkArr2 6 2 (fun r c => if Nat.eqb r 3 && Nat.eqb c 0 then 1%Z
                         else if Nat.eqb r 4 && Nat.eqb c 1 then 1%Z else 0%Z).

(** ** Facts *)

(** Case analysis on the comparisons of a goal: order tests first, each
    branch that contradicts the context is closed at once. *)
Ltac prune_cmp :=
  repeat match goal with
  | |- context [Nat.leb ?a ?b] => destruct (Nat.leb_spec a b); try (exfalso; lia)
  | |- context [Nat.ltb ?a ?b] => destruct (Nat.ltb_spec a b); try (exfalso; lia)
  end.

Ltac eq_destr :=
  repeat match goal with
  | |- context [Nat.eqb ?a ?b] => destruct (Nat.eqb_spec a b); subst
  end.

Ltac decide_destr :=
  repeat match goal with
  | |- context [decide ?P] => destruct (decide P); try (exfalso; lia)
  end.

Module Fk.

Lemma chunks_nil fuel n : chunks fuel n [] = [].
Proof. destruct fuel; reflexivity. Qed.

(** A vector of length [n >= 1] is one configuration. *)
Lemma getmatrix_vec (v : list Z) n :
  n ≠ 0 → length v = n → getmatrix (QVec v) n = Ok [v].
Proof.
  intros Hn Hv. unfold getmatrix.
  destruct (Nat.eqb_spec n 0); [contradiction|].
  rewrite Hv, Nat.Div0.mod_same, Nat.eqb_refl.
  destruct v as [|x v']; [simpl in Hv; lia|].
  rewrite <- Hv. cbn [length chunks].
  rewrite take_ge by (simpl; lia). rewrite drop_ge by (simpl; lia).
  rewrite chunks_nil. reflexivity.
Qed.

Lemma getmatrix_mat rows n :
  Forall (fun row => length row = n) rows → getmatrix (QMat rows) n = Ok rows.
Proof.
  intros Hrows. unfold getmatrix.
  replace (forallb _ rows) with true; [reflexivity|].
  symmetry. apply forallb_forall. intros row Hin.
  rewrite Forall_forall in Hrows. apply Nat.eqb_eq, Hrows.
  apply list_elem_of_In. exact Hin.
Qed.

Lemma map_res_ok {A B} (g : A -> res B) xs ys :
  map_res g xs = Ok ys →
  length ys = length xs ∧ ∀ k x, xs !! k = Some x → ∃ y, ys !! k = Some y ∧ g x = Ok y.
Proof.
  induction xs as [|x xs IH] in ys |- *; simpl.
  - intros H. injection H as <-. split; [reflexivity|]. intros k x' Hk. discriminate.
  - destruct (g x) as [y| |] eqn:Eg; simpl; try discriminate.
    destruct (map_res g xs) as [ys'| |]; simpl; try discriminate.
    intros H. injection H as <-. destruct (IH ys' eq_refl) as [Hl Hk].
    split; [simpl; lia|]. intros [|k] x' Hx; simpl in Hx.
    + injection Hx as <-. exists y. auto.
    + exact (Hk k x' Hx).
Qed.

Lemma map_res_all {A B} (g : A -> res B) xs :
  (∀ x, x ∈ xs → ∃ y, g x = Ok y) → ∃ ys, map_res g xs = Ok ys.
Proof.
  induction xs as [|x xs IH]; simpl; intros H; [eauto|].
  destruct (H x ltac:(set_solver)) as [y ->]. simpl.
  destruct IH as [ys ->]; [intros x' Hx'; apply H; set_solver|].
  simpl. eauto.
Qed.

(** C6 (amended): for a robot with [n >= 1] joints, the Python branch of
    [fkine] ([fast=False]) maps an [(m x n)] array [Q] row by row: when
    [fkine(Q)] succeeds it returns [m] poses, the [k]-th being the single
    pose of [fkine(Q[k])], and for [m >= 1] it succeeds when every row
    does; [fkine(Q)] and every [fkine(Q[k])] leave the robot in the same
    state, the one [_get_limit_links(end, start)] leaves. *)
Theorem fkine_rows link_A toradians fknm_fkine fuel rows unit end_ start tool ib r :
  r_n r ≠ 0 → Forall (fun row => length row = r_n r) rows →
  let fk q := fkine link_A toradians fknm_fkine fuel q unit end_ start tool ib false r in
  snd (fk (QMat rows)) = snd (get_limit_links r end_ start) ∧
  (∀ row, row ∈ rows → snd (fk (QVec row)) = snd (get_limit_links r end_ start)) ∧
  (∀ Ts, fst (fk (QMat rows)) = Ok (FKPoses Ts) →
     length Ts = length rows ∧
     ∀ k row, rows !! k = Some row →
       ∃ T, Ts !! k = Some T ∧ fst (fk (QVec row)) = Ok (FKPoses [T])) ∧
  (rows ≠ [] → (∀ row, row ∈ rows → ∃ T, fst (fk (QVec row)) = Ok (FKPoses [T])) →
     ∃ Ts, fst (fk (QMat rows)) = Ok (FKPoses Ts)).
Proof.
  intros Hn Hrows fk. unfold fk, fkine. rewrite (getmatrix_mat _ _ Hrows).
  assert (Hrow : ∀ row, row ∈ rows → getmatrix (QVec row) (r_n r) = Ok [row]).
  { intros row Hin. apply getmatrix_vec; [exact Hn|].
    rewrite Forall_forall in Hrows. apply Hrows, Hin. }
  destruct (get_limit_links r end_ start) as [[[[oe os] etool]| |] r1];
    (split; [reflexivity|]);
    (split; [intros row Hin; rewrite (Hrow row Hin); reflexivity|]);
    [| split; [discriminate|]; intros Hne H;
       destruct rows as [|row0 rows']; [congruence|];
       destruct (H row0 ltac:(set_solver)) as [T HT];
       rewrite Hrow in HT by set_solver; discriminate ..].
  set (g := fkine_row link_A toradians fuel r1 unit oe os _).
  split.
  - intros Ts HTs.
    destruct (map_res g rows) as [Ts'| |] eqn:Em; cbn in HTs; try discriminate.
    injection HTs as <-. destruct (map_res_ok g rows Ts' Em) as [Hl Hk].
    split; [exact Hl|]. intros k row Hk'.
    destruct (Hk k row Hk') as (T & HT & Hg). exists T. split; [exact HT|].
    rewrite Hrow by (eapply list_elem_of_lookup_2; eauto).
    cbn [fst mbind res_bind map_res]. fold g. rewrite Hg. reflexivity.
  - intros _ Hall. destruct (map_res_all g rows) as [Ts HTs].
    + intros row Hin. destruct (Hall row Hin) as [T HT].
      rewrite Hrow in HT by exact Hin. cbn [fst mbind res_bind map_res] in HT.
      fold g in HT. destruct (g row) as [y| |]; cbn in HT; try discriminate. eauto.
    + exists Ts. cbn [fst]. fold g. rewrite HTs. reflexivity.
Qed.

Lemma fkine_rows_witness :
  r_n chain_robot ≠ 0 ∧
  Forall (fun row => length row = r_n chain_robot) [[0%Z; 0%Z]; [1%Z; 2%Z]] ∧
  let fk q := fkine A_id id fknm_fkine_id 10 q "rad" LNone LNone None true false
                chain_robot in
  snd (fk (QMat [[0%Z; 0%Z]; [1%Z; 2%Z]])) = snd (get_limit_links chain_robot LNone LNone) ∧
  (∀ row, row ∈ [[0%Z; 0%Z]; [1%Z; 2%Z]] →
     snd (fk (QVec row)) = snd (get_limit_links chain_robot LNone LNone)) ∧
  (∀ Ts, fst (fk (QMat [[0%Z; 0%Z]; [1%Z; 2%Z]])) = Ok (FKPoses Ts) →
     length Ts = length [[0%Z; 0%Z]; [1%Z; 2%Z]] ∧
     ∀ k row, [[0%Z; 0%Z]; [1%Z; 2%Z]] !! k = Some row →
       ∃ T, Ts !! k = Some T ∧ fst (fk (QVec row)) = Ok (FKPoses [T])) ∧
  ([[0%Z; 0%Z]; [1%Z; 2%Z]] ≠ [] →
   (∀ row, row ∈ [[0%Z; 0%Z]; [1%Z; 2%Z]] →
      ∃ T, fst (fk (QVec row)) = Ok (FKPoses [T])) →
     ∃ Ts, fst (fk (QMat [[0%Z; 0%Z]; [1%Z; 2%Z]])) = Ok (FKPoses Ts)).
Proof.
  assert (Hn : r_n chain_robot ≠ 0) by (vm_compute; lia).
  assert (Hrows : Forall (fun row => length row = r_n chain_robot)
                    [[0%Z; 0%Z]; [1%Z; 2%Z]]) by (repeat constructor).
  split; [exact Hn|]. split; [exact Hrows|].
  exact (fkine_rows A_id id fknm_fkine_id 10 [[0%Z; 0%Z]; [1%Z; 2%Z]] "rad" LNone LNone
           None true chain_robot Hn Hrows).
Defined.

(** C6 fails as stated for a robot without joints: [getmatrix] keeps a
    [(1 x 0)] array, so [fkine(Q)] returns one pose, but the row [Q[0]] is
    an empty vector that [getmatrix] cannot reshape to [(-1, 0)], so
    [fkine(Q[0])] raises. *)
Lemma fkine_no_joints_row_rejected :
  r_n fixed_robot = 0 ∧
  (∃ T, fst (fkine A_id id fknm_fkine_id 10 (QMat [[]]) "rad" LNone LNone None true
               false fixed_robot) = Ok (FKPoses [T])) ∧
  fst (fkine A_id id fknm_fkine_id 10 (QVec []) "rad" LNone LNone None true false
         fixed_robot) = Err (ValueError "cannot reshape array").
Proof.
  split; [reflexivity|]. split; [eexists; reflexivity|reflexivity].
Qed.

End Fk.

Module Hessian.

Lemma hess_step_eval (J0 : arr2) (j : nat) H i k a b :
  hess_step J0 j H i k a b =
  if hess_writes j i k a b then hess_value J0 j k a b else H k a b.
Proof.
  unfold hess_step, hess_writes, hess_value. destruct (Nat.eqb i j) eqn:Eij; cbn [negb];
    [apply Nat.eqb_eq in Eij | apply Nat.eqb_neq in Eij];
    unfold upd3; cbv beta;
    (assert (k < 3 ∨ 3 ≤ k < 6 ∨ 6 ≤ k) as [Hk|[Hk|Hk]] by lia);
    prune_cmp; rewrite ?Nat.sub_0_r; eq_destr; cbn [andb orb negb];
    try reflexivity; try (exfalso; lia).
Qed.

Lemma hess_inner (J0 : arr2) (j : nat) (l : list nat) H k a b :
  fold_left (hess_step J0 j) l H k a b =
  if existsb (fun i => hess_writes j i k a b) l then hess_value J0 j k a b
  else H k a b.
Proof.
  induction l as [|x l IH] in H |- *; simpl; [reflexivity|].
  rewrite IH, hess_step_eval.
  destruct (hess_writes j x k a b), (existsb _ l); reflexivity.
Qed.

Lemma hess_writes_seq (m n k a b : nat) :
  existsb (fun i => hess_writes m i k a b) (seq m (n - m)) = true <->
  (k < 3 ∧ ((b = m ∧ m ≤ a < n) ∨ (a = m ∧ m < b < n)))
  ∨ (3 ≤ k < 6 ∧ b = m ∧ m ≤ a < n).
Proof.
  rewrite existsb_exists. split.
  - intros (i & Hin & Hw). apply in_seq in Hin. unfold hess_writes in Hw.
    revert Hw; prune_cmp; eq_destr; cbn [andb orb negb]; intros Hw;
      try discriminate; lia.
  - intros H.
    assert (Hx : ∃ i, m ≤ i < n ∧ hess_writes m i k a b = true).
    { unfold hess_writes.
      destruct H as [[Hk [[Hbm Ha]|[Ham Hb]]]|[Hk [Hbm Ha]]].
      - subst b. exists a. split; [lia|]. prune_cmp; rewrite !Nat.eqb_refl; reflexivity.
      - subst a. exists b. split; [lia|]. prune_cmp.
        destruct (Nat.eqb_spec b m); [lia|]. rewrite !Nat.eqb_refl.
        cbn [andb orb negb]. destruct (Nat.eqb m b); reflexivity.
      - subst b. exists a. split; [lia|]. prune_cmp; rewrite !Nat.eqb_refl; simpl.
        destruct (Nat.ltb k 3); simpl; rewrite ?orb_true_r; reflexivity. }
    destruct Hx as (i & Hi & Hw). exists i. split; [apply in_seq; lia|exact Hw].
Qed.

(** The Hessian computed by the loop, entry by entry. *)
Lemma hess_loop_entries (J0 : arr2) (n k a b : nat) :
  hess_loop J0 n k a b =
  if decide (k < 3) then
    if decide (b ≤ a ∧ a < n) then cross3 (rot_col J0 b) (trans_col J0 a) k
    else if decide (a < b ∧ b < n) then cross3 (rot_col J0 a) (trans_col J0 b) k
    else 0%Z
  else if decide (k < 6) then
    if decide (b ≤ a ∧ a < n) then cross3 (rot_col J0 b) (rot_col J0 a) (k - 3)
    else 0%Z
  else 0%Z.
Proof.
  unfold hess_loop.
  assert (Hgen : ∀ m, m ≤ n →
    fold_left (fun H j => fold_left (hess_step J0 j) (seq j (n - j)) H)
      (seq 0 m) (fun _ _ _ => 0%Z) k a b =
    if decide (k < 3) then
      if decide (b ≤ a ∧ a < n ∧ b < m) then cross3 (rot_col J0 b) (trans_col J0 a) k
      else if decide (a < b ∧ b < n ∧ a < m) then cross3 (rot_col J0 a) (trans_col J0 b) k
      else 0%Z
    else if decide (k < 6) then
      if decide (b ≤ a ∧ a < n ∧ b < m) then cross3 (rot_col J0 b) (rot_col J0 a) (k - 3)
      else 0%Z
    else 0%Z).
  { induction m as [|m IH]; intros Hm.
    - simpl. decide_destr; reflexivity.
    - rewrite seq_S, fold_left_app. simpl. rewrite hess_inner.
      destruct (existsb _ _) eqn:E.
      + apply hess_writes_seq in E. unfold hess_value.
        destruct E as [[Hk [[Hbm Ha]|[Ham Hb]]]|[Hk [Hbm Ha]]]; subst;
          prune_cmp; rewrite ?Nat.eqb_refl; decide_destr;
          try reflexivity; try (exfalso; lia).
        destruct (Nat.eqb_spec b m); [lia|reflexivity].
      + assert (Hn : ¬ ((k < 3 ∧ ((b = m ∧ m ≤ a < n) ∨ (a = m ∧ m < b < n)))
                       ∨ (3 ≤ k < 6 ∧ b = m ∧ m ≤ a < n))).
        { rewrite <- hess_writes_seq. rewrite E. discriminate. }
        rewrite IH by lia. decide_destr; try reflexivity; exfalso; lia. }
  rewrite Hgen by lia. decide_destr; try reflexivity; exfalso; lia.
Qed.

Lemma verifymatrix_ok J rows cols u :
  verifymatrix J rows cols = Ok u → a2_rows J = rows ∧ a2_cols J = cols.
Proof.
  unfold verifymatrix.
  destruct (Nat.eqb_spec (a2_rows J) rows), (Nat.eqb_spec (a2_cols J) cols);
    cbn [andb]; intros H; try discriminate; auto.
Qed.

(** The blocks of [H] built from [J] by the loop. *)
Definition hess_blocks (J : arr2) (n : nat) (H : arr3) : Prop :=
  a3_d0 H = 6 ∧ a3_d1 H = n ∧ a3_d2 H = n ∧
  ∀ k i j, i < n → j < n →
    (k < 3 →
       a3_get H k i j = a3_get H k j i ∧
       a3_get H k i j =
         (if decide (j ≤ i) then cross3 (rot_col J j) (trans_col J i) k
          else cross3 (rot_col J i) (trans_col J j) k)) ∧
    (3 ≤ k < 6 →
       a3_get H k i j =
         if decide (j ≤ i) then cross3 (rot_col J j) (rot_col J i) (k - 3)
         else 0%Z).

Lemma hess_loop_blocks J n : hess_blocks J n (mkArr3 6 n n (hess_loop J n)).
Proof.
  unfold hess_blocks. cbn [a3_d0 a3_d1 a3_d2 a3_get].
  split; [reflexivity|]. split; [reflexivity|]. split; [reflexivity|].
  intros k i j Hi Hj. rewrite !hess_loop_entries. split.
  - intros Hk. decide_destr; split; try reflexivity; assert (i = j) as -> by lia; reflexivity.
  - intros Hk. decide_destr; reflexivity.
Qed.

(** C2 (amended): [hessian0] resolves [end] and [start], and [n] is the
    joint count of [get_path(end, start)]; the Hessian it returns is
    [6 x n x n] and, for the Jacobian [J] it uses (the [J0] passed in,
    checked to be [6 x n], or else [jacob0(q, end, start)] with [q] of
    length [n]), its translational block [H[:3]] is symmetric in the two
    joint indices and holds [J[3:, min] x J[:3, max]], while its
    rotational block [H[3:]] holds [J[3:, j] x J[3:, i]] at [(i, j)] with
    [j <= i] and zero above the diagonal. *)
Theorem hessian0_blocks link_A toradians fknm_fkine inv4 fknm_jacob0 fuel q J0
    end_ start r H r' :
  hessian0 link_A toradians fknm_fkine inv4 fknm_jacob0 fuel q J0 end_ start r
    = (Ok H, r') →
  ∃ oe os t r0 p n T r1 (J : arr2),
    get_limit_links r end_ start = (Ok (oe, os, t), r0) ∧
    get_path fuel (opt_arg oe) (opt_arg os) false r0 = (Ok (p, n, T), r1) ∧
    match J0 with
    | Some J' => J = J' ∧ a2_rows J = 6 ∧ a2_cols J = n
    | None => ∃ q0 q' r2, q = Some q0 ∧ getvector q0 n = Ok q' ∧
        jacob0 link_A toradians fknm_fkine inv4 fknm_jacob0 fuel q' (opt_arg oe)
          (opt_arg os) None None None None false r1 = (Ok J, r2)
    end ∧
    hess_blocks J n H.
Proof.
  unfold hessian0. intros Hres.
  destruct (get_limit_links r end_ start) as [[[[oe os] t]| |] r0] eqn:El; try discriminate.
  destruct (get_path fuel (opt_arg oe) (opt_arg os) false r0) as [[[[p n] T]| |] r1] eqn:Ep;
    try discriminate.
  destruct J0 as [J|].
  - destruct (verifymatrix J 6 n) as [u| |] eqn:Ev; simpl in Hres; try discriminate.
    injection Hres as <- <-. exists oe, os, t, r0, p, n, T, r1, J.
    split; [first [exact El|reflexivity]|]. split; [exact Ep|]. split.
    + destruct (verifymatrix_ok _ _ _ _ Ev). auto.
    + apply hess_loop_blocks.
  - destruct q as [q0|]; try discriminate.
    destruct (getvector q0 n) as [q'| |] eqn:Eq; try discriminate.
    match type of Hres with
    | context [jacob0 ?a ?b ?c ?d ?e ?f ?g ?h ?i ?j ?k ?l ?m ?o] =>
        destruct (jacob0 a b c d e f g h i j k l m o) as [[J| |] r2] eqn:Ej
    end; try discriminate.
    injection Hres as <- _. exists oe, os, t, r0, p, n, T, r1, J.
    split; [first [exact El|reflexivity]|]. split; [exact Ep|]. split.
    + exists q0, q', r2. auto.
    + apply hess_loop_blocks.
Qed.

Lemma hessian0_blocks_witness :
  ∃ H r',
    hessian0 A_id id fknm_fkine_id id fknm_jacob0_zero 10 None (Some J0_xy)
      LNone LNone chain_robot = (Ok H, r') ∧
    ∃ oe os t r0 p n T r1 (J : arr2),
      get_limit_links chain_robot LNone LNone = (Ok (oe, os, t), r0) ∧
      get_path 10 (opt_arg oe) (opt_arg os) false r0 = (Ok (p, n, T), r1) ∧
      (J = J0_xy ∧ a2_rows J = 6 ∧ a2_cols J = n) ∧
      hess_blocks J n H.
Proof.
  eexists _, _. split; [reflexivity|].
  eapply (hessian0_blocks A_id id fknm_fkine_id id fknm_jacob0_zero 10 None
           (Some J0_xy) LNone LNone chain_robot).
  reflexivity.
Defined.

(** C2 fails as stated: on the chain robot with [J0 = J0_xy], whose
    rotational columns are the x and y axes, [H[5, 1, 0] = 1] but
    [H[5, 0, 1] = 0]: the rotational block is not mirrored. *)
Lemma hessian0_rot_not_symmetric :
  ∃ H r',
    hessian0 A_id id fknm_fkine_id id fknm_jacob0_zero 10 None (Some J0_xy)
      LNone LNone chain_robot = (Ok H, r') ∧
    a3_get H 5 1 0 = 1%Z ∧ a3_get H 5 0 1 = 0%Z.
Proof.
  eexists _, _. split; [reflexivity|]. split; vm_compute; reflexivity.
Qed.

(** C10: when a Jacobian [J0] is supplied, [hessian0] does not read [q]:
    any two values of [q], [None] included, give the same result and the
    same robot state. *)
Theorem hessian0_ignores_q link_A toradians fknm_fkine inv4 fknm_jacob0 fuel
    (q1 q2 : option (list Z)) (J0 : arr2) end_ start r :
  hessian0 link_A toradians fknm_fkine inv4 fknm_jacob0 fuel q1 (Some J0) end_ start r
  = hessian0 link_A toradians fknm_fkine inv4 fknm_jacob0 fuel q2 (Some J0) end_ start r.
Proof.
  unfold hessian0. reflexivity.
Qed.

End Hessian.

Module Jacob.

(** C8 (amended): when the geometric part of [jacob0] (the Python branch,
    [fast=False]) succeeds, a name for [analytical] other than 'rpy-xyz',
    'rpy-zyx', 'eul' and 'exp' fails with ValueError('bad order
    specified') unless [half] is 'trans'; with no [analytical], a [half]
    other than 'trans' and 'rot' fails with ValueError('bad half
    specified'); [half = 'trans'] returns the translational rows whatever
    [analytical] is. *)
Theorem jacob0_bad_arguments link_A toradians fknm_fkine inv4 fknm_jacob0 fuel q
    end_ start tool T half analytical r J r1 :
  jacob0_geom link_A toradians fknm_fkine inv4 fuel q end_ start tool T r = (Ok J, r1) →
  let res := jacob0 link_A toradians fknm_fkine inv4 fknm_jacob0 fuel q end_ start
               tool T half analytical false r in
  snd res = r1 ∧
  (∀ an, analytical = Some an →
     an ∉ ["rpy-xyz"; "rpy-zyx"; "eul"; "exp"] → half ≠ Some "trans" →
     fst res = Err (ValueError "bad order specified")) ∧
  (∀ h, half = Some h → h ≠ "trans" → h ≠ "rot" → analytical = None →
     fst res = Err (ValueError "bad half specified")) ∧
  (half = Some "trans" → fst res = Ok (mkArr2 3 (a2_cols J) (a2_get J))).
Proof.
  intros Hgeom. unfold jacob0. rewrite Hgeom. cbn zeta.
  split; [destruct (analytical_step _ _ _); reflexivity|].
  split; [|split].
  - intros an -> Han Hh. cbn [fst]. unfold analytical_step.
    rewrite bool_decide_false by exact Hh.
    rewrite !bool_decide_false by (intros ->; apply Han; set_solver).
    reflexivity.
  - intros h -> Ht Hr ->. cbn [fst]. unfold analytical_step, half_step. simpl.
    rewrite bool_decide_false by exact Ht. rewrite bool_decide_false by exact Hr.
    reflexivity.
  - intros ->. cbn [fst]. unfold analytical_step, half_step.
    destruct analytical; rewrite ?bool_decide_true by reflexivity; simpl;
      rewrite ?bool_decide_true by reflexivity; reflexivity.
Qed.

Lemma jacob0_bad_arguments_witness :
  ∃ J r1,
    jacob0_geom A_id id fknm_fkine_id id 10 [0%Z; 0%Z] LNone LNone None None
      chain_robot = (Ok J, r1) ∧
    let res := jacob0 A_id id fknm_fkine_id id fknm_jacob0_zero 10 [0%Z; 0%Z]
                 LNone LNone None None (Some "trans") (Some "bogus") false chain_robot in
    snd res = r1 ∧
    (∀ an, Some "bogus" = Some an →
       an ∉ ["rpy-xyz"; "rpy-zyx"; "eul"; "exp"] → Some "trans" ≠ Some "trans" →
       fst res = Err (ValueError "bad order specified")) ∧
    (∀ h, Some "trans" = Some h → h ≠ "trans" → h ≠ "rot" → Some "bogus" = None →
       fst res = Err (ValueError "bad half specified")) ∧
    (Some "trans" = Some "trans" → fst res = Ok (mkArr2 3 (a2_cols J) (a2_get J))).
Proof.
  eexists _, _. split; [reflexivity|].
  eapply (jacob0_bad_arguments A_id id fknm_fkine_id id fknm_jacob0_zero 10
            [0%Z; 0%Z] LNone LNone None None (Some "trans") (Some "bogus") chain_robot).
  reflexivity.
Defined.

(** C8 fails as stated: with [half = 'trans'] the analytical name is not
    checked, and [jacob0(q, half='trans', analytical='bogus')] returns a
    Jacobian on the chain robot. *)
Lemma jacob0_bogus_analytical_accepted :
  ∃ J, fst (jacob0 A_id id fknm_fkine_id id fknm_jacob0_zero 10 [0%Z; 0%Z]
              LNone LNone None None (Some "trans") (Some "bogus") false chain_robot)
       = Ok J.
Proof.
  eexists. reflexivity.
Qed.

Lemma set_col3_other J r0 j v r c : c ≠ j → set_col3 J r0 j v r c = J r c.
Proof.
  intros Hc. unfold set_col3. destruct (Nat.eqb_spec c j); [congruence|reflexivity].
Qed.

Lemma count_joints_cons st l p :
  count_joints st (l :: p) = (if isjoint (link_at st l) then 1 else 0) + count_joints st p.
Proof.
  unfold count_joints. rewrite filter_cons.
  case_decide as Hd; destruct (isjoint (link_at st l)); simpl; congruence.
Qed.

Lemma count_joints_app st p1 p2 :
  count_joints st (p1 ++ p2) = count_joints st p1 + count_joints st p2.
Proof. unfold count_joints. rewrite filter_app, length_app. reflexivity. Qed.

Lemma jac_loop_app link_A inv4 st q at_end tool T p1 p2 acc :
  jac_loop link_A inv4 st q at_end tool T (p1 ++ p2) acc =
  (acc' ← jac_loop link_A inv4 st q at_end tool T p1 acc;
   jac_loop link_A inv4 st q at_end tool T p2 acc').
Proof.
  induction p1 as [|x p1 IH] in acc |- *; simpl; [reflexivity|].
  destruct (jac_step link_A inv4 st q at_end tool T x acc); simpl; auto.
Qed.

(** One step: the column counter moves past a joint link only, and only
    column [j] can change. *)
Lemma jac_step_shape link_A inv4 st q at_end tool T l U j J U' j' J' :
  jac_step link_A inv4 st q at_end tool T l (U, j, J) = Ok (U', j', J') →
  j' = (if isjoint (link_at st l) then S j else j) ∧
  ∀ r c, c ≠ j → J' r c = J r c.
Proof.
  unfold jac_step. destruct (isjoint (link_at st l)).
  - destruct (jval (link_at st l) q) as [x| |]; cbn; try discriminate.
    destruct (link_A (link_at st l) x) as [A|]; cbn; try discriminate.
    intros H. injection H as <- <- <-. split; [reflexivity|].
    intros r c Hc. destruct (v_axis (link_at st l)); rewrite !set_col3_other by exact Hc;
      reflexivity.
  - intros H. injection H as <- <- <-. split; reflexivity.
Qed.

Lemma jac_loop_shape link_A inv4 st q at_end tool T path U j J U' j' J' :
  jac_loop link_A inv4 st q at_end tool T path (U, j, J) = Ok (U', j', J') →
  j' = j + count_joints st path ∧ ∀ r c, c < j → J' r c = J r c.
Proof.
  induction path as [|x path IH] in U, j, J |- *; cbn [jac_loop].
  - intros H. injection H as <- <- <-. split; [unfold count_joints; simpl; lia|auto].
  - destruct (jac_step link_A inv4 st q at_end tool T x (U, j, J))
      as [[[U1 j1] J1]| |] eqn:E; simpl; try discriminate.
    intros H. apply jac_step_shape in E as [Ej1 HJ1].
    destruct (IH _ _ _ H) as [Ej' HJ']. rewrite count_joints_cons. split.
    + subst. destruct (isjoint (link_at st x)); lia.
    + intros r c Hc. rewrite HJ' by (subst; destruct (isjoint (link_at st x)); lia).
      apply HJ1. lia.
Qed.

(** A translational joint writes the axis [U[:3, c]] and a zero
    rotational part into its column. *)
Lemma jac_step_trans link_A inv4 st q at_end tool T l U j J U' j' J' c :
  isjoint (link_at st l) = true →
  (v_axis (link_at st l) = tx ∧ c = 0 ∨ v_axis (link_at st l) = ty ∧ c = 1
   ∨ v_axis (link_at st l) = tz ∧ c = 2) →
  jac_step link_A inv4 st q at_end tool T l (U, j, J) = Ok (U', j', J') →
  (∀ r, r < 3 → J' r j = U' r c) ∧ (∀ r, 3 ≤ r < 6 → J' r j = 0%Z).
Proof.
  intros Hj Hax. unfold jac_step. rewrite Hj.
  destruct (jval (link_at st l) q) as [x| |]; cbn; try discriminate.
  destruct (link_A (link_at st l) x) as [A|]; cbn; try discriminate.
  intros H. injection H as <- <- <-.
  destruct Hax as [[-> ->]|[[-> ->]|[-> ->]]]; split; intros r Hr;
    unfold set_col3, col, zero3; rewrite Nat.eqb_refl; cbn [andb];
    prune_cmp; rewrite ?Nat.sub_0_r; reflexivity.
Qed.

(** C7: in the Python loop of [jacob0], starting from [U = eye(4)],
    [j = 0] and [J = 0]: the columns filled are one per joint link of the
    path; a translational joint link ([tx], [ty], [tz]) at position
    [pre ++ [l]] of the path owns column [count_joints pre], whose
    translational part is the [n], [o] or [a] axis of the transform [U]
    accumulated through [l] and whose rotational part is zero; a link that
    is not a joint leaves [j] and [J] alone and only multiplies [U] by its
    fixed transform, if it has one. *)
Theorem jac_loop_spec link_A inv4 st q at_end tool T path U j J :
  jac_loop link_A inv4 st q at_end tool T path (eye4, 0, fun _ _ => 0%Z) = Ok (U, j, J) →
  j = count_joints st path ∧
  (∀ pre l post c, path = pre ++ l :: post → isjoint (link_at st l) = true →
     (v_axis (link_at st l) = tx ∧ c = 0 ∨ v_axis (link_at st l) = ty ∧ c = 1
      ∨ v_axis (link_at st l) = tz ∧ c = 2) →
     ∃ Upre Jpre Ul Jl,
       jac_loop link_A inv4 st q at_end tool T pre (eye4, 0, fun _ _ => 0%Z)
         = Ok (Upre, count_joints st pre, Jpre) ∧
       jac_step link_A inv4 st q at_end tool T l (Upre, count_joints st pre, Jpre)
         = Ok (Ul, S (count_joints st pre), Jl) ∧
       (∀ r, r < 3 → J r (count_joints st pre) = Ul r c) ∧
       (∀ r, 3 ≤ r < 6 → J r (count_joints st pre) = 0%Z)) ∧
  (∀ l U0 j0 J0, isjoint (link_at st l) = false →
     jac_step link_A inv4 st q at_end tool T l (U0, j0, J0) =
       Ok (match link_A (link_at st l) None with Some A => mmul4 U0 A | None => U0 end,
           j0, J0)).
Proof.
  intros Hrun. split; [|split].
  - apply jac_loop_shape in Hrun. lia.
  - intros pre l post c -> Hj Hax. rewrite jac_loop_app in Hrun.
    destruct (jac_loop link_A inv4 st q at_end tool T pre (eye4, 0, fun _ _ => 0%Z))
      as [[[Upre jpre] Jpre]| |] eqn:Epre; cbn [mbind res_bind jac_loop] in Hrun; try discriminate.
    pose proof (jac_loop_shape _ _ _ _ _ _ _ _ _ _ _ _ _ _ Epre) as [Ejpre _].
    simpl in Ejpre. subst jpre.
    destruct (jac_step link_A inv4 st q at_end tool T l (Upre, count_joints st pre, Jpre))
      as [[[Ul jl] Jl]| |] eqn:El; cbn [mbind res_bind] in Hrun; try discriminate.
    pose proof (jac_step_shape _ _ _ _ _ _ _ _ _ _ _ _ _ _ El) as [Ejl _].
    rewrite Hj in Ejl. subst jl.
    destruct (jac_step_trans _ _ _ _ _ _ _ _ _ _ _ _ _ _ c Hj Hax El) as [Ht Hr].
    destruct (jac_loop_shape _ _ _ _ _ _ _ _ _ _ _ _ _ _ Hrun) as [_ Hkeep].
    exists Upre, Jpre, Ul, Jl. split; [reflexivity|]. split; [exact El|]. split.
    + intros r Hr3. rewrite Hkeep by lia. apply Ht; lia.
    + intros r Hr6. rewrite Hkeep by lia. apply Hr; lia.
  - intros l U0 j0 J0 Hn. unfold jac_step. rewrite Hn. reflexivity.
Qed.

Lemma jac_loop_spec_witness :
  ∃ U j J,
    jac_loop A_id id dup_index_links [0%Z; 0%Z] (fun _ => false) eye4 eye4 [0; 1]
      (eye4, 0, fun _ _ => 0%Z) = Ok (U, j, J) ∧
    j = count_joints dup_index_links [0; 1] ∧
    (∀ pre l post c, [0; 1] = pre ++ l :: post →
       isjoint (link_at dup_index_links l) = true →
       (v_axis (link_at dup_index_links l) = tx ∧ c = 0
        ∨ v_axis (link_at dup_index_links l) = ty ∧ c = 1
        ∨ v_axis (link_at dup_index_links l) = tz ∧ c = 2) →
       ∃ Upre Jpre Ul Jl,
         jac_loop A_id id dup_index_links [0%Z; 0%Z] (fun _ => false) eye4 eye4 pre
           (eye4, 0, fun _ _ => 0%Z) = Ok (Upre, count_joints dup_index_links pre, Jpre) ∧
         jac_step A_id id dup_index_links [0%Z; 0%Z] (fun _ => false) eye4 eye4 l
           (Upre, count_joints dup_index_links pre, Jpre)
           = Ok (Ul, S (count_joints dup_index_links pre), Jl) ∧
         (∀ r, r < 3 → J r (count_joints dup_index_links pre) = Ul r c) ∧
         (∀ r, 3 ≤ r < 6 → J r (count_joints dup_index_links pre) = 0%Z)) ∧
    (∀ l U0 j0 J0, isjoint (link_at dup_index_links l) = false →
       jac_step A_id id dup_index_links [0%Z; 0%Z] (fun _ => false) eye4 eye4 l
         (U0, j0, J0) =
         Ok (match A_id (link_at dup_index_links l) None with
             | Some A => mmul4 U0 A | None => U0 end, j0, J0)).
Proof.
  eexists _, _, _. split; [reflexivity|].
  eapply (jac_loop_spec A_id id dup_index_links [0%Z; 0%Z] (fun _ => false) eye4 eye4
           [0; 1]).
  reflexivity.
Defined.

End Jacob.

Module Rne.

Lemma back_order_nth n k : k < n → back_order n !! k = Some (n - 1 - k).
Proof.
  intros Hk. unfold back_order.
  rewrite rev_alt. change (rev_append (seq 0 n) []) with (reverse (seq 0 n)).
  rewrite reverse_lookup by (rewrite length_seq; lia). rewrite length_seq.
  rewrite lookup_seq_lt by lia. f_equal; lia.
Qed.

Lemma back_order_split n j :
  j < n → back_order n = rev (seq (S j) (n - S j)) ++ j :: back_order j.
Proof.
  intros Hj. unfold back_order.
  replace n with (j + (1 + (n - S j))) at 1 by lia.
  rewrite seq_app, seq_app. simpl. rewrite rev_app_distr. simpl.
  rewrite <- app_assoc. rewrite Nat.add_1_r. reflexivity.
Qed.

Lemma back_loop_app Xup_f s r l1 l2 acc :
  rne_back_loop Xup_f s r (l1 ++ l2) acc =
  (acc' ← rne_back_loop Xup_f s r l1 acc; rne_back_loop Xup_f s r l2 acc').
Proof.
  induction l1 as [|x l1 IH] in acc |- *; simpl; [reflexivity|].
  destruct (rne_back_step Xup_f s r acc x); simpl; auto.
Qed.

(** A pass over [l] writes [Q] only at the indices of [l]. *)
Lemma back_loop_Q_other Xup_f s r l f Q f' Q' j :
  rne_back_loop Xup_f s r l (f, Q) = Ok (f', Q') → j ∉ l → Q' j = Q j.
Proof.
  induction l as [|x l IH] in f, Q |- *; simpl; intros Hrun Hj.
  - injection Hrun as _ <-. reflexivity.
  - apply not_elem_of_cons in Hj as [Hjx Hj].
    unfold rne_back_step in Hrun.
    destruct (r_links r !! x) as [lx|]; [|discriminate].
    destruct (parent_of (r_store r) lx) as [p|];
      [destruct (jindex (link_at (r_store r) p)) as [jp|]; [|discriminate]|];
      simpl in Hrun; rewrite (IH _ _ Hrun Hj); unfold upd;
      destruct (Nat.eqb_spec j x); congruence.
Qed.

(** C9: the backward pass of [rne] visits the joints in the order
    [n-1, ..., 0]; when joint [j] is visited with forces [fj], the final
    [Q[j]] is [fj[j] . s[j]], and when [robot[j]] has a parent of joint
    index [jp] the force [fj[jp]] is increased by [Xup[j] * fj[j]] (the
    other forces are left alone); the rest of the pass then runs from that
    state. *)
Theorem rne_backward_spec Xup_f s r f Q0 fN QN :
  rne_backward Xup_f s r f Q0 = Ok (fN, QN) →
  (∀ k, k < r_n r → back_order (r_n r) !! k = Some (r_n r - 1 - k)) ∧
  ∀ j, j < r_n r → ∃ lj fj Qj f'',
    rne_back_loop Xup_f s r (rev (seq (S j) (r_n r - S j))) (f, Q0) = Ok (fj, Qj) ∧
    r_links r !! j = Some lj ∧
    QN j = fdot (fj j) (s j) ∧
    (parent_of (r_store r) lj = None → f'' = fj) ∧
    (∀ p, parent_of (r_store r) lj = Some p →
       ∃ jp, jindex (link_at (r_store r) p) = Some jp ∧
             f'' = upd fj jp (fadd (fj jp) (Xup_f j (fj j)))) ∧
    rne_back_loop Xup_f s r (back_order j) (f'', upd Qj j (fdot (fj j) (s j)))
      = Ok (fN, QN).
Proof.
  unfold rne_backward. intros Hrun. split; [apply back_order_nth|].
  intros j Hj. rewrite (back_order_split _ _ Hj), back_loop_app in Hrun.
  destruct (rne_back_loop Xup_f s r (rev (seq (S j) (r_n r - S j))) (f, Q0))
    as [[fj Qj]| |] eqn:Eloop; simpl in Hrun; try discriminate.
  unfold rne_back_step in Hrun.
  destruct (r_links r !! j) as [lj|] eqn:Elj; simpl in Hrun; [|discriminate].
  assert (HQ : ∀ f'', rne_back_loop Xup_f s r (back_order j)
                 (f'', upd Qj j (fdot (fj j) (s j))) = Ok (fN, QN) →
               QN j = fdot (fj j) (s j)).
  { intros f'' H. rewrite (back_loop_Q_other _ _ _ _ _ _ _ _ j H).
    - unfold upd. rewrite Nat.eqb_refl. reflexivity.
    - unfold back_order. rewrite list_elem_of_In, <- in_rev, in_seq. lia. }
  destruct (parent_of (r_store r) lj) as [p|] eqn:Ep.
  - destruct (jindex (link_at (r_store r) p)) as [jp|] eqn:Ejp; [|discriminate].
    simpl in Hrun.
    exists lj, fj, Qj, (upd fj jp (fadd (fj jp) (Xup_f j (fj j)))).
    split; [reflexivity|]. split; [reflexivity|]. split; [exact (HQ _ Hrun)|].
    split; [congruence|]. split; [|exact Hrun].
    intros p' Hp'. rewrite Hp' in Ep. injection Ep as <-. exists jp. split; [exact Ejp|reflexivity].
  - simpl in Hrun. exists lj, fj, Qj, fj.
    split; [reflexivity|]. split; [reflexivity|]. split; [exact (HQ _ Hrun)|].
    split; [reflexivity|]. split; [congruence|exact Hrun].
Qed.

Lemma rne_backward_spec_witness :
  ∃ fN QN,
    rne_backward (fun _ g => g) (fun _ => [1%Z; 0%Z]) chain_robot
      (fun j => [Z.of_nat j + 1; 0]%Z) (fun _ => 0%Z) = Ok (fN, QN) ∧
    (∀ k, k < r_n chain_robot →
       back_order (r_n chain_robot) !! k = Some (r_n chain_robot - 1 - k)) ∧
    ∀ j, j < r_n chain_robot → ∃ lj fj Qj f'',
      rne_back_loop (fun _ g => g) (fun _ => [1%Z; 0%Z]) chain_robot
        (rev (seq (S j) (r_n chain_robot - S j)))
        (fun j => [Z.of_nat j + 1; 0]%Z, fun _ => 0%Z) = Ok (fj, Qj) ∧
      r_links chain_robot !! j = Some lj ∧
      QN j = fdot (fj j) [1%Z; 0%Z] ∧
      (parent_of (r_store chain_robot) lj = None → f'' = fj) ∧
      (∀ p, parent_of (r_store chain_robot) lj = Some p →
         ∃ jp, jindex (link_at (r_store chain_robot) p) = Some jp ∧
               f'' = upd fj jp (fadd (fj jp) (fj j))) ∧
      rne_back_loop (fun _ g => g) (fun _ => [1%Z; 0%Z]) chain_robot (back_order j)
        (f'', upd Qj j (fdot (fj j) [1%Z; 0%Z])) = Ok (fN, QN).
Proof.
  eexists _, _. split; [reflexivity|].
  eapply (rne_backward_spec (fun _ g => g) (fun _ => [1%Z; 0%Z]) chain_robot
            (fun j => [Z.of_nat j + 1; 0]%Z) (fun _ => 0%Z)).
  reflexivity.
Defined.

End Rne.

Module Store.

(** A store update of [__init__]: one link changed by a setter of [P]. *)
Definition astep (P : (ELink -> ELink) -> Prop) (st st' : list ELink) : Prop :=
  ∃ f i, P f ∧ st' = alter f i st.

Lemma astep_mono (P Q : (ELink -> ELink) -> Prop) st st' :
  (∀ f, P f → Q f) → rtc (astep P) st st' → rtc (astep Q) st st'.
Proof.
  intros HPQ H. induction H as [|x y z (f & i & Hf & ->) _ IH]; [reflexivity|].
  eapply rtc_l; [|exact IH]. exists f, i. auto.
Qed.

Lemma astep_length P st st' : rtc (astep P) st st' → length st' = length st.
Proof.
  induction 1 as [|x y z (f & i & _ & ->) _ IH]; [reflexivity|].
  rewrite IH, length_alter. reflexivity.
Qed.

Lemma field_alter {A} (F : ELink -> A) f i st j :
  (∀ x, F (f x) = F x) → F (link_at (alter f i st) j) = F (link_at st j).
Proof.
  intros HF. unfold link_at. destruct (decide (i = j)) as [<-|Hne].
  - rewrite list_lookup_alter_eq. destruct (st !! i); [apply HF|reflexivity].
  - rewrite list_lookup_alter_ne by exact Hne. reflexivity.
Qed.

Lemma astep_field {A} (F : ELink -> A) P st st' :
  (∀ f x, P f → F (f x) = F x) → rtc (astep P) st st' →
  ∀ j, F (link_at st' j) = F (link_at st j).
Proof.
  intros HF H. induction H as [|x y z (f & i & Hf & ->) _ IH]; intros j; [reflexivity|].
  rewrite IH. apply field_alter. intros l. apply HF, Hf.
Qed.

Lemma parent_of_alter f i st j :
  (∀ x, parent (f x) = parent x) → parent_of (alter f i st) j = parent_of st j.
Proof.
  intros HF. unfold parent_of. destruct (decide (i = j)) as [<-|Hne].
  - rewrite list_lookup_alter_eq. destruct (st !! i); simpl; [rewrite HF|]; reflexivity.
  - rewrite list_lookup_alter_ne by exact Hne. reflexivity.
Qed.

Lemma astep_parent_of P st st' :
  (∀ f x, P f → parent (f x) = parent x) → rtc (astep P) st st' →
  ∀ j, parent_of st' j = parent_of st j.
Proof.
  intros HF H. induction H as [|x y z (f & i & Hf & ->) _ IH]; intros j; [reflexivity|].
  rewrite IH. apply parent_of_alter. intros l. apply HF, Hf.
Qed.

(** [parent_of] reads the same field as [link_at]. *)
Lemma parent_of_link_at st j :
  parent_of st j = match parent (link_at st j) with PLink p => Some p | _ => None end.
Proof. unfold parent_of, link_at. destruct (st !! j); reflexivity. Qed.

Lemma count_joints_ext st st' l :
  (∀ j, isjoint (link_at st' j) = isjoint (link_at st j)) →
  count_joints st' l = count_joints st l.
Proof.
  intros H. unfold count_joints. f_equal. apply list_filter_iff.
  intros j. rewrite H. reflexivity.
Qed.

(** The setters of each stage. *)
Definition tree_setter (f : ELink -> ELink) : Prop :=
  (∃ s, f = set_name s) ∨ (∃ p, f = set_parent p) ∨ (∃ c, f = add_child c).

Definition link_setter (f : ELink -> ELink) : Prop :=
  (∃ p, f = set_parent p) ∨ (∃ c, f = add_child c).

Lemma name_links_rtc ls st dict n k st' d' n' :
  name_links ls st dict n k = Ok (st', d', n') → rtc (astep tree_setter) st st'.
Proof.
  induction ls as [|i ls IH] in st, dict, n, k |- *; simpl.
  - intros H. injection H as <- _ _. reflexivity.
  - destruct (name (link_at st i)) as [s|]; cbn.
    + destruct (dict !! s); [discriminate|]. intros H.
      apply (rtc_l _ _ (alter (set_name s) i st)); [|exact (IH _ _ _ _ H)].
      exists (set_name s), i. split; [left; eauto|reflexivity].
    + destruct (dict !! _); [discriminate|]. intros H.
      eapply rtc_l; [|exact (IH _ _ _ _ H)].
      eexists _, i. split; [left; eauto|reflexivity].
Qed.

Lemma resolve_parents_rtc ls st dict st' :
  resolve_parents ls st dict = Ok st' → rtc (astep link_setter) st st'.
Proof.
  induction ls as [|i ls IH] in st |- *; simpl.
  - intros H. injection H as <-. reflexivity.
  - destruct (parent (link_at st i)) as [|p|s]; auto.
    destruct (dict !! s); [|discriminate]. intros H.
    eapply rtc_l; [|exact (IH _ H)]. eexists _, i. split; [left; eauto|reflexivity].
Qed.

Lemma chain_parents_rtc ls st : rtc (astep link_setter) st (chain_parents ls st).
Proof.
  induction ls as [|i ls IH] in st |- *; [reflexivity|].
  destruct ls as [|j ls']; [reflexivity|].
  change (chain_parents (i :: j :: ls') st)
    with (chain_parents (j :: ls') (alter (set_parent (PLink i)) j st)).
  eapply rtc_l; [|apply IH]. eexists _, j. split; [left; eauto|reflexivity].
Qed.

Lemma scan_base_rtc ls st base st' base' :
  scan_base ls st base = Ok (st', base') → rtc (astep link_setter) st st'.
Proof.
  induction ls as [|i ls IH] in st, base |- *; simpl.
  - intros H. injection H as <- _. reflexivity.
  - destruct (parent (link_at st i)) as [|p|s]; [destruct base| |]; try discriminate.
    + apply IH.
    + intros H. eapply rtc_l; [|exact (IH _ _ H)]. eexists _, p.
      split; [right; eauto|reflexivity].
Qed.

End Store.

Module Names.

(** [dict] maps exactly the names of the links [D], each to its link. *)
Definition names_ok (st : list ELink) (dict : gmap string nat) (D : list nat) : Prop :=
  (∀ nm i, dict !! nm = Some i ↔ i ∈ D ∧ name (link_at st i) = Some nm) ∧
  (∀ i, i ∈ D → is_Some (name (link_at st i))).

Lemma name_set nm i j st :
  i < length st →
  name (link_at (alter (set_name nm) i st) j) =
  if decide (i = j) then Some nm else name (link_at st j).
Proof.
  intros Hi. unfold link_at. destruct (decide (i = j)) as [<-|Hne].
  - rewrite list_lookup_alter_eq. destruct (lookup_lt_is_Some_2 st i Hi) as [x ->].
    reflexivity.
  - rewrite list_lookup_alter_ne by exact Hne. reflexivity.
Qed.

Lemma names_ok_step st dict D i nm :
  i ∉ D → i < length st → dict !! nm = None → names_ok st dict D →
  names_ok (alter (set_name nm) i st) (<[nm := i]> dict) (D ++ [i]).
Proof.
  intros HiD Hi Hnm [Hd Hs]. split.
  - intros nm' j. rewrite name_set by exact Hi. rewrite elem_of_app, list_elem_of_singleton.
    destruct (decide (nm = nm')) as [<-|Hne].
    + rewrite lookup_insert_eq. split.
      * intros Hj. injection Hj as <-. rewrite decide_True by reflexivity. auto.
      * intros [Hj Hn]. destruct (decide (i = j)) as [->|Hij]; [reflexivity|].
        exfalso. destruct Hj as [Hj|Hj]; [|congruence].
        assert (dict !! nm = Some j) by (apply Hd; auto). congruence.
    + rewrite lookup_insert_ne by exact Hne. rewrite Hd. split.
      * intros [Hj Hn]. split; [auto|].
        destruct (decide (i = j)) as [->|]; [contradiction|exact Hn].
      * intros [Hj Hn]. destruct (decide (i = j)) as [->|Hij].
        -- injection Hn as Hn. congruence.
        -- destruct Hj as [Hj|Hj]; [auto|congruence].
  - intros j Hj. rewrite name_set by exact Hi.
    destruct (decide (i = j)) as [->|Hij]; [eauto|].
    apply Hs. apply elem_of_app in Hj as [Hj|Hj]; [exact Hj|].
    apply list_elem_of_singleton in Hj. congruence.
Qed.

Lemma name_links_names ls st dict n k st' d' n' D :
  NoDup (D ++ ls) → (∀ i, i ∈ ls → i < length st) → names_ok st dict D →
  name_links ls st dict n k = Ok (st', d', n') →
  names_ok st' d' (D ++ ls) ∧ n' = n + count_joints st ls.
Proof.
  induction ls as [|i ls IH] in st, dict, n, k, D |- *; simpl.
  - intros _ _ Hok H. injection H as <- <- <-. rewrite app_nil_r.
    split; [exact Hok|]. unfold count_joints. simpl. lia.
  - intros Hnd Hlt Hok.
    assert (HiD : i ∉ D).
    { intros HD. apply NoDup_app in Hnd as (_ & Hdis & _).
      apply (Hdis i HD). left. }
    assert (Hi : i < length st) by (apply Hlt; left).
    assert (Hstep : ∀ nm k', dict !! nm = None →
      name_links ls (alter (set_name nm) i st) (<[nm := i]> dict)
        (if isjoint (link_at st i) then S n else n) k' = Ok (st', d', n') →
      names_ok st' d' (D ++ i :: ls) ∧ n' = n + count_joints st (i :: ls)).
    { intros nm k' Ed H.
      destruct (IH (alter (set_name nm) i st) (<[nm := i]> dict) _ _ (D ++ [i])
                  ltac:(rewrite <- app_assoc; exact Hnd)
                  ltac:(intros j Hj; rewrite length_alter; apply Hlt; right; exact Hj)
                  ltac:(apply names_ok_step; assumption) H) as [Hok' Hn'].
      split; [rewrite <- app_assoc in Hok'; exact Hok'|].
      rewrite Hn', Jacob.count_joints_cons.
      rewrite (Store.count_joints_ext st (alter (set_name nm) i st))
        by (intros j; apply (Store.field_alter isjoint); reflexivity).
      destruct (isjoint (link_at st i)); lia. }
    destruct (name (link_at st i)) as [s|]; cbn;
      (destruct (dict !! _) eqn:Ed; [discriminate|]); apply Hstep; exact Ed.
Qed.

End Names.

Module Build.

Definition jsetter (f : ELink -> ELink) : Prop := ∃ k, f = set_jindex k.

Lemma names_ok_keep P st st' dict D :
  (∀ f x, P f → name (f x) = name x) → rtc (Store.astep P) st st' →
  Names.names_ok st dict D → Names.names_ok st' dict D.
Proof.
  intros HP Hr [Hd Hs]. pose proof (Store.astep_field name P st st' HP Hr) as Hn.
  split.
  - intros nm i. rewrite Hn. apply Hd.
  - intros i Hi. rewrite Hn. apply Hs, Hi.
Qed.

Lemma scan_base_result ls st base st' base' :
  scan_base ls st base = Ok (st', base') → base' = base ∨ ∃ b, base' = Some b ∧ b ∈ ls.
Proof.
  induction ls as [|i ls IH] in st, base |- *; simpl.
  - intros H. injection H as _ <-. auto.
  - destruct (parent (link_at st i)) as [|p|s]; [destruct base| |]; try discriminate.
    + intros H. destruct (IH _ _ H) as [->|(b & -> & Hb)]; right; eexists; split;
        [reflexivity|left|reflexivity|right; exact Hb].
    + intros H. destruct (IH _ _ H) as [->|(b & -> & Hb)]; [auto|].
      right. exists b. split; [reflexivity|right; exact Hb].
Qed.

(** Stages 1 to 3 keep the links' joint data; names are given by stage 1
    and the dictionary holds exactly them; [n] counts the joint links. *)
Lemma build_tree_facts st0 st dict n base :
  build_tree st0 = Ok (st, dict, n, base) →
  length st = length st0 ∧
  Names.names_ok st dict (seq 0 (length st0)) ∧
  (∀ j, isjoint (link_at st j) = isjoint (link_at st0 j)) ∧
  (∀ j, jindex (link_at st j) = jindex (link_at st0 j)) ∧
  (∀ j, v_axis (link_at st j) = v_axis (link_at st0 j)) ∧
  n = count_joints st0 (seq 0 (length st0)) ∧
  (∀ b, base = Some b → b < length st0).
Proof.
  unfold build_tree.
  destruct (name_links (seq 0 (length st0)) st0 ∅ 0 0) as [[[st1 d1] n1]| |] eqn:E1;
    cbn; try discriminate.
  destruct (resolve_parents (seq 0 (length st0)) st1 d1) as [st2| |] eqn:E2;
    cbn; try discriminate.
  set (st3 := if all_parents_none (seq 0 (length st0)) st2
              then chain_parents (seq 0 (length st0)) st2 else st2).
  destruct (scan_base (seq 0 (length st0)) st3 None) as [[st4 b4]| |] eqn:E4;
    cbn; try discriminate.
  intros H. injection H as <- <- <- <-.
  pose proof (Store.name_links_rtc _ _ _ _ _ _ _ _ E1) as R1.
  assert (R2 : rtc (Store.astep Store.link_setter) st1 st4).
  { transitivity st2; [exact (Store.resolve_parents_rtc _ _ _ _ E2)|].
    transitivity st3; [|exact (Store.scan_base_rtc _ _ _ _ _ E4)].
    unfold st3. destruct (all_parents_none _ _); [apply Store.chain_parents_rtc|reflexivity]. }
  assert (R : rtc (Store.astep Store.tree_setter) st0 st4).
  { transitivity st1; [exact R1|].
    apply (Store.astep_mono Store.link_setter); [|exact R2].
    intros f Hf. right. exact Hf. }
  assert (Htree : ∀ (A : Type) (F : ELink -> A), (∀ s x, F (set_name s x) = F x) →
            (∀ p x, F (set_parent p x) = F x) → (∀ c x, F (add_child c x) = F x) →
            ∀ j, F (link_at st4 j) = F (link_at st0 j)).
  { intros A F H1 H2 H3. apply (Store.astep_field F Store.tree_setter); [|exact R].
    intros f x [(s & ->)|[(p & ->)|(c & ->)]]; auto. }
  destruct (Names.name_links_names (seq 0 (length st0)) st0 ∅ 0 0 st1 d1 n1 []
              ltac:(simpl; apply NoDup_seq)
              ltac:(intros i Hi; apply elem_of_seq in Hi; lia)
              ltac:(split; [intros nm i; rewrite lookup_empty; split;
                            [discriminate|intros [Hi _]; inversion Hi]
                           |intros i Hi; inversion Hi]) E1) as [Hok Hn].
  split; [exact (Store.astep_length _ _ _ R)|].
  split.
  { eapply (names_ok_keep Store.link_setter); [|exact R2|exact Hok].
    intros f x [(p & ->)|(c & ->)]; reflexivity. }
  split; [apply Htree; reflexivity|].
  split; [apply Htree; reflexivity|].
  split; [apply Htree; reflexivity|].
  split; [exact Hn|].
  intros b Hb. destruct (scan_base_result _ _ _ _ _ E4) as [Hn4|(b' & Hb' & Hin)];
    [congruence|]. rewrite Hb in Hb'. injection Hb' as <-.
  apply elem_of_seq in Hin. lia.
Qed.

End Build.

Module Tree.

Lemma list_remove_perm x ls ls' : list_remove x ls = Ok ls' → ls ≡ₚ x :: ls'.
Proof.
  induction ls as [|y ls IH] in ls' |- *; simpl; [discriminate|].
  destruct (Nat.eq_dec x y) as [->|Hne].
  - intros H. injection H as <-. reflexivity.
  - destruct (list_remove x ls) as [l| |]; cbn; try discriminate.
    intros H. injection H as <-. rewrite (IH l eq_refl). constructor.
Qed.

Lemma remove_links_perm gs ls ls' : remove_links gs ls = Ok ls' → ls ≡ₚ gs ++ ls'.
Proof.
  induction gs as [|g gs IH] in ls |- *; simpl.
  - intros H. injection H as <-. reflexivity.
  - destruct (list_remove g ls) as [l| |] eqn:E; cbn; try discriminate.
    intros H. rewrite (list_remove_perm _ _ _ E), (IH _ H). reflexivity.
Qed.

(** The fold over the children in [vis_children]. *)
Definition visit_fold (g : list nat -> nat -> option (list nat))
    (cs : list nat) (acc : option (list nat)) : option (list nat) :=
  fold_left
    (fun acc li =>
       match acc with
       | None => None
       | Some vis => if bool_decide (li ∈ vis) then Some vis else g vis li
       end) cs acc.

Lemma visit_fold_none g cs : visit_fold g cs None = None.
Proof. induction cs as [|c cs IH]; [reflexivity|exact IH]. Qed.

Lemma visit_fold_inv (R : list nat -> list nat -> Prop) `{!PreOrder R} g cs acc res :
  (∀ vis li res, li ∉ vis → g vis li = Some res → R vis res) →
  visit_fold g cs (Some acc) = Some res → R acc res.
Proof.
  intros Hg. induction cs as [|c cs IH] in acc |- *; simpl.
  - intros H. injection H as <-. reflexivity.
  - unfold visit_fold in IH |- *. simpl.
    case_bool_decide as Hc; [apply IH|].
    destruct (g acc c) as [acc'|] eqn:E.
    + intros H. transitivity acc'; [exact (Hg _ _ _ Hc E)|exact (IH _ H)].
    + intros H. change (visit_fold g cs None = Some res) in H.
      rewrite visit_fold_none in H. discriminate.
Qed.

Lemma vis_children_unfold f st x vis :
  vis_children (S f) st x vis =
  visit_fold (fun vis li => vis_children f st li vis) (children (link_at st x))
    (Some (vis ++ [x])).
Proof. reflexivity. Qed.

Definition prefix_rel (a b : list nat) : Prop := ∃ suf, b = a ++ suf.

#[local] Instance prefix_rel_preorder : PreOrder prefix_rel.
Proof.
  split.
  - intros a. exists []. rewrite app_nil_r. reflexivity.
  - intros a b c [s1 ->] [s2 ->]. exists (s1 ++ s2). rewrite app_assoc. reflexivity.
Qed.

Definition nodup_rel (a b : list nat) : Prop := NoDup a → NoDup b.

#[local] Instance nodup_rel_preorder : PreOrder nodup_rel.
Proof. split; unfold nodup_rel; [intros a H; exact H|intros a b c H1 H2 H; auto]. Qed.

(** The visit of [x] appends [x] and then the links below it. *)
Lemma vis_children_prefix f st x vis res :
  vis_children f st x vis = Some res → ∃ suf, res = vis ++ x :: suf.
Proof.
  induction f as [|f IH] in x, vis, res |- *; [discriminate|].
  rewrite vis_children_unfold. intros H.
  assert (Hg : ∀ v li r, li ∉ v → vis_children f st li v = Some r → prefix_rel v r).
  { intros v li r _ Hv. destruct (IH _ _ _ Hv) as [s ->]. exists (li :: s). reflexivity. }
  destruct (visit_fold_inv prefix_rel _ _ _ _ Hg H) as [s ->].
  exists s. rewrite <- app_assoc. reflexivity.
Qed.

Lemma vis_children_nodup f st x vis res :
  vis_children f st x vis = Some res → x ∉ vis → NoDup vis → NoDup res.
Proof.
  induction f as [|f IH] in x, vis, res |- *; [discriminate|].
  rewrite vis_children_unfold. intros H Hx Hnd.
  refine (visit_fold_inv nodup_rel _ _ _ _ _ H _).
  - intros v li r Hli Hv Hnv. exact (IH _ _ _ Hv Hli Hnv).
  - apply NoDup_app. split; [exact Hnd|]. split; [|apply NoDup_singleton].
    intros y Hy Hy'. apply list_elem_of_singleton in Hy'. subst. contradiction.
Qed.

Lemma dfs_links_head st x vis :
  dfs_links st x = Some vis → ∃ suf, vis = x :: suf.
Proof. intros H. exact (vis_children_prefix _ _ _ _ _ H). Qed.

Lemma dfs_links_nodup st x vis : dfs_links st x = Some vis → NoDup vis.
Proof.
  intros H. refine (vis_children_nodup _ _ _ _ _ H _ _); [intros Hx; inversion Hx|constructor].
Qed.

End Tree.

Module Assign.

Lemma link_at_alter_ne f i j st : i ≠ j → link_at (alter f i st) j = link_at st j.
Proof. intros H. unfold link_at. rewrite list_lookup_alter_ne by exact H. reflexivity. Qed.

Lemma link_at_alter_eq f i st : i < length st → link_at (alter f i st) i = f (link_at st i).
Proof.
  intros H. unfold link_at. rewrite list_lookup_alter_eq.
  destruct (lookup_lt_is_Some_2 st i H) as [x ->]. reflexivity.
Qed.

Lemma extract_facts gl st ls acc ls' gs :
  extract_grippers gl st ls acc = Ok (ls', gs) →
  ∃ gnew, gs = acc ++ gnew ∧ ls ≡ₚ concat (map g_links gnew) ++ ls' ∧
    Forall2 (fun x g => ∃ vis, dfs_links st x = Some vis ∧ g = make_gripper st vis) gl gnew.
Proof.
  induction gl as [|x gl IH] in ls, acc |- *; simpl.
  - intros H. injection H as <- <-. exists []. rewrite app_nil_r. auto.
  - destruct (dfs_links st x) as [vis|] eqn:Ed; [|discriminate].
    destruct (remove_links vis ls) as [l1| |] eqn:Er; cbn; try discriminate.
    intros H. destruct (IH _ _ H) as (gnew & -> & Hp & Hf).
    exists (make_gripper st vis :: gnew). split; [rewrite <- app_assoc; reflexivity|].
    split.
    + rewrite (Tree.remove_links_perm _ _ _ Er), Hp. simpl. rewrite app_assoc. reflexivity.
    + constructor; [exists vis; auto|exact Hf].
Qed.

Lemma visit_links_spec vis ls st c orl st' orl' :
  NoDup vis → (∀ x, x ∈ ls → x < length st) →
  visit_links vis ls st c orl = (st', orl') →
  orl' = orl ++ filter (fun x => x ∈ ls) vis ∧
  rtc (Store.astep Build.jsetter) st st' ∧
  map (fun i => jindex (link_at st' i))
    (filter (fun i => isjoint (link_at st i) = true) (filter (fun x => x ∈ ls) vis))
    = map Some (seq c (count_joints st (filter (fun x => x ∈ ls) vis))) ∧
  (∀ i, i ∉ vis → jindex (link_at st' i) = jindex (link_at st i)).
Proof.
  induction vis as [|x vis IH] in st, c, orl |- *; simpl; intros Hnd Hls H.
  - injection H as <- <-. rewrite app_nil_r. split; [reflexivity|].
    split; [reflexivity|]. split; reflexivity.
  - apply NoDup_cons in Hnd as [Hx Hnd].
    destruct (decide (x ∈ ls)) as [Hin|Hin].
    + rewrite (bool_decide_eq_true_2 _ Hin) in H. rewrite filter_cons_True by exact Hin.
      destruct (isjoint (link_at st x)) eqn:Ej; simpl in H.
      * set (st1 := alter (set_jindex c) x st) in H.
        assert (Hj1 : ∀ j, isjoint (link_at st1 j) = isjoint (link_at st j))
          by (intros j; apply (Store.field_alter isjoint); reflexivity).
        assert (Hx1 : x < length st) by (apply Hls, Hin).
        destruct (IH st1 (S c) (orl ++ [x]) Hnd
                    ltac:(intros y Hy; unfold st1; rewrite length_alter; apply Hls, Hy) H)
          as (Ho & Hr & Hm & Hk).
        split; [rewrite Ho, <- app_assoc; reflexivity|].
        split.
        { eapply rtc_l; [|exact Hr]. exists (set_jindex c), x. split; [exists c|]; reflexivity. }
        split.
        { rewrite filter_cons_True by exact Ej. cbn [map].
          rewrite (Hk x Hx). unfold st1. rewrite link_at_alter_eq by exact Hx1.
          rewrite (list_filter_iff (fun i => isjoint (link_at st i) = true)
                     (fun i => isjoint (link_at st1 i) = true)) by (intros j; rewrite Hj1; reflexivity).
          rewrite Hm, Jacob.count_joints_cons, Ej.
          rewrite (Store.count_joints_ext st st1) by exact Hj1. reflexivity. }
        intros i Hi. rewrite Hk by (intros Hv; apply Hi; right; exact Hv).
        unfold st1. rewrite link_at_alter_ne; [reflexivity|]. intros ->. apply Hi. left.
      * destruct (IH st c (orl ++ [x]) Hnd Hls H) as (Ho & Hr & Hm & Hk).
        split; [rewrite Ho, <- app_assoc; reflexivity|].
        split; [exact Hr|].
        split.
        { rewrite filter_cons_False by congruence. rewrite Hm, Jacob.count_joints_cons, Ej.
          reflexivity. }
        intros i Hi. apply Hk. intros Hv. apply Hi. right. exact Hv.
    + rewrite (bool_decide_eq_false_2 _ Hin), andb_false_r in H.
      rewrite filter_cons_False by exact Hin.
      destruct (IH st c orl Hnd Hls H) as (Ho & Hr & Hm & Hk).
      split; [exact Ho|]. split; [exact Hr|]. split; [exact Hm|].
      intros i Hi. apply Hk. intros Hv. apply Hi. right. exact Hv.
Qed.

(** The [checkjindex] loop accepts only joint links whose indices are in
    [jset] and pairwise different. *)
Lemma check_jindex_spec ls st jset jset' :
  check_jindex ls st jset = Ok jset' →
  (∀ i, i ∈ ls → isjoint (link_at st i) = true →
     ∃ k, jindex (link_at st i) = Some k ∧ k ∈ jset) ∧
  NoDup (map (fun i => jindex (link_at st i))
           (filter (fun i => isjoint (link_at st i) = true) ls)).
Proof.
  induction ls as [|i ls IH] in jset |- *; cbn -[filter map].
  - intros _. split; [intros i Hi; inversion Hi|constructor].
  - destruct (isjoint (link_at st i)) eqn:Ej;
      destruct (jindex (link_at st i)) as [k|] eqn:Ek; cbn -[filter map]; try discriminate.
    + case_bool_decide as Hk; [discriminate|]. intros H.
      destruct (IH _ H) as [Hm Hnd].
      assert (Hkj : k ∈ jset) by (destruct (decide (k ∈ jset)); [assumption|contradiction]).
      split.
      * intros j Hj Hjj. apply elem_of_cons in Hj as [->|Hj]; [eauto|].
        destruct (Hm j Hj Hjj) as (k' & Hk' & Hin). exists k'. split; [exact Hk'|set_solver].
      * rewrite filter_cons_True by exact Ej. cbn [map]. rewrite Ek.
        constructor; [|exact Hnd].
        intros Hin. apply list_elem_of_In, in_map_iff in Hin as (j & Hj & Hjin).
        apply list_elem_of_In, list_elem_of_filter in Hjin as [Hjj Hjin].
        destruct (Hm j Hjin Hjj) as (k' & Hk' & Hin). rewrite Hk' in Hj.
        injection Hj as ->. set_solver.
    + intros H. destruct (IH _ H) as [Hm Hnd]. split.
      * intros j Hj Hjj. apply elem_of_cons in Hj as [->|Hj]; [congruence|].
        destruct (Hm j Hj Hjj) as (k' & Hk' & Hin). exists k'. split; [exact Hk'|set_solver].
      * rewrite filter_cons_False by congruence. exact Hnd.
    + intros H. destruct (IH _ H) as [Hm Hnd]. split.
      * intros j Hj Hjj. apply elem_of_cons in Hj as [->|Hj]; [congruence|].
        exact (Hm j Hj Hjj).
      * rewrite filter_cons_False by congruence. exact Hnd.
Qed.

End Assign.

Module Paths.

Lemma bind_ok {A B} (m : res A) (f : A -> res B) b :
  (m ≫= f) = Ok b → ∃ a, m = Ok a ∧ f a = Ok b.
Proof. destruct m as [a| |]; cbn; [eauto|discriminate|discriminate]. Qed.

(** The stages of a construction that succeeded. *)
Lemma construct_facts st0 gl chk bt tt r :
  construct st0 gl chk bt tt = Ok r →
  ∃ st dict n0 base ls gs,
    build_tree st0 = Ok (st, dict, n0, base) ∧
    extract_grippers gl st (seq 0 (length st0)) [] = Ok (ls, gs) ∧
    assign_jindex st base ls (n0 - sum_gripper_n gs) chk = Ok (r_store r, r_links r) ∧
    r_linkdict r = dict ∧ r_base_link r = base ∧ r_ee_links r = ee_of st gl ls ∧
    r_grippers r = gs ∧ r_n r = n0 - sum_gripper_n gs ∧
    r_path_cache r = ∅ ∧ r_path_cache_fknm r = ∅.
Proof.
  unfold construct. intros H.
  apply bind_ok in H as ([[[st dict] n0] base] & E1 & H).
  apply bind_ok in H as ([ls gs] & E2 & H).
  apply bind_ok in H as ([st' orl] & E3 & H).
  injection H as <-. exists st, dict, n0, base, ls, gs. simpl. auto 10.
Qed.

Lemma assign_rtc st base ls n chk st' orl :
  (∀ x, x ∈ ls → x < length st) →
  assign_jindex st base ls n chk = Ok (st', orl) →
  rtc (Store.astep Build.jsetter) st st' ∧ ∀ i, i ∈ orl → i ∈ ls.
Proof.
  intros Hls. unfold assign_jindex.
  destruct (all_jindex_none st ls).
  - destruct base as [b|]; [|discriminate].
    destruct (dfs_links st b) as [vis|] eqn:Ed; [|discriminate].
    intros H. injection H as H.
    destruct (Assign.visit_links_spec vis ls st 0 [] st' orl
                (Tree.dfs_links_nodup _ _ _ Ed) Hls H) as (-> & Hr & _).
    split; [exact Hr|]. intros i Hi. apply list_elem_of_filter in Hi. apply Hi.
  - destruct (all_joint_jindex_set st ls); [|discriminate].
    assert (Hid : Ok (st, ls) = Ok (st', orl) → rtc (Store.astep Build.jsetter) st st' ∧
                    ∀ i, i ∈ orl → i ∈ ls).
    { intros H. injection H as <- <-. split; [reflexivity|auto]. }
    destruct chk; [|exact Hid].
    intros H. apply bind_ok in H as (jset & _ & H).
    case_bool_decide; [exact (Hid H)|discriminate].
Qed.

(** [p] is a chain of links, each the parent of the next. *)
Inductive parent_chain (st : list ELink) : list nat -> Prop :=
| pc_one a : parent_chain st [a]
| pc_cons a b l : parent_of st b = Some a → parent_chain st (b :: l) →
    parent_chain st (a :: b :: l).

(** [p] goes from [s] down to [e] along parent links, [s] only at its
    head, and [n] counts its joint links. *)
Definition path_ok (st : list ELink) (s e : nat) (p : list nat) (n : nat) : Prop :=
  (∃ t, p = s :: t ∧ s ∉ t) ∧ last p = Some e ∧ parent_chain st p ∧
  n = count_joints st p.

Definition names_inj (st : list ELink) : Prop :=
  ∀ i j, i < length st → j < length st → link_name st i = link_name st j → i = j.

(** Every cached path is a path between the links that have its names. *)
Definition cache_ok (st : list ELink) (c : gmap string (gmap string (list nat * nat * mat)))
    : Prop :=
  ∀ sn en p n t, cache_lookup c sn en = Some (p, n, t) →
  ∀ s e, s < length st → e < length st → link_name st s = sn → link_name st e = en →
  path_ok st s e p n.

Definition wf (r : ERobot) : Prop :=
  (∀ nm i, r_linkdict r !! nm = Some i → i < length (r_store r)) ∧
  names_inj (r_store r) ∧
  (∀ i, i ∈ r_links r → i < length (r_store r)) ∧
  (∀ g i, g ∈ r_grippers r → i ∈ g_links g → i < length (r_store r)) ∧
  (∀ b, r_base_link r = Some b → b < length (r_store r)) ∧
  (r_grippers r = [] → ∀ x, Some x ∈ r_ee_links r → x < length (r_store r)) ∧
  cache_ok (r_store r) (r_path_cache r) ∧
  r_path_cache_fknm r = r_path_cache r.

(** One call of a method that writes attributes of the robot: [get_path]
    or [_get_limit_links]; [fkine], [jacob0] and [hessian0] write them only
    through these two (see [Writes] below). *)
Inductive step : ERobot -> ERobot -> Prop :=
| step_get_path fuel end_ start fknm r out r' :
    get_path fuel end_ start fknm r = (out, r') → step r r'
| step_limit_links end_ start r out r' :
    get_limit_links r end_ start = (out, r') → step r r'.

(** The robots a program can hold: constructed ones, and the robots left
    by the calls above. *)
Inductive reachable : ERobot -> Prop :=
| reach_construct st0 gl chk bt tt r :
    construct st0 gl chk bt tt = Ok r → reachable r
| reach_step r r' : reachable r → step r r' → reachable r'.

Lemma with_caches_self r :
  with_caches r (r_path_cache r) (r_path_cache_fknm r) (r_cache_end r)
    (r_cache_end_tool r) (r_cache_start r) = r.
Proof. destruct r; reflexivity. Qed.

Lemma construct_wf st0 gl chk bt tt r :
  construct st0 gl chk bt tt = Ok r → wf r.
Proof.
  intros H.
  destruct (construct_facts _ _ _ _ _ _ H)
    as (st & dict & n0 & base & ls & gs & E1 & E2 & E3 & Hd & Hb & He & Hg & _ & Hc).
  destruct (Build.build_tree_facts _ _ _ _ _ E1)
    as (Hlen & Hnames & _ & _ & _ & _ & Hbase).
  destruct (Assign.extract_facts _ _ _ _ _ _ E2) as (gnew & Hgs & Hp & Hf).
  simpl in Hgs. subst gnew.
  assert (Hls : ∀ x, x ∈ ls → x < length st).
  { intros x Hx. rewrite Hlen. apply (elem_of_seq 0).
    rewrite Hp. apply elem_of_app. right. exact Hx. }
  destruct (assign_rtc _ _ _ _ _ _ _ Hls E3) as [Hr Horl].
  pose proof (Store.astep_length _ _ _ Hr) as Hlen'.
  assert (Hnames' : Names.names_ok (r_store r) dict (seq 0 (length st0))).
  { apply (Build.names_ok_keep Build.jsetter st); [|exact Hr|exact Hnames].
    intros f x [k ->]. reflexivity. }
  destruct Hnames' as [Hdict Hsome].
  unfold wf. rewrite Hlen', Hlen. split_and!.
  - intros nm i Hi. rewrite Hd in Hi. apply Hdict in Hi as [Hi _].
    apply elem_of_seq in Hi. lia.
  - intros i j Hi Hj Hij. rewrite Hlen', Hlen in Hi, Hj.
    destruct (Hsome i ltac:(apply elem_of_seq; lia)) as [nm Hnm].
    destruct (Hsome j ltac:(apply elem_of_seq; lia)) as [nm' Hnm'].
    unfold link_name in Hij. rewrite Hnm, Hnm' in Hij. simpl in Hij. subst nm'.
    assert (dict !! nm = Some i) by (apply Hdict; split; [apply elem_of_seq; lia|exact Hnm]).
    assert (dict !! nm = Some j) by (apply Hdict; split; [apply elem_of_seq; lia|exact Hnm']).
    congruence.
  - intros i Hi. rewrite <- Hlen. apply Hls, Horl, Hi.
  - intros g i Hgi Hi. rewrite Hg in Hgi.
    assert (Hin : i ∈ seq 0 (length st0)).
    { rewrite Hp. apply elem_of_app. left. rewrite list_elem_of_In, in_concat.
      exists (g_links g). split; [apply in_map|]; apply list_elem_of_In; assumption. }
    apply elem_of_seq in Hin. lia.
  - intros b Hb'. apply Hbase. congruence.
  - intros Hg0 x Hx. rewrite Hg in Hg0. rewrite Hg0 in Hf. rewrite He in Hx.
    destruct gl as [|g gl]; [|inversion Hf].
    simpl in Hx. apply list_elem_of_In, in_map_iff in Hx as (y & Hy & Hyin).
    injection Hy as ->. apply list_elem_of_In, list_elem_of_filter in Hyin as [_ Hyin].
    rewrite <- Hlen. apply Hls, Hyin.
  - intros sn en p n t. rewrite (proj1 Hc). unfold cache_lookup. rewrite lookup_empty.
    discriminate.
  - rewrite (proj1 Hc), (proj2 Hc). reflexivity.
Qed.

End Paths.

Module GetPath.
Import Paths.

Lemma getlink_range r x i : wf r → getlink r x = Ok i → i < length (r_store r).
Proof.
  intros (Hd & _ & Hl & Hg & _) H. destruct x as [|s|j| |]; simpl in H; try discriminate.
  - destruct (r_linkdict r !! s) as [k|] eqn:E; [|discriminate].
    injection H as <-. exact (Hd _ _ E).
  - case_bool_decide as Hj.
    + injection H as <-. exact (Hl _ Hj).
    + destruct (in_gripper_links r j) eqn:Eg; [|discriminate]. injection H as <-.
      unfold in_gripper_links in Eg. apply existsb_exists in Eg as (g & Hgin & Hgj).
      apply bool_decide_eq_true in Hgj. apply (Hg g); [apply list_elem_of_In, Hgin|exact Hgj].
Qed.

Lemma getlink_with_caches r pc pcf ce cet cs x :
  getlink (with_caches r pc pcf ce cet cs) x = getlink r x.
Proof. reflexivity. Qed.

(** The values [_get_limit_links] returns. *)
Lemma limit_links_value r end_ start :
  fst (get_limit_links r end_ start) =
  ('(e, t) ← limit_end r end_;
   os ← match start with
        | LNone => Ok (r_base_link r)
        | _ => s ← getlink r start; Ok (Some s)
        end;
   Ok (e, os, t)).
Proof.
  unfold get_limit_links.
  destruct (limit_end r end_) as [[e t]| |]; [|reflexivity..].
  destruct end_, start; cbv zeta; unfold set_cache_end; rewrite ?getlink_with_caches;
    cbn [fst mbind res_bind r_base_link with_caches]; try reflexivity;
    destruct (getlink r _); reflexivity.
Qed.

(** [_get_limit_links] writes [_cache_end] and [_cache_end_tool] only when
    [end] is None, [_cache_start] only when [start] is None. *)
Lemma limit_links_writes r end_ start :
  ∃ ce cet cs,
    snd (get_limit_links r end_ start) =
      with_caches r (r_path_cache r) (r_path_cache_fknm r) ce cet cs ∧
    (end_ ≠ LNone → ce = r_cache_end r ∧ cet = r_cache_end_tool r) ∧
    (start ≠ LNone → cs = r_cache_start r).
Proof.
  unfold get_limit_links.
  destruct (limit_end r end_) as [[e t]| |];
    [destruct end_, start; cbv zeta; try destruct (getlink _ _); cbn [snd]|..];
    (eexists _, _, _; split; [first [symmetry; apply with_caches_self | reflexivity]|]);
    (split; intros Hne; [first [split; reflexivity | congruence]
                        |first [reflexivity | congruence]]).
Qed.

Lemma limit_links_state r end_ start out r0 :
  get_limit_links r end_ start = (out, r0) →
  ∃ ce cet cs, r0 = with_caches r (r_path_cache r) (r_path_cache_fknm r) ce cet cs.
Proof.
  intros H. destruct (limit_links_writes r end_ start) as (ce & cet & cs & E & _).
  rewrite H in E. eauto.
Qed.

Lemma limit_end_range r end_ oe t :
  wf r → limit_end r end_ = Ok (oe, t) → ∀ e, oe = Some e → e < length (r_store r).
Proof.
  intros Hwf H e ->. pose proof Hwf as (_ & _ & _ & Hg & _ & He & _).
  destruct end_ as [| | | |]; cbn [limit_end] in H.
  { destruct (r_grippers r) as [|g [|g' gs]] eqn:Egs.
    + destruct (r_ee_links r) as [|x [|y l]] eqn:Ee; try discriminate.
      injection H as -> _. apply He; [reflexivity|left].
    + destruct (g_links g) as [|x l] eqn:Eg; [discriminate|].
      injection H as <- _. apply (Hg g); [left|rewrite Eg; left].
    + discriminate. }
  all: apply bind_ok in H as ([e' t'] & _ & H);
    apply bind_ok in H as (e2 & E3 & H); injection H as <- _;
    exact (getlink_range _ _ _ Hwf E3).
Qed.

Lemma limit_links_range r end_ start oe os t :
  wf r → fst (get_limit_links r end_ start) = Ok (oe, os, t) →
  (∀ e, oe = Some e → e < length (r_store r)) ∧ (∀ s, os = Some s → s < length (r_store r)).
Proof.
  intros Hwf H. pose proof Hwf as (_ & _ & _ & _ & Hb & _).
  rewrite limit_links_value in H.
  apply bind_ok in H as ([oe1 t1] & E1 & H). apply bind_ok in H as (os1 & E2 & H).
  injection H as -> -> ->. split; [exact (limit_end_range _ _ _ _ Hwf E1)|].
  intros s ->. destruct start as [| | | |];
    try (apply bind_ok in E2 as (s' & E3 & E2); injection E2 as ->;
         exact (getlink_range _ _ _ Hwf E3)).
  injection E2 as E2. apply Hb. exact E2.
Qed.

Lemma wf_with_caches r pc ce cet cs :
  wf r → cache_ok (r_store r) pc → wf (with_caches r pc pc ce cet cs).
Proof. intros (H1 & H2 & H3 & H4 & H5 & H6 & _) Hc. unfold wf. cbn. auto 10. Qed.

Lemma limit_links_wf r end_ start out r0 :
  wf r → get_limit_links r end_ start = (out, r0) → wf r0 ∧ r_store r0 = r_store r.
Proof.
  intros Hwf H. destruct (limit_links_state _ _ _ _ _ H) as (ce & cet & cs & ->).
  pose proof Hwf as (_ & _ & _ & _ & _ & _ & Hc & Hf). rewrite Hf.
  split; [apply wf_with_caches; assumption|reflexivity].
Qed.

Lemma walk_up_ok fuel st s link R n msg p n' :
  walk_up fuel st s link (rev (link :: R)) n msg = Ok (p, n') →
  parent_chain st (link :: R) →
  ∃ L, rev p = L ++ link :: R ∧ (∃ t, L ++ [link] = s :: t ∧ s ∉ t) ∧
    parent_chain st (rev p) ∧ n' = n + count_joints st L.
Proof.
  induction fuel as [|f IH] in link, R, n |- *; intros H Hc;
    (destruct (Nat.eqb_spec link s) as [<-|Hne];
     [cbn [walk_up] in H; rewrite Nat.eqb_refl in H; injection H as <- <-;
      exists []; rewrite rev_app_distr, rev_involutive; simpl;
      split; [reflexivity|]; split; [exists []; split; [reflexivity|intros Hx; inversion Hx]|];
      split; [exact Hc|unfold count_joints; simpl; lia]|]).
  - cbn [walk_up] in H. apply Nat.eqb_neq in Hne. rewrite Hne in H. discriminate.
  - cbn [walk_up] in H. pose proof Hne as Hne'. apply Nat.eqb_neq in Hne'. rewrite Hne' in H.
    destruct (parent_of st link) as [q|] eqn:Eq; [|discriminate].
    destruct (IH q (link :: R) _ H (pc_cons _ _ _ _ Eq Hc))
      as (L1 & Hp & (t & Ht & Hs) & Hc' & Hn).
    exists (L1 ++ [q]). split; [rewrite Hp, <- app_assoc; reflexivity|].
    split.
    + exists (t ++ [link]). split; [rewrite Ht; reflexivity|].
      intros Hin. apply elem_of_app in Hin as [Hin|Hin]; [contradiction|].
      apply list_elem_of_singleton in Hin. congruence.
    + split; [exact Hc'|]. rewrite Hn, Jacob.count_joints_app, Jacob.count_joints_cons.
      change (count_joints st []) with 0. destruct (isjoint (link_at st q)); lia.
Qed.

Lemma walk_path fuel st s e msg p n :
  walk_up fuel st s e [e] (if isjoint (link_at st e) then 1 else 0) msg = Ok (p, n) →
  path_ok st s e (rev p) n.
Proof.
  intros H. destruct (walk_up_ok fuel st s e [] _ msg p n H (pc_one _ _))
    as (L & Hp & (t & Ht & Hs) & Hc & Hn).
  rewrite Hp. split; [exists t; split; [exact Ht|exact Hs]|].
  split; [apply last_snoc|]. split; [rewrite <- Hp; exact Hc|].
  rewrite Hn, Jacob.count_joints_app, Jacob.count_joints_cons.
  change (count_joints st []) with 0. destruct (isjoint (link_at st e)); lia.
Qed.

Lemma cache_lookup_c1 (c : gmap string (gmap string (list nat * nat * mat))) sn sn' en' x :
  cache_lookup (match c !! sn with Some _ => c | None => <[sn := ∅]> c end) sn' en' = Some x →
  cache_lookup c sn' en' = Some x.
Proof.
  destruct (c !! sn) eqn:E; [auto|]. unfold cache_lookup.
  destruct (decide (sn = sn')) as [<-|Hne].
  - rewrite lookup_insert_eq, E. simpl. rewrite lookup_empty. discriminate.
  - rewrite lookup_insert_ne by exact Hne. auto.
Qed.

Lemma cache_lookup_c1_ext (c : gmap string (gmap string (list nat * nat * mat))) sn sn' en' x :
  cache_lookup c sn' en' = Some x →
  cache_lookup (match c !! sn with Some _ => c | None => <[sn := ∅]> c end) sn' en' = Some x.
Proof.
  destruct (c !! sn) eqn:E; [auto|]. unfold cache_lookup.
  destruct (decide (sn = sn')) as [<-|Hne].
  - rewrite E. discriminate.
  - rewrite lookup_insert_ne by exact Hne. auto.
Qed.

Lemma cache_lookup_insert (c : gmap string (gmap string (list nat * nat * mat))) sn en v
    sn' en' :
  cache_lookup (<[sn := <[en := v]> (default ∅ (c !! sn))]> c) sn' en' =
  if decide (sn' = sn ∧ en' = en) then Some v else cache_lookup c sn' en'.
Proof.
  unfold cache_lookup. destruct (decide (sn = sn')) as [<-|Hne].
  - rewrite lookup_insert_eq. simpl. destruct (decide (en = en')) as [<-|Hne'].
    + rewrite lookup_insert_eq, decide_True by auto. reflexivity.
    + rewrite lookup_insert_ne by exact Hne'. rewrite decide_False by naive_solver.
      destruct (c !! sn); simpl; [reflexivity|apply lookup_empty].
  - rewrite lookup_insert_ne by exact Hne. rewrite decide_False by naive_solver.
    reflexivity.
Qed.

(** The first cache test of [get_path] for a given [end]. *)
Lemma hit_lookup (c : gmap string (gmap string (list nat * nat * mat))) st sn e :
  (match c !! sn with Some d => en ← name_of st (Some e); Ok (d !! en) | None => Ok None end)
  = Ok (cache_lookup c sn (link_name st e)).
Proof. unfold cache_lookup. destruct (c !! sn); reflexivity. Qed.

(** A cache hit: the stored entry is returned, and the robot is left as
    [_get_limit_links] leaves it. *)
Lemma get_path_hit fuel end_ start (fknm : bool) r e s tool r0 entry :
  get_limit_links r end_ start = (Ok (Some e, Some s, tool), r0) →
  cache_lookup (if fknm then r_path_cache_fknm r else r_path_cache r)
    (link_name (r_store r) s) (link_name (r_store r) e) = Some entry →
  get_path fuel end_ start fknm r = (Ok entry, r0).
Proof.
  intros El Hc. pose proof (limit_links_state _ _ _ _ _ El) as (ce & cet & cs & E0).
  unfold get_path. rewrite El. subst r0. cbn [r_store r_path_cache r_path_cache_fknm with_caches].
  rewrite hit_lookup. destruct fknm; rewrite Hc; reflexivity.
Qed.

(** A cache miss: the walk from [end] up to [start]; its path, reversed, is
    stored in both caches. *)
Lemma get_path_miss fuel end_ start fknm r e s tool r0 :
  r_path_cache_fknm r = r_path_cache r →
  get_limit_links r end_ start = (Ok (Some e, Some s, tool), r0) →
  let st := r_store r in
  let sn := link_name st s in
  let en := link_name st e in
  let pc := r_path_cache r in
  let pc1 := match pc !! sn with Some _ => pc | None => <[sn := ∅]> pc end in
  cache_lookup pc sn en = None →
  get_path fuel end_ start fknm r =
  match walk_up fuel st s e [e] (if isjoint (link_at st e) then 1 else 0) (path_not_found st s e) with
  | Ok (path, n) =>
      let v := (rev path, n, default eye4 tool) in
      let pc2 := <[sn := <[en := v]> (default ∅ (pc1 !! sn))]> pc1 in
      (Ok v, set_path_caches r0 pc2 pc2)
  | Err err => (Err err, set_path_caches r0 pc1 pc1)
  | Diverge => (Diverge, set_path_caches r0 pc1 pc1)
  end.
Proof.
  intros Hf El. cbv zeta. intros Hc. pose proof (limit_links_state _ _ _ _ _ El) as (ce & cet & cs & E0).
  unfold get_path. rewrite El. subst r0. cbn [r_store r_path_cache r_path_cache_fknm with_caches].
  rewrite hit_lookup, Hf. destruct fknm; rewrite Hc;
  (destruct (r_path_cache r !! link_name (r_store r) s) as [d|] eqn:Es;
   cbn [set_path_caches];
   destruct (walk_up _ _ _ _ _ _ _) as [[p n]| |]; try reflexivity;
   [rewrite Es|rewrite lookup_insert_eq]; reflexivity).
Qed.

(** Whatever it returns, [get_path] writes only the two path caches, kept
    equal, and the [_cache_*] attributes of [_get_limit_links]; no entry
    already cached changes, and every cached entry holds a path. *)
Lemma get_path_writes fuel end_ start fknm r out r' :
  wf r → get_path fuel end_ start fknm r = (out, r') →
  ∃ pc ce cet cs, r' = with_caches r pc pc ce cet cs ∧
    snd (get_limit_links r end_ start) =
      with_caches r (r_path_cache r) (r_path_cache_fknm r) ce cet cs ∧
    (end_ ≠ LNone → ce = r_cache_end r ∧ cet = r_cache_end_tool r) ∧
    (start ≠ LNone → cs = r_cache_start r) ∧
    (∀ sn en x, cache_lookup (r_path_cache r) sn en = Some x → cache_lookup pc sn en = Some x) ∧
    cache_ok (r_store r) pc.
Proof.
  intros Hwf H. pose proof Hwf as (_ & Hinj & _ & _ & _ & _ & Hc & Hf).
  destruct (limit_links_writes r end_ start) as (ce & cet & cs & Ew & Hce & Hcs).
  rewrite Ew.
  destruct (get_limit_links r end_ start) as [out0 r0] eqn:El. cbn [snd] in Ew. subst r0.
  assert (Hkeep : (out, r') = (out, with_caches r (r_path_cache r) (r_path_cache_fknm r) ce cet cs) →
                  ∃ pc ce' cet' cs', r' = with_caches r pc pc ce' cet' cs' ∧
    with_caches r (r_path_cache r) (r_path_cache_fknm r) ce cet cs =
      with_caches r (r_path_cache r) (r_path_cache_fknm r) ce' cet' cs' ∧
    (end_ ≠ LNone → ce' = r_cache_end r ∧ cet' = r_cache_end_tool r) ∧
    (start ≠ LNone → cs' = r_cache_start r) ∧
    (∀ sn en x, cache_lookup (r_path_cache r) sn en = Some x → cache_lookup pc sn en = Some x) ∧
    cache_ok (r_store r) pc).
  { intros Hr. injection Hr as ->. exists (r_path_cache r), ce, cet, cs.
    split; [rewrite Hf; reflexivity|]. split; [reflexivity|]. auto. }
  destruct out0 as [[[oe os] tool]| |] eqn:Eo;
    [|unfold get_path in H; rewrite El in H; injection H as <- <-; apply Hkeep; reflexivity..].
  assert (Hr := limit_links_range r end_ start oe os tool Hwf).
  rewrite El in Hr. destruct (Hr eq_refl) as [He Hs].
  destruct os as [s|];
    [|unfold get_path in H; rewrite El in H; injection H as <- <-; apply Hkeep; reflexivity].
  destruct oe as [e|].
  - destruct (cache_lookup (r_path_cache r) (link_name (r_store r) s) (link_name (r_store r) e))
      as [entry|] eqn:Ec.
    + rewrite (get_path_hit fuel end_ start fknm r e s tool _ entry El) in H;
        [|rewrite Hf; destruct fknm; exact Ec].
      injection H as <- <-. apply Hkeep. reflexivity.
    + rewrite (get_path_miss fuel end_ start fknm r e s tool _ Hf El Ec) in H.
      set (sn := link_name (r_store r) s) in *. set (en := link_name (r_store r) e) in *.
      set (pc1 := match r_path_cache r !! sn with Some _ => r_path_cache r
                  | None => <[sn := ∅]> (r_path_cache r) end) in *.
      assert (Hc1 : cache_ok (r_store r) pc1).
      { intros sn' en' p n t' Hl. apply cache_lookup_c1 in Hl. exact (Hc _ _ _ _ _ Hl). }
      destruct (walk_up _ _ _ _ _ _ _) as [[p n]| |] eqn:Ew; injection H as <- <-;
        (eexists _, ce, cet, cs; split; [reflexivity|]; split; [reflexivity|];
         split; [exact Hce|]; split; [exact Hcs|]);
        [|split; [intros ? ? ?; apply cache_lookup_c1_ext|exact Hc1]..].
      split.
      * intros sn' en' x Hl. rewrite cache_lookup_insert.
        destruct (decide _) as [[-> ->]|_]; [congruence|].
        apply cache_lookup_c1_ext. exact Hl.
      * intros sn' en' p' n' t' Hl. rewrite cache_lookup_insert in Hl.
        destruct (decide _) as [[-> ->]|_]; [|exact (Hc1 _ _ _ _ _ Hl)].
        injection Hl as <- <- _. intros s' e' Hs' He' Hsn Hen.
        assert (s' = s) by (apply Hinj; auto). assert (e' = e) by (apply Hinj; auto).
        subst s' e'. exact (walk_path _ _ _ _ _ _ _ Ew).
  - unfold get_path in H. rewrite El in H.
    cbn [r_store r_path_cache r_path_cache_fknm with_caches] in H. rewrite Hf in H.
    pose proof (cache_lookup_c1 (r_path_cache r) (link_name (r_store r) s)) as B1.
    pose proof (cache_lookup_c1_ext (r_path_cache r) (link_name (r_store r) s)) as B2.
    destruct fknm;
    (destruct (r_path_cache r !! link_name (r_store r) s) as [d|] eqn:Es;
      [injection H as <- <-; apply Hkeep; rewrite Hf; reflexivity|]);
    cbn [set_path_caches] in H; injection H as <- <-;
    (eexists _, ce, cet, cs; split; [reflexivity|]; split; [reflexivity|];
         split; [exact Hce|]; split; [exact Hcs|]);
    (split; [exact B2|]);
    intros sn' en' p n t' Hl; exact (Hc _ _ _ _ _ (B1 _ _ _ Hl)).
Qed.

Lemma get_path_wf fuel end_ start fknm r out r' :
  wf r → get_path fuel end_ start fknm r = (out, r') → wf r' ∧ r_store r' = r_store r.
Proof.
  intros Hwf H. destruct (get_path_writes _ _ _ _ _ _ _ Hwf H) as (pc & ce & cet & cs & -> & _ & _ & _ & _ & Hc).
  split; [apply wf_with_caches; assumption|reflexivity].
Qed.

Lemma step_wf r r' : wf r → step r r' → wf r' ∧ r_store r' = r_store r.
Proof.
  intros Hwf Hs. inversion Hs as [fuel end_ start fknm r0 out r1 H|end_ start r0 out r1 H]; subst.
  - exact (get_path_wf _ _ _ _ _ _ _ Hwf H).
  - exact (limit_links_wf _ _ _ _ _ Hwf H).
Qed.

Lemma reachable_wf r : reachable r → wf r.
Proof.
  induction 1 as [st0 gl chk bt tt r H|r r' _ IH H].
  - exact (construct_wf _ _ _ _ _ _ H).
  - exact (proj1 (step_wf _ _ IH H)).
Qed.

(** [get_path] returns a path only for links [end] and [start] that
    [_get_limit_links] resolves to links. *)
Lemma get_path_ok_inv fuel end_ start fknm r x r' :
  get_path fuel end_ start fknm r = (Ok x, r') →
  ∃ e s tool r0, get_limit_links r end_ start = (Ok (Some e, Some s, tool), r0).
Proof.
  unfold get_path. intros H.
  destruct (get_limit_links r end_ start) as [[[[oe os] tool]| |] r0]; try discriminate.
  destruct os as [s|]; [|discriminate]. destruct oe as [e|]; [eauto|].
  exfalso. repeat case_match; simplify_eq.
Qed.

(** [ancestor st k x]: the link reached from [x] by following [k] parent
    references. *)
Fixpoint ancestor (st : list ELink) (k x : nat) : option nat :=
  match k with
  | O => Some x
  | S k' => parent_of st x ≫= ancestor st k'
  end.

Lemma ancestor_S_r st k x : ancestor st (S k) x = ancestor st k x ≫= parent_of st.
Proof.
  induction k as [|k IH] in x |- *; simpl.
  - destruct (parent_of st x); reflexivity.
  - destruct (parent_of st x) as [y|]; simpl; [apply IH|reflexivity].
Qed.

Lemma chain_ancestor st p : parent_chain st p →
  ∀ a e, hd_error p = Some a → last p = Some e → ∃ k, ancestor st k e = Some a.
Proof.
  induction 1 as [a|a b l Hp Hc IH]; intros a' e Ha He.
  - simpl in Ha, He. injection Ha as <-. injection He as <-. exists 0. reflexivity.
  - simpl in Ha. injection Ha as <-. destruct (IH b e eq_refl He) as [k Hk].
    exists (S k). rewrite ancestor_S_r, Hk. exact Hp.
Qed.

Lemma path_ok_ancestor st s e p n : path_ok st s e p n → ∃ k, ancestor st k e = Some s.
Proof.
  intros ((t & -> & _) & Hl & Hc & _). exact (chain_ancestor _ _ Hc s e eq_refl Hl).
Qed.

(** A walk that never meets [s] ends with the error, or runs out of fuel;
    when a link without parent comes within the fuel, with the error; when
    every link above has a parent, it runs out of any fuel. *)
Lemma walk_up_fail fuel st s link path n msg :
  (∀ k x, ancestor st k link = Some x → x ≠ s) →
  (walk_up fuel st s link path n msg = Err (ValueError msg) ∨
   walk_up fuel st s link path n msg = Diverge) ∧
  ((∃ m, m ≤ fuel ∧ ancestor st m link = None) →
   walk_up fuel st s link path n msg = Err (ValueError msg)) ∧
  ((∀ m, ancestor st m link ≠ None) → walk_up fuel st s link path n msg = Diverge).
Proof.
  induction fuel as [|f IH] in link, path, n |- *; intros Ha;
    (assert (Hne : link ≠ s) by exact (Ha 0 link eq_refl));
    cbn [walk_up]; apply Nat.eqb_neq in Hne; rewrite Hne.
  - split; [auto|]. split; [|auto].
    intros (m & Hm & Hn). assert (m = 0) as -> by lia. discriminate.
  - destruct (parent_of st link) as [q|] eqn:Eq.
    2:{ split; [auto|]. split; [auto|]. intros Hall. exfalso. apply (Hall 1). simpl.
        rewrite Eq. reflexivity. }
    assert (Ha' : ∀ k x, ancestor st k q = Some x → x ≠ s).
    { intros k x Hk. apply (Ha (S k)). simpl. rewrite Eq. exact Hk. }
    destruct (IH q (path ++ [q]) (if isjoint (link_at st q) then S n else n) Ha')
      as (H1 & H2 & H3).
    split; [exact H1|]. split.
    + intros ([|m] & Hm & Hn); [discriminate|].
      apply H2. exists m. split; [lia|]. simpl in Hn. rewrite Eq in Hn. exact Hn.
    + intros Hall. apply H3. intros m. specialize (Hall (S m)). simpl in Hall.
      rewrite Eq in Hall. exact Hall.
Qed.

(** C1: for a robot obtained by construction and calls that write its
    attributes, a path returned by [get_path(end, start)] (either cache)
    runs from [start] down to [end] with both included: [start] first and
    nowhere else, [end] last, each link the parent of the next; the count
    is the number of joint links of the whole list, [start] included. *)
Theorem get_path_spec fuel end_ start fknm r p n t r' :
  reachable r → get_path fuel end_ start fknm r = (Ok (p, n, t), r') →
  ∃ e s tool r0, get_limit_links r end_ start = (Ok (Some e, Some s, tool), r0) ∧
    path_ok (r_store r) s e p n.
Proof.
  intros Hr H. pose proof (reachable_wf _ Hr) as Hwf.
  pose proof Hwf as (_ & _ & _ & _ & _ & _ & Hc & Hf).
  destruct (get_path_ok_inv _ _ _ _ _ _ _ H) as (e & s & tool & r0 & El).
  exists e, s, tool, r0. split; [exact El|].
  destruct (limit_links_range r end_ start (Some e) (Some s) tool Hwf)
    as [He Hs]; [rewrite El; reflexivity|].
  specialize (He e eq_refl). specialize (Hs s eq_refl).
  destruct (cache_lookup (r_path_cache r) (link_name (r_store r) s) (link_name (r_store r) e))
    as [[[p' n'] t']|] eqn:Ec.
  - rewrite (get_path_hit fuel end_ start fknm r e s tool r0 (p', n', t') El) in H;
      [|rewrite Hf; destruct fknm; exact Ec].
    injection H as -> -> _ _. exact (Hc _ _ _ _ _ Ec s e Hs He eq_refl eq_refl).
  - rewrite (get_path_miss fuel end_ start fknm r e s tool r0 Hf El Ec) in H.
    destruct (walk_up _ _ _ _ _ _ _) as [[p' n']| |] eqn:Ew; inversion H.
    subst. exact (walk_path _ _ _ _ _ _ _ Ew).
Qed.

Lemma get_path_spec_witness :
  ∃ p n t r', get_path 10 (LName "c") (LName "a") false chain_robot = (Ok (p, n, t), r') ∧
  ∃ e s tool r0, get_limit_links chain_robot (LName "c") (LName "a") =
      (Ok (Some e, Some s, tool), r0) ∧
    path_ok (r_store chain_robot) s e p n.
Proof.
  eexists _, _, _, _. split; [vm_compute; reflexivity|].
  eapply (get_path_spec 10 (LName "c") (LName "a") false chain_robot); [|vm_compute; reflexivity].
  apply (reach_construct chain_links [] true None None). vm_compute. reflexivity.
Defined.

(** On [a -> b -> c], [get_path(c, a)] returns [a, b, c] with two joints:
    the path starts at [a] itself, and [b, c] holds one joint only. *)
Lemma get_path_includes_start :
  ∃ t r', get_path 10 (LName "c") (LName "a") false chain_robot = (Ok ([0; 1; 2], 2, t), r') ∧
    r_linkdict chain_robot !! "a" = Some 0 ∧ count_joints (r_store chain_robot) [1; 2] = 1.
Proof.
  eexists _, _. split; [vm_compute; reflexivity|]. split; vm_compute; reflexivity.
Qed.

(** C3: for a robot obtained by construction and calls that write its
    attributes, when [_get_limit_links] resolves [end] and [start] to links
    and [start] is not reached from [end] by parent references,
    [get_path(end, start)] never returns a path: it raises
    ValueError('cannot find path from <start> to <end>') or does not
    terminate; it raises the error when the walk comes to a link without
    parent, and never terminates when every link above [end] has a parent
    (the parent references then run in a cycle that avoids [start]). *)
Theorem get_path_no_ancestor fuel end_ start fknm r e s tool r0 :
  reachable r → get_limit_links r end_ start = (Ok (Some e, Some s, tool), r0) →
  (∀ k x, ancestor (r_store r) k e = Some x → x ≠ s) →
  let out := fst (get_path fuel end_ start fknm r) in
  (out = Err (ValueError (path_not_found (r_store r) s e)) ∨ out = Diverge) ∧
  ((∃ m, m ≤ fuel ∧ ancestor (r_store r) m e = None) →
   out = Err (ValueError (path_not_found (r_store r) s e))) ∧
  ((∀ m, ancestor (r_store r) m e ≠ None) → out = Diverge).
Proof.
  intros Hr El Ha. pose proof (reachable_wf _ Hr) as Hwf.
  pose proof Hwf as (_ & _ & _ & _ & _ & _ & Hc & Hf).
  destruct (limit_links_range r end_ start (Some e) (Some s) tool Hwf)
    as [He Hs]; [rewrite El; reflexivity|].
  specialize (He e eq_refl). specialize (Hs s eq_refl).
  destruct (cache_lookup (r_path_cache r) (link_name (r_store r) s) (link_name (r_store r) e))
    as [[[p n] t]|] eqn:Ec.
  - exfalso. destruct (path_ok_ancestor _ _ _ _ _ (Hc _ _ _ _ _ Ec s e Hs He eq_refl eq_refl))
      as [k Hk].
    exact (Ha k s Hk eq_refl).
  - cbv zeta. rewrite (get_path_miss fuel end_ start fknm r e s tool r0 Hf El Ec).
    destruct (walk_up_fail fuel (r_store r) s e [e]
                (if isjoint (link_at (r_store r) e) then 1 else 0)
                (path_not_found (r_store r) s e) Ha) as (H1 & H2 & H3).
    destruct H1 as [H1|H1]; rewrite H1; cbn [fst].
    + split; [left; reflexivity|]. split; [intros _; reflexivity|].
      intros Hall. rewrite (H3 Hall) in H1. discriminate.
    + split; [right; reflexivity|]. split; [|intros _; reflexivity].
      intros Hm. rewrite (H2 Hm) in H1. discriminate.
Qed.

Lemma get_path_no_ancestor_witness :
  get_limit_links chain_robot (LName "a") (LName "c") =
    (Ok (Some 0, Some 2, None), snd (get_limit_links chain_robot (LName "a") (LName "c"))) ∧
  (∀ k x, ancestor (r_store chain_robot) k 0 = Some x → x ≠ 2) ∧
  let out := fst (get_path 10 (LName "a") (LName "c") false chain_robot) in
  (out = Err (ValueError (path_not_found (r_store chain_robot) 2 0)) ∨ out = Diverge) ∧
  ((∃ m, m ≤ 10 ∧ ancestor (r_store chain_robot) m 0 = None) →
   out = Err (ValueError (path_not_found (r_store chain_robot) 2 0))) ∧
  ((∀ m, ancestor (r_store chain_robot) m 0 ≠ None) → out = Diverge).
Proof.
  assert (Hl : get_limit_links chain_robot (LName "a") (LName "c") =
    (Ok (Some 0, Some 2, None), snd (get_limit_links chain_robot (LName "a") (LName "c"))))
    by (vm_compute; reflexivity).
  assert (Ha : ∀ k x, ancestor (r_store chain_robot) k 0 = Some x → x ≠ 2).
  { intros [|k] x H; [injection H as <-; lia|]. vm_compute in H. discriminate. }
  split; [exact Hl|]. split; [exact Ha|].
  exact (get_path_no_ancestor 10 (LName "a") (LName "c") false chain_robot 0 2 None _
           (reach_construct chain_links [] true None None chain_robot
              ltac:(vm_compute; reflexivity)) Hl Ha).
Defined.

Lemma cyclic_parents :
  parent_of (r_store cyclic_robot) 1 = Some 2 ∧ parent_of (r_store cyclic_robot) 2 = Some 1.
Proof. split; vm_compute; reflexivity. Qed.

Lemma walk_up_cyclic fuel link path n msg :
  link = 1 ∨ link = 2 → walk_up fuel (r_store cyclic_robot) 0 link path n msg = Diverge.
Proof.
  destruct cyclic_parents as [H1 H2].
  induction fuel as [|f IH] in link, path, n |- *;
    intros [-> | ->]; cbn [walk_up]; simpl Nat.eqb; try reflexivity.
  - rewrite H1. apply IH. right. reflexivity.
  - rewrite H2. apply IH. left. reflexivity.
Qed.

(** On the robot whose links [b] and [c] are each the other's parent,
    construction succeeds, the base [a] is not reached from [b] by parent
    references, and [get_path(b)] runs out of any fuel: the Python loop
    never ends, where the spec has it raise an error. *)
Lemma get_path_cycle_diverges :
  construct cyclic_links [] true None None = Ok cyclic_robot ∧
  fst (get_limit_links cyclic_robot (LName "b") LNone) = Ok (Some 1, Some 0, None) ∧
  (∀ k x, ancestor (r_store cyclic_robot) k 1 = Some x → x ≠ 0) ∧
  ∀ fuel fknm, fst (get_path fuel (LName "b") LNone fknm cyclic_robot) = Diverge.
Proof.
  destruct cyclic_parents as [H1 H2].
  assert (Hl : get_limit_links cyclic_robot (LName "b") LNone =
    (Ok (Some 1, Some 0, None), snd (get_limit_links cyclic_robot (LName "b") LNone)))
    by (vm_compute; reflexivity).
  split; [vm_compute; reflexivity|]. split; [rewrite Hl; reflexivity|]. split.
  - assert (Hk : ∀ k, ancestor (r_store cyclic_robot) k 1 = Some 1 ∨
                      ancestor (r_store cyclic_robot) k 1 = Some 2).
    { intros k. cut (∀ x, x = 1 ∨ x = 2 →
                     ancestor (r_store cyclic_robot) k x = Some 1 ∨
                     ancestor (r_store cyclic_robot) k x = Some 2); [intros H; apply H; auto|].
      induction k as [|k IH]; intros x [-> | ->]; simpl; auto.
      - rewrite H1. simpl. apply IH. auto.
      - rewrite H2. simpl. apply IH. auto. }
    intros k x Hx. destruct (Hk k) as [E|E]; rewrite E in Hx; injection Hx as <-; lia.
  - intros fuel fknm.
    rewrite (get_path_miss fuel (LName "b") LNone fknm cyclic_robot 1 0 None _
               ltac:(vm_compute; reflexivity) Hl ltac:(vm_compute; reflexivity)).
    rewrite walk_up_cyclic by auto. reflexivity.
Qed.

End GetPath.

Module DefaultEnd.
Import Paths.

(** C4: with no explicit end, a robot with one gripper ends at the
    gripper's first link (its root, the link it is attached by) with the
    gripper's tool; a robot without grippers and with one end-effector ends
    there; with two or more end-effectors [_get_limit_links] raises
    ValueError('Must specify which end-effector'), while naming any of
    them succeeds. *)
Theorem default_end st0 gl chk bt tt r :
  construct st0 gl chk bt tt = Ok r →
  (∀ g0, gl = [g0] → ∃ g, r_grippers r = [g] ∧ head (g_links g) = Some g0 ∧
     fst (get_limit_links r LNone LNone) = Ok (Some g0, r_base_link r, g_tool g)) ∧
  (gl = [] → r_grippers r = [] ∧
     (∀ x, r_ee_links r = [Some x] →
        fst (get_limit_links r LNone LNone) = Ok (Some x, r_base_link r, None)) ∧
     (2 ≤ length (r_ee_links r) → ∀ start,
        fst (get_limit_links r LNone start) = Err (ValueError "Must specify which end-effector")) ∧
     (∀ x, Some x ∈ r_ee_links r →
        fst (get_limit_links r (LName (link_name (r_store r) x)) LNone) =
          Ok (Some x, r_base_link r, None))).
Proof.
  intros H.
  destruct (construct_facts _ _ _ _ _ _ H)
    as (st & dict & n0 & base & ls & gs & E1 & E2 & E3 & Hd & Hb & He & Hg & _ & _).
  destruct (Build.build_tree_facts _ _ _ _ _ E1) as (Hlen & Hnames & _).
  destruct (Assign.extract_facts _ _ _ _ _ _ E2) as (gnew & Hgs & Hp & Hf).
  simpl in Hgs. subst gnew.
  split.
  - intros g0 ->. apply Forall2_cons_inv_l in Hf as (g & l' & (vis & Hvis & ->) & Hf' & ->).
    apply Forall2_nil_inv_l in Hf' as ->.
    destruct (Tree.dfs_links_head _ _ _ Hvis) as [suf ->].
    eexists. split; [exact Hg|]. split; [reflexivity|].
    rewrite GetPath.limit_links_value. unfold limit_end. rewrite Hg. reflexivity.
  - intros ->. apply Forall2_nil_inv_l in Hf as ->. simpl in E2. injection E2 as <-.
    split; [exact Hg|]. split; [|split].
    + intros x Hx. rewrite GetPath.limit_links_value. unfold limit_end. rewrite Hg, Hx.
      reflexivity.
    + intros Hlen2 start. rewrite GetPath.limit_links_value. unfold limit_end. rewrite Hg.
      destruct (r_ee_links r) as [|a [|a' l]]; simpl in Hlen2; try lia.
      reflexivity.
    + intros x Hx.
      assert (Hls : ∀ y, y ∈ seq 0 (length st0) → y < length st)
        by (intros y Hy; apply elem_of_seq in Hy; lia).
      destruct (assign_rtc _ _ _ _ _ _ _ Hls E3) as [Hr _].
      destruct (Build.names_ok_keep Build.jsetter st (r_store r) dict (seq 0 (length st0))
                  ltac:(intros f y [k ->]; reflexivity) Hr Hnames) as [Hdict Hsome].
      assert (Hxs : x ∈ seq 0 (length st0)).
      { rewrite He in Hx. simpl in Hx. apply list_elem_of_In, in_map_iff in Hx as (y & Hy & Hyin).
        injection Hy as ->. apply list_elem_of_In, list_elem_of_filter in Hyin as [_ Hyin].
        exact Hyin. }
      destruct (Hsome x Hxs) as [nm Hnm].
      assert (Hn : link_name (r_store r) x = nm) by (unfold link_name; rewrite Hnm; reflexivity).
      assert (Hl : r_linkdict r !! nm = Some x) by (rewrite Hd; apply Hdict; auto).
      rewrite Hn, GetPath.limit_links_value. unfold limit_end. rewrite Hg. cbn. rewrite Hl.
      reflexivity.
Qed.

Lemma default_end_witness :
  construct branch_links [] true None None = Ok branch_robot ∧
  r_ee_links branch_robot = [Some 1; Some 2] ∧
  fst (get_limit_links branch_robot LNone LNone) =
    Err (ValueError "Must specify which end-effector") ∧
  fst (get_limit_links branch_robot (LName "c") LNone) = Ok (Some 2, Some 0, None).
Proof.
  assert (Hc : construct branch_links [] true None None = Ok branch_robot)
    by (vm_compute; reflexivity).
  destruct (proj2 (default_end _ _ _ _ _ _ Hc) eq_refl) as (_ & _ & H2 & H3).
  assert (He : r_ee_links branch_robot = [Some 1; Some 2]) by (vm_compute; reflexivity).
  split; [exact Hc|]. split; [exact He|]. split.
  - apply H2. rewrite He. simpl. lia.
  - replace (Some 0) with (r_base_link branch_robot) by (vm_compute; reflexivity).
    apply (H3 2). rewrite He. right. left.
Defined.

End DefaultEnd.

Module Jindex.
Import Paths.

Lemma visit_fold_ext g g' cs acc :
  (∀ v li, g v li = g' v li) → Tree.visit_fold g cs acc = Tree.visit_fold g' cs acc.
Proof.
  intros Hg. induction cs as [|c cs IH] in acc |- *; [reflexivity|].
  unfold Tree.visit_fold in IH |- *. simpl. rewrite <- IH.
  destruct acc as [v|]; [|reflexivity]. rewrite Hg. reflexivity.
Qed.

Lemma vis_children_ext f st st' x vis :
  (∀ j, children (link_at st' j) = children (link_at st j)) →
  vis_children f st' x vis = vis_children f st x vis.
Proof.
  intros Hc. induction f as [|f IH] in x, vis |- *; [reflexivity|].
  rewrite !Tree.vis_children_unfold, Hc. apply visit_fold_ext. intros v li. apply IH.
Qed.

(** The depth-first order reads only the children lists. *)
Lemma dfs_links_ext st st' x :
  length st' = length st → (∀ j, children (link_at st' j) = children (link_at st j)) →
  dfs_links st' x = dfs_links st x.
Proof. intros Hl Hc. unfold dfs_links. rewrite Hl. apply vis_children_ext, Hc. Qed.

Lemma count_joints_perm st l1 l2 : l1 ≡ₚ l2 → count_joints st l1 = count_joints st l2.
Proof. intros H. unfold count_joints. rewrite H. reflexivity. Qed.

Lemma sum_gripper_count st gs :
  (∀ g, g ∈ gs → g_n g = count_joints st (g_links g)) →
  sum_gripper_n gs = count_joints st (concat (map g_links gs)).
Proof.
  induction gs as [|g gs IH]; intros Hg; [reflexivity|].
  unfold sum_gripper_n in *. simpl. rewrite Jacob.count_joints_app, IH, Hg.
  - reflexivity.
  - left.
  - intros g' Hg'. apply Hg. right. exact Hg'.
Qed.

Lemma forall2_in_r {A B} (P : A -> B -> Prop) l k :
  Forall2 P l k → ∀ y, y ∈ k → ∃ x, P x y.
Proof.
  induction 1 as [|x y l k Hxy _ IH]; intros y' Hy; [inversion Hy|].
  apply elem_of_cons in Hy as [->|Hy]; eauto.
Qed.

Lemma elem_of_concat_links i gs :
  i ∈ concat (map g_links gs) ↔ ∃ g, g ∈ gs ∧ i ∈ g_links g.
Proof.
  rewrite list_elem_of_In, in_concat. split.
  - intros (l & Hl & Hi). apply in_map_iff in Hl as (g & <- & Hg).
    exists g. split; apply list_elem_of_In; assumption.
  - intros (g & Hg & Hi). exists (g_links g).
    split; [apply in_map|]; apply list_elem_of_In; assumption.
Qed.

(** A link of the robot outside every gripper. *)
Definition other_link (r : ERobot) (i : nat) : Prop :=
  i < length (r_store r) ∧ ∀ g, g ∈ r_grippers r → i ∉ g_links g.

(** C5: after a construction that succeeded, for the links outside the
    grippers: when none of them had a joint index, [links] lists them in
    the depth-first order from the base link and its joint links carry
    0, 1, 2, ... in that order, [n] of them when every such link is
    reached; when one had an index, every joint link among them had one,
    the indices are kept, and with [checkjindex] they are the numbers
    0..n-1, each once.  When the links outside the grippers mix a link
    with an index and a joint link without one, construction raises
    ValueError('all links must have a jindex, or none have a jindex'). *)
Theorem construct_jindex st0 gl chk bt tt :
  (∀ r, construct st0 gl chk bt tt = Ok r →
  let st := r_store r in
  let J := filter (fun i => isjoint (link_at st i) = true) (r_links r) in
  (∀ i, i ∈ r_links r → other_link r i) ∧
  ((∀ i, other_link r i → jindex (link_at st0 i) = None) →
     (∃ b vis, r_base_link r = Some b ∧ dfs_links st b = Some vis ∧
        r_links r `sublist_of` vis ∧ ∀ i, i ∈ r_links r ↔ i ∈ vis ∧ other_link r i) ∧
     map (fun i => jindex (link_at st i)) J = map Some (seq 0 (length J)) ∧
     ((∀ i, other_link r i → i ∈ r_links r) → length J = r_n r)) ∧
  ((∃ i, other_link r i ∧ jindex (link_at st0 i) ≠ None) →
     (∀ i, other_link r i → isjoint (link_at st0 i) = true → jindex (link_at st0 i) ≠ None) ∧
     (∀ i, jindex (link_at st i) = jindex (link_at st0 i)) ∧
     (∀ i, i ∈ r_links r ↔ other_link r i) ∧
     (chk = true → map (fun i => jindex (link_at st i)) J ≡ₚ map Some (seq 0 (r_n r))))) ∧
  (∀ st dict n0 base ls gs,
     build_tree st0 = Ok (st, dict, n0, base) →
     extract_grippers gl st (seq 0 (length st0)) [] = Ok (ls, gs) →
     (∃ i, i ∈ ls ∧ jindex (link_at st0 i) ≠ None) →
     (∃ i, i ∈ ls ∧ isjoint (link_at st0 i) = true ∧ jindex (link_at st0 i) = None) →
     construct st0 gl chk bt tt =
       Err (ValueError "all links must have a jindex, or none have a jindex")).
Proof.
  split.
  2:{ intros st dict n0 base ls gs E1 E2 (i1 & Hi1 & Hs1) (i2 & Hi2 & Hj2 & Hn2).
      destruct (Build.build_tree_facts _ _ _ _ _ E1) as (_ & _ & Hj & Hji & _).
      unfold construct. rewrite E1. cbn [mbind res_bind]. rewrite E2. cbn [mbind res_bind].
      unfold assign_jindex.
      replace (all_jindex_none st ls) with false.
      2:{ symmetry. apply not_true_is_false. intros Ea.
          unfold all_jindex_none in Ea. rewrite forallb_forall in Ea.
          apply list_elem_of_In in Hi1. specialize (Ea i1 Hi1).
          rewrite Hji in Ea. destruct (jindex (link_at st0 i1)); [discriminate|contradiction]. }
      replace (all_joint_jindex_set st ls) with false; [reflexivity|].
      symmetry. apply not_true_is_false. intros Ea.
      unfold all_joint_jindex_set in Ea. rewrite forallb_forall in Ea.
      apply list_elem_of_In in Hi2. specialize (Ea i2 Hi2).
      rewrite Hj, Hji, Hj2, Hn2 in Ea. discriminate. }
  intros r H. cbv zeta.
  destruct (construct_facts _ _ _ _ _ _ H)
    as (st & dict & n0 & base & ls & gs & E1 & E2 & E3 & Hd & Hb & He & Hg & Hn & _).
  destruct (Build.build_tree_facts _ _ _ _ _ E1)
    as (Hlen & _ & Hj & Hji & _ & Hn0 & _).
  destruct (Assign.extract_facts _ _ _ _ _ _ E2) as (gnew & Hgs & Hp & Hf).
  simpl in Hgs. subst gnew.
  assert (Hls : ∀ x, x ∈ ls → x < length st).
  { intros x Hx. rewrite Hlen. apply (elem_of_seq 0).
    rewrite Hp. apply elem_of_app. right. exact Hx. }
  destruct (assign_rtc _ _ _ _ _ _ _ Hls E3) as [Hr Horl].
  pose proof (Store.astep_length _ _ _ Hr) as Hlen'.
  assert (Hj' : ∀ j, isjoint (link_at (r_store r) j) = isjoint (link_at st j)).
  { apply (Store.astep_field isjoint Build.jsetter); [|exact Hr].
    intros f x [k ->]. reflexivity. }
  assert (Hc' : ∀ j, children (link_at (r_store r) j) = children (link_at st j)).
  { apply (Store.astep_field children Build.jsetter); [|exact Hr].
    intros f x [k ->]. reflexivity. }
  assert (Hnd : NoDup (concat (map g_links gs) ++ ls)) by (rewrite <- Hp; apply NoDup_seq).
  assert (Hother : ∀ i, other_link r i ↔ i ∈ ls).
  { intros i. unfold other_link. rewrite Hg, Hlen', Hlen. split.
    - intros [Hi Hgi]. assert (Hin : i ∈ seq 0 (length st0)) by (apply elem_of_seq; lia).
      rewrite Hp in Hin. apply elem_of_app in Hin as [Hin|Hin]; [|exact Hin].
      apply elem_of_concat_links in Hin as (g & Hg' & Hig). exfalso. exact (Hgi g Hg' Hig).
    - intros Hi. split; [rewrite <- Hlen; apply Hls, Hi|].
      intros g Hg' Hig. apply NoDup_app in Hnd as (_ & Hdis & _).
      apply (Hdis i); [apply elem_of_concat_links; eauto|exact Hi]. }
  assert (Hnls : r_n r = count_joints st ls).
  { rewrite Hn, Hn0.
    rewrite (Jindex.sum_gripper_count st gs).
    - rewrite <- (Store.count_joints_ext st0 st) by exact Hj.
      rewrite (Jindex.count_joints_perm st _ _ Hp), Jacob.count_joints_app. lia.
    - intros g Hg'. destruct (forall2_in_r _ _ _ Hf g Hg') as (x & vis & _ & ->).
      reflexivity. }
  split; [intros i Hi; apply Hother, Horl, Hi|]. split.
  - intros Hnone.
    assert (Hall : all_jindex_none st ls = true).
    { apply forallb_forall. intros i Hi. rewrite Hji, Hnone; [reflexivity|].
      apply Hother, list_elem_of_In, Hi. }
    unfold assign_jindex in E3. rewrite Hall in E3.
    destruct base as [b|]; [|discriminate].
    destruct (dfs_links st b) as [vis|] eqn:Ed; [|discriminate].
    injection E3 as E3.
    destruct (Assign.visit_links_spec vis ls st 0 [] _ _
                (Tree.dfs_links_nodup _ _ _ Ed) Hls E3) as (Ho & _ & Hm & _).
    simpl in Ho.
    assert (HJ : filter (fun i => isjoint (link_at (r_store r) i) = true) (r_links r) =
                 filter (fun i => isjoint (link_at st i) = true) (filter (fun x => x ∈ ls) vis)).
    { rewrite Ho. apply list_filter_iff. intros j. rewrite Hj'. reflexivity. }
    split; [|split].
    + exists b, vis. split; [exact Hb|]. split.
      { rewrite (Jindex.dfs_links_ext st); [exact Ed|exact Hlen'|exact Hc']. }
      split; [rewrite Ho; apply sublist_filter|].
      intros i. rewrite Ho, list_elem_of_filter, Hother. tauto.
    + rewrite HJ, Hm. reflexivity.
    + intros Hin. rewrite HJ, Hnls.
      change (count_joints st (filter (fun x => x ∈ ls) vis) = count_joints st ls).
      apply Jindex.count_joints_perm, NoDup_Permutation.
      * apply NoDup_filter, (Tree.dfs_links_nodup _ _ _ Ed).
      * apply NoDup_app in Hnd as (_ & _ & Hnd'). exact Hnd'.
      * intros i. rewrite <- Ho. split; [intros Hi; apply Horl, Hi|].
        intros Hi. apply Hin, Hother, Hi.
  - intros (i0 & Hi0 & Hs0).
    assert (Hall : all_jindex_none st ls = false).
    { destruct (all_jindex_none st ls) eqn:Ea; [|reflexivity]. exfalso.
      unfold all_jindex_none in Ea. rewrite forallb_forall in Ea.
      apply Hother, list_elem_of_In in Hi0. specialize (Ea i0 Hi0).
      rewrite Hji in Ea. destruct (jindex (link_at st0 i0)); [discriminate|contradiction]. }
    unfold assign_jindex in E3. rewrite Hall in E3.
    destruct (all_joint_jindex_set st ls) eqn:Eset; [|discriminate].
    assert (Hkeep : r_store r = st ∧ r_links r = ls ∧
              (chk = true → ∃ jset, check_jindex ls st (list_to_set (seq 0 (n0 - sum_gripper_n gs)))
                                      = Ok jset)).
    { destruct chk.
      - apply bind_ok in E3 as (jset & Ecj & E3).
        case_bool_decide; [|discriminate]. injection E3 as <- <-. eauto.
      - injection E3 as <- <-. split; [reflexivity|]. split; [reflexivity|discriminate]. }
    destruct Hkeep as (Hst & Hrl & Hchk). rewrite Hst, Hrl.
    split; [|split; [|split]].
    + intros i Hi Hij. apply Hother, list_elem_of_In in Hi.
      unfold all_joint_jindex_set in Eset. rewrite forallb_forall in Eset.
      specialize (Eset i Hi). rewrite Hj, Hji, Hij in Eset.
      destruct (jindex (link_at st0 i)); [discriminate|discriminate].
    + intros i. apply Hji.
    + intros i. rewrite Hother. reflexivity.
    + intros Hc. destruct (Hchk Hc) as [jset Ecj].
      destruct (Assign.check_jindex_spec _ _ _ _ Ecj) as [Hmem Hnodup].
      rewrite <- Hn, Hnls in *.
      apply submseteq_length_Permutation.
      * apply NoDup_submseteq; [exact Hnodup|].
        intros x Hx. apply list_elem_of_In, in_map_iff in Hx as (i & <- & Hi).
        apply list_elem_of_In, list_elem_of_filter in Hi as [Hij Hi].
        destruct (Hmem i Hi Hij) as (k & -> & Hk).
        apply elem_of_list_to_set in Hk. apply list_elem_of_In, in_map, list_elem_of_In, Hk.
      * rewrite !length_map, length_seq. reflexivity.
Qed.

Lemma construct_jindex_witness :
  construct chain_links [] true None None = Ok chain_robot ∧
  construct mixed_index_links [] true None None =
    Err (ValueError "all links must have a jindex, or none have a jindex") ∧
  let st := r_store chain_robot in
  let J := filter (fun i => isjoint (link_at st i) = true) (r_links chain_robot) in
  (∀ i, i ∈ r_links chain_robot → other_link chain_robot i) ∧
  ((∀ i, other_link chain_robot i → jindex (link_at chain_links i) = None) →
     (∃ b vis, r_base_link chain_robot = Some b ∧ dfs_links st b = Some vis ∧
        r_links chain_robot `sublist_of` vis ∧
        ∀ i, i ∈ r_links chain_robot ↔ i ∈ vis ∧ other_link chain_robot i) ∧
     map (fun i => jindex (link_at st i)) J = map Some (seq 0 (length J)) ∧
     ((∀ i, other_link chain_robot i → i ∈ r_links chain_robot) → length J = r_n chain_robot)) ∧
  ((∃ i, other_link chain_robot i ∧ jindex (link_at chain_links i) ≠ None) →
     (∀ i, other_link chain_robot i → isjoint (link_at chain_links i) = true →
        jindex (link_at chain_links i) ≠ None) ∧
     (∀ i, jindex (link_at st i) = jindex (link_at chain_links i)) ∧
     (∀ i, i ∈ r_links chain_robot ↔ other_link chain_robot i) ∧
     (true = true → map (fun i => jindex (link_at st i)) J ≡ₚ
                    map Some (seq 0 (r_n chain_robot)))).
Proof.
  assert (Hc : construct chain_links [] true None None = Ok chain_robot)
    by (vm_compute; reflexivity).
  split; [exact Hc|]. split.
  - eapply (proj2 (construct_jindex mixed_index_links [] true None None));
      [vm_compute; reflexivity|vm_compute; reflexivity| |].
    + exists 0. split; [left|vm_compute; discriminate].
    + exists 1. split; [right; left|split; vm_compute; reflexivity].
  - exact (proj1 (construct_jindex _ _ _ _ _) _ Hc).
Defined.

(** With [checkjindex=False], two joint links sharing index 0 are
    accepted; with the check, a fixed link holding index 0 ahead of the
    only joint link, whose index 0 is right, makes construction fail. *)
Lemma jindex_not_validated :
  construct dup_index_links [] false None None = Ok dup_robot ∧
  r_n dup_robot = 2 ∧
  map (fun i => jindex (link_at (r_store dup_robot) i)) (r_links dup_robot) = [Some 0; Some 0] ∧
  construct fixed_index_links [] true None None =
    Err (ValueError "joint index was repeated or out of range") ∧
  filter (fun i => isjoint (link_at fixed_index_links i) = true) [0; 1] = [1] ∧
  jindex (link_at fixed_index_links 1) = Some 0.
Proof. split_and!; vm_compute; reflexivity. Qed.

End Jindex.

(** ** The path cache of [get_path] *)

Module Cache.
Import Paths GetPath.

Lemma reachable_rtc r r' : reachable r → rtc step r r' → reachable r'.
Proof. intros Hr Hs. induction Hs as [|x y z Hxy _ IH]; [exact Hr|]. apply IH. exact (reach_step _ _ Hr Hxy). Qed.

(** A call that writes attributes keeps the links and every cached entry. *)
Lemma step_keeps_cache r r' :
  wf r → step r r' → r_store r' = r_store r ∧
  ∀ sn en v, cache_lookup (r_path_cache r) sn en = Some v →
             cache_lookup (r_path_cache r') sn en = Some v.
Proof.
  intros Hwf Hs.
  inversion Hs as [fuel end_ start fknm r0 out r1 H|end_ start r0 out r1 H]; subst.
  - destruct (get_path_writes _ _ _ _ _ _ _ Hwf H) as (pc & ce & cet & cs & -> & _ & _ & _ & Hx & _).
    split; [reflexivity|exact Hx].
  - destruct (limit_links_state _ _ _ _ _ H) as (ce & cet & cs & ->). auto.
Qed.

Lemma rtc_keeps_cache r r' :
  wf r → rtc step r r' → r_store r' = r_store r ∧
  ∀ sn en v, cache_lookup (r_path_cache r) sn en = Some v →
             cache_lookup (r_path_cache r') sn en = Some v.
Proof.
  intros Hwf Hs. induction Hs as [x|x y z Hxy _ IH]; [auto|].
  destruct (step_keeps_cache _ _ Hwf Hxy) as [Hst Hc].
  destruct (IH (proj1 (step_wf _ _ Hwf Hxy))) as [Hst' Hc'].
  split; [congruence|auto].
Qed.

(** X1: for a robot obtained by construction and calls that write its
    attributes, [get_path] writes no attribute other than [_path_cache] and
    [_path_cache_fknm], which it keeps equal, and the [_cache_end],
    [_cache_end_tool] and [_cache_start] that [_get_limit_links] writes:
    [_cache_end] and [_cache_end_tool] only when [end] is None,
    [_cache_start] only when [start] is None.  No entry already cached is
    changed or removed. *)
Theorem get_path_only_extends_cache fuel end_ start fknm r out r' :
  reachable r → get_path fuel end_ start fknm r = (out, r') →
  ∃ pc ce cet cs, r' = with_caches r pc pc ce cet cs ∧
    snd (get_limit_links r end_ start) =
      with_caches r (r_path_cache r) (r_path_cache_fknm r) ce cet cs ∧
    (end_ ≠ LNone → ce = r_cache_end r ∧ cet = r_cache_end_tool r) ∧
    (start ≠ LNone → cs = r_cache_start r) ∧
    ∀ sn en v, cache_lookup (r_path_cache r) sn en = Some v → cache_lookup pc sn en = Some v.
Proof.
  intros Hr H. destruct (get_path_writes _ _ _ _ _ _ _ (reachable_wf _ Hr) H)
    as (pc & ce & cet & cs & E & El & Hce & Hcs & Hx & _).
  exists pc, ce, cet, cs. auto.
Qed.

Lemma get_path_only_extends_cache_witness :
  ∃ out r', get_path 10 (LName "c") LNone false chain_robot = (out, r') ∧
  ∃ pc ce cet cs, r' = with_caches chain_robot pc pc ce cet cs ∧
    snd (get_limit_links chain_robot (LName "c") LNone) =
      with_caches chain_robot (r_path_cache chain_robot) (r_path_cache_fknm chain_robot)
        ce cet cs ∧
    (LName "c" ≠ LNone → ce = r_cache_end chain_robot ∧ cet = r_cache_end_tool chain_robot) ∧
    (LNone ≠ LNone → cs = r_cache_start chain_robot) ∧
    ∀ sn en v, cache_lookup (r_path_cache chain_robot) sn en = Some v →
      cache_lookup pc sn en = Some v.
Proof.
  eexists _, _. split; [vm_compute; reflexivity|].
  eapply (get_path_only_extends_cache 10 (LName "c") LNone false chain_robot);
    [|vm_compute; reflexivity].
  apply (reach_construct chain_links [] true None None). vm_compute. reflexivity.
Defined.

(** After [get_path] has returned a path, the cache holds it under the
    names of its two links. *)
Lemma get_path_stores fuel end_ start fknm r out r1 e s t :
  wf r → fst (get_limit_links r end_ start) = Ok (Some e, Some s, t) →
  get_path fuel end_ start fknm r = (Ok out, r1) →
  cache_lookup (r_path_cache r1) (link_name (r_store r) s) (link_name (r_store r) e) = Some out.
Proof.
  intros Hwf Hl H. pose proof Hwf as (_ & _ & _ & _ & _ & _ & _ & Hf).
  destruct (get_limit_links r end_ start) as [o r0] eqn:El. cbn [fst] in Hl. subst o.
  destruct (limit_links_state _ _ _ _ _ El) as (ce & cet & cs & ->).
  destruct (cache_lookup (r_path_cache r) (link_name (r_store r) s) (link_name (r_store r) e))
    as [entry|] eqn:Ec.
  - rewrite (get_path_hit fuel end_ start fknm r e s t _ entry El) in H;
      [|rewrite Hf; destruct fknm; exact Ec].
    injection H as <- <-. exact Ec.
  - rewrite (get_path_miss fuel end_ start fknm r e s t _ Hf El Ec) in H.
    destruct (walk_up _ _ _ _ _ _ _) as [[p n]| |]; inversion H; subst.
    cbn [set_path_caches with_caches r_path_cache].
    rewrite cache_lookup_insert, decide_True by auto. reflexivity.
Qed.

(** X2: for a robot obtained by construction and calls that write its
    attributes, once [get_path] has returned a path, any later call whose
    [end] and [start] resolve to the same two links, after any number of
    calls of [get_path] and [_get_limit_links], returns the same path,
    count and tool from the cache (either cache), whatever gripper tool it
    resolves, and leaves the robot as its [_get_limit_links] leaves it. *)
Theorem get_path_cached fuel fuel' e1 s1 e2 s2 fk1 fk2 r out r1 r2 e s t1 t2 r0 :
  reachable r →
  fst (get_limit_links r e1 s1) = Ok (Some e, Some s, t1) →
  get_path fuel e1 s1 fk1 r = (Ok out, r1) →
  rtc step r1 r2 →
  get_limit_links r2 e2 s2 = (Ok (Some e, Some s, t2), r0) →
  get_path fuel' e2 s2 fk2 r2 = (Ok out, r0).
Proof.
  intros Hr Hl1 H1 Hs El2.
  pose proof (reachable_wf _ Hr) as Hwf.
  pose proof (get_path_stores _ _ _ _ _ _ _ _ _ _ Hwf Hl1 H1) as Hc1.
  assert (Hr1 : reachable r1) by exact (reach_step _ _ Hr (step_get_path _ _ _ _ _ _ _ H1)).
  pose proof (reachable_wf _ Hr1) as Hwf1.
  pose proof (proj2 (get_path_wf _ _ _ _ _ _ _ Hwf H1)) as Hst1.
  destruct (rtc_keeps_cache _ _ Hwf1 Hs) as [Hst2 Hc2].
  pose proof (reachable_wf _ (reachable_rtc _ _ Hr1 Hs)) as (_ & _ & _ & _ & _ & _ & _ & Hf2).
  apply (get_path_hit fuel' e2 s2 fk2 r2 e s t2 r0 out El2).
  rewrite Hf2, Hst2, Hst1. destruct fk2; apply Hc2; exact Hc1.
Qed.

Lemma get_path_cached_witness :
  ∃ out r1 r0,
  fst (get_limit_links chain_robot (LName "c") LNone) = Ok (Some 2, Some 0, None) ∧
  get_path 10 (LName "c") LNone false chain_robot = (Ok out, r1) ∧
  get_limit_links r1 (LLink 2) (LName "a") = (Ok (Some 2, Some 0, None), r0) ∧
  get_path 0 (LLink 2) (LName "a") true r1 = (Ok out, r0).
Proof.
  eexists _, _, _.
  assert (Hl : fst (get_limit_links chain_robot (LName "c") LNone) = Ok (Some 2, Some 0, None))
    by (vm_compute; reflexivity).
  split; [exact Hl|].
  split; [vm_compute; reflexivity|]. split; [vm_compute; reflexivity|].
  eapply (get_path_cached 10 0 (LName "c") LNone (LLink 2) (LName "a") false true chain_robot);
    [| exact Hl | vm_compute; reflexivity | apply rtc_refl | vm_compute; reflexivity].
  apply (reach_construct chain_links [] true None None). vm_compute. reflexivity.
Defined.

End Cache.

(** ** The attributes written by the kinematic methods *)

(** [fkine], [jacob0] and [hessian0] write attributes of the robot only
    through [get_path] and [_get_limit_links]: the robot they leave is
    reached from theirs by calls of these two. *)
Module Writes.
Import Paths.

Section Writes.
Variable link_A : ELink -> option Z -> option mat.
Variable toradians : list Z -> list Z.
Variable fknm_fkine : list nat -> qarg -> mat -> mat -> mat.
Variable inv4 : mat -> mat.
Variable fknm_jacob0 : nat -> nat -> list nat -> list Z -> mat -> mat -> arr2.

Lemma fkine_steps fuel q unit end_ start tool include_base fast r :
  rtc step r (snd (fkine link_A toradians fknm_fkine fuel q unit end_ start tool
                     include_base fast r)).
Proof.
  unfold fkine. destruct fast.
  - destruct (get_path fuel end_ start true r) as [o r'] eqn:E.
    destruct o as [[[p n] et]| |]; cbn [snd]; apply rtc_once; econstructor; exact E.
  - destruct (getmatrix q (r_n r)) as [rows| |]; [|apply rtc_refl..].
    destruct (get_limit_links r end_ start) as [o r1] eqn:E.
    destruct o as [[[oe os] et]| |]; cbn [snd]; apply rtc_once; eapply step_limit_links;
      exact E.
Qed.

Lemma jacob0_geom_steps fuel q end_ start tool T r :
  rtc step r (snd (jacob0_geom link_A toradians fknm_fkine inv4 fuel q end_ start tool T r)).
Proof.
  unfold jacob0_geom.
  destruct (get_path fuel end_ start false r) as [o r1] eqn:E.
  apply (rtc_l _ _ r1); [econstructor; exact E|].
  destruct o as [[[p n] et]| |]; [|apply rtc_refl..].
  destruct (getvector q (r_n r1)) as [q'| |]; [|apply rtc_refl..].
  destruct T as [T|]; [apply rtc_refl|].
  pose proof (fkine_steps fuel (QVec q') "rad" end_ start None false false r1) as Hf.
  destruct (fkine _ _ _ _ _ _ _ _ _ _ _ r1) as [[[Ts|T0]| |] r2]; cbn [snd] in Hf |- *;
    try exact Hf.
  destruct Ts as [|T0 [|]]; exact Hf.
Qed.

Lemma jacob0_steps fuel q end_ start tool T half analytical fast r :
  rtc step r (snd (jacob0 link_A toradians fknm_fkine inv4 fknm_jacob0 fuel q end_ start
                     tool T half analytical fast r)).
Proof.
  unfold jacob0. destruct fast.
  - destruct (get_path fuel end_ start true r) as [o r'] eqn:E.
    destruct o as [[[p n] et]| |]; cbn [snd]; apply rtc_once; econstructor; exact E.
  - pose proof (jacob0_geom_steps fuel q end_ start tool T r) as Hg.
    destruct (jacob0_geom _ _ _ _ _ _ _ _ _ _ r) as [[J| |] r1]; exact Hg.
Qed.

Lemma hessian0_steps fuel q J0 end_ start r :
  rtc step r (snd (hessian0 link_A toradians fknm_fkine inv4 fknm_jacob0 fuel q J0 end_ start r)).
Proof.
  unfold hessian0.
  destruct (get_limit_links r end_ start) as [o r0] eqn:El.
  apply (rtc_l _ _ r0); [eapply step_limit_links; exact El|].
  destruct o as [[[oe os] t]| |]; [|apply rtc_refl..].
  destruct (get_path fuel (opt_arg oe) (opt_arg os) false r0) as [o1 r1] eqn:Ep.
  apply (rtc_l _ _ r1); [econstructor; exact Ep|].
  destruct o1 as [[[p n] T]| |]; [|apply rtc_refl..].
  destruct J0 as [J|]; [apply rtc_refl|].
  destruct q as [q|]; [|apply rtc_refl].
  destruct (getvector q n) as [q'| |]; [|apply rtc_refl..].
  pose proof (jacob0_steps fuel q' (opt_arg oe) (opt_arg os) None None None None false r1) as Hj.
  destruct (jacob0 _ _ _ _ _ _ _ _ _ _ _ _ _ _ r1) as [[J| |] r2]; exact Hj.
Qed.

End Writes.
End Writes.

(** ** Lookup of links by name *)

Module Lookup.
Import Paths.

Lemma construct_names st0 gl chk bt tt r :
  construct st0 gl chk bt tt = Ok r →
  ∀ nm i, r_linkdict r !! nm = Some i ↔ i < length (r_store r) ∧ link_name (r_store r) i = nm.
Proof.
  intros H.
  destruct (construct_facts _ _ _ _ _ _ H)
    as (st & dict & n0 & base & ls & gs & E1 & E2 & E3 & Hd & _ & _ & _ & _ & _).
  destruct (Build.build_tree_facts _ _ _ _ _ E1) as (Hlen & Hnames & _).
  destruct (Assign.extract_facts _ _ _ _ _ _ E2) as (gnew & _ & Hp & _).
  assert (Hls : ∀ x, x ∈ ls → x < length st).
  { intros x Hx. rewrite Hlen. apply (elem_of_seq 0).
    rewrite Hp. apply elem_of_app. right. exact Hx. }
  destruct (assign_rtc _ _ _ _ _ _ _ Hls E3) as [Hr _].
  pose proof (Store.astep_length _ _ _ Hr) as Hlen'.
  assert (Hnames' : Names.names_ok (r_store r) dict (seq 0 (length st0))).
  { apply (Build.names_ok_keep Build.jsetter st); [|exact Hr|exact Hnames].
    intros f x [k ->]. reflexivity. }
  destruct Hnames' as [Hdict Hsome].
  intros nm i. rewrite Hd, Hdict, elem_of_seq, Hlen', Hlen. unfold link_name. split.
  - intros [Hi Hn]. rewrite Hn. split; [lia|reflexivity].
  - intros [Hi Hn]. destruct (Hsome i ltac:(apply elem_of_seq; lia)) as [nm' Hnm'].
    rewrite Hnm' in Hn |- *. simpl in Hn. subst nm'. split; [lia|reflexivity].
Qed.

Lemma reachable_names r :
  reachable r →
  ∀ nm i, r_linkdict r !! nm = Some i ↔ i < length (r_store r) ∧ link_name (r_store r) i = nm.
Proof.
  induction 1 as [st0 gl chk bt tt r H|r r' Hr IH Hs].
  - exact (construct_names _ _ _ _ _ _ H).
  - pose proof (GetPath.reachable_wf _ Hr) as Hwf.
    inversion Hs as [fuel end_ start fknm r0 out r1 H|end_ start r0 out r1 H]; subst.
    + destruct (GetPath.get_path_writes _ _ _ _ _ _ _ Hwf H) as (pc & ce & cet & cs & -> & _).
      exact IH.
    + destruct (GetPath.limit_links_state _ _ _ _ _ H) as (ce & cet & cs & ->). exact IH.
Qed.

(** For every robot a program can hold, [_getlink] given a name returns the
    link of the robot (gripper links included) that has that name, and
    fails with a ValueError for a name no link has. *)
Theorem getlink_name r nm i :
  reachable r →
  (getlink r (LName nm) = Ok i ↔ i < length (r_store r) ∧ link_name (r_store r) i = nm) ∧
  ((∀ j, j < length (r_store r) → link_name (r_store r) j ≠ nm) →
   getlink r (LName nm) = Err (ValueError ("no link named " +:+ nm))).
Proof.
  intros Hr. pose proof (reachable_names r Hr) as Hn. simpl. split.
  - rewrite <- Hn. destruct (r_linkdict r !! nm) as [k|].
    + split; intros H; inversion H; reflexivity.
    + split; intros H; inversion H.
  - intros Hno. destruct (r_linkdict r !! nm) as [k|] eqn:E; [|reflexivity].
    apply Hn in E as [Hk Hnm]. exfalso. exact (Hno k Hk Hnm).
Qed.

Lemma getlink_name_witness :
  reachable chain_robot ∧
  (getlink chain_robot (LName "b") = Ok 1 ↔
     1 < length (r_store chain_robot) ∧ link_name (r_store chain_robot) 1 = "b") ∧
  ((∀ j, j < length (r_store chain_robot) → link_name (r_store chain_robot) j ≠ "b") →
   getlink chain_robot (LName "b") = Err (ValueError ("no link named " +:+ "b"))).
Proof.
  assert (Hr : reachable chain_robot).
  { apply (reach_construct chain_links [] true None None). vm_compute. reflexivity. }
  split; [exact Hr|]. exact (getlink_name chain_robot "b" 1 Hr).
Defined.

End Lookup.

(** ** Names and the base link of [__init__] *)

Module Init.
Import Paths.

Definition not_unique (nm : string) : pyerr :=
  ValueError ("link name " +:+ nm +:+ " is not unique").

(** One iteration of the naming loop: it raises, or it files the link
    under a name not yet in the dictionary (its own name when it has one)
    and leaves the other links as they are. *)
Lemma name_links_step h ls st dict n k :
  (∃ nm', name_links (h :: ls) st dict n k = Err (not_unique nm')) ∨
  ∃ nm0 st' n' k', name_links (h :: ls) st dict n k = name_links ls st' (<[nm0 := h]> dict) n' k' ∧
    dict !! nm0 = None ∧
    (∀ j, j ≠ h → link_at st' j = link_at st j) ∧
    (∀ s, name (link_at st h) = Some s → nm0 = s).
Proof.
  cbn [name_links]. destruct (name (link_at st h)) as [s|] eqn:Eh; cbn.
  - destruct (dict !! s) eqn:Ed; [left; exists s; reflexivity|right].
    eexists _, _, _, _. split; [reflexivity|]. split; [exact Ed|].
    split; [intros j Hj; apply Assign.link_at_alter_ne; auto|]. intros s' Hs'. congruence.
  - destruct (dict !! _) eqn:Ed; [left; eexists; reflexivity|right].
    eexists _, _, _, _. split; [reflexivity|]. split; [exact Ed|].
    split; [intros j Hj; apply Assign.link_at_alter_ne; auto|]. intros s' Hs'. discriminate.
Qed.

Lemma name_links_collide ls st dict n k j nm :
  j ∈ ls → name (link_at st j) = Some nm → is_Some (dict !! nm) →
  ∃ nm', name_links ls st dict n k = Err (not_unique nm').
Proof.
  induction ls as [|h ls IH] in st, dict, n, k |- *; [intros Hj; inversion Hj|].
  intros Hj Hn Hd.
  destruct (name_links_step h ls st dict n k) as [He|(nm0 & st' & n' & k' & -> & Hd0 & Hst & Hnm0)];
    [exact He|].
  destruct (decide (j = h)) as [->|Hjh].
  - rewrite (Hnm0 _ Hn), Hd0 in *. destruct Hd as [? Hd]. discriminate.
  - apply elem_of_cons in Hj as [Hj|Hj]; [contradiction|].
    apply IH; [exact Hj|rewrite Hst by exact Hjh; exact Hn|].
    destruct (decide (nm0 = nm)) as [->|Hne];
      [rewrite lookup_insert_eq; eauto|rewrite lookup_insert_ne by exact Hne; exact Hd].
Qed.

Lemma name_links_dup ls st dict n k i j nm :
  i ≠ j → i ∈ ls → j ∈ ls → name (link_at st i) = Some nm → name (link_at st j) = Some nm →
  ∃ nm', name_links ls st dict n k = Err (not_unique nm').
Proof.
  induction ls as [|h ls IH] in st, dict, n, k |- *; [intros _ Hi; inversion Hi|].
  intros Hij Hi Hj Hni Hnj.
  destruct (name_links_step h ls st dict n k) as [He|(nm0 & st' & n' & k' & -> & _ & Hst & Hnm0)];
    [exact He|].
  assert (Hins : is_Some (<[nm0 := h]> dict !! nm) ∨ nm0 ≠ nm).
  { destruct (decide (nm0 = nm)) as [->|Hne]; [left; rewrite lookup_insert_eq; eauto|auto]. }
  destruct (decide (i = h)) as [->|Hih]; [|destruct (decide (j = h)) as [->|Hjh]].
  - apply elem_of_cons in Hj as [Hj|Hj]; [congruence|].
    destruct Hins as [Hins|Hne]; [|exfalso; exact (Hne (Hnm0 _ Hni))].
    apply (name_links_collide _ _ _ _ _ j nm); [exact Hj|rewrite Hst by congruence; exact Hnj|exact Hins].
  - apply elem_of_cons in Hi as [Hi|Hi]; [congruence|].
    destruct Hins as [Hins|Hne]; [|exfalso; exact (Hne (Hnm0 _ Hnj))].
    apply (name_links_collide _ _ _ _ _ i nm); [exact Hi|rewrite Hst by congruence; exact Hni|exact Hins].
  - apply elem_of_cons in Hi as [Hi|Hi]; [congruence|].
    apply elem_of_cons in Hj as [Hj|Hj]; [congruence|].
    apply (IH _ _ _ _ Hij Hi Hj); rewrite Hst by assumption; assumption.
Qed.

(** Two links given with the same name make the constructor raise
    [ValueError('link name ... is not unique')] before anything else is
    done. *)
Theorem construct_duplicate_name st0 gl chk bt tt i j nm :
  i ≠ j → i < length st0 → j < length st0 →
  name (link_at st0 i) = Some nm → name (link_at st0 j) = Some nm →
  ∃ nm', construct st0 gl chk bt tt = Err (not_unique nm').
Proof.
  intros Hij Hi Hj Hni Hnj.
  destruct (name_links_dup (seq 0 (length st0)) st0 ∅ 0 0 i j nm Hij
              ltac:(apply elem_of_seq; lia) ltac:(apply elem_of_seq; lia) Hni Hnj) as [nm' E].
  exists nm'. unfold construct, build_tree. cbv zeta. rewrite E. reflexivity.
Qed.

Lemma construct_duplicate_name_witness :
  ∃ nm', construct [mk_link "a" PNone true Rz None; mk_link "a" (PName "a") true Rz None]
           [] true None None = Err (not_unique nm').
Proof.
  apply (construct_duplicate_name _ _ _ _ _ 0 1 "a"); [lia|simpl; lia|simpl; lia|reflexivity..].
Defined.

End Init.

Module Base.
Import Paths.

Lemma parent_add_child c p st k :
  parent (link_at (alter (add_child c) p st) k) = parent (link_at st k).
Proof. apply Store.field_alter. intros x. reflexivity. Qed.

Lemma scan_base_spec ls st base st' base' :
  scan_base ls st base = Ok (st', base') →
  (∀ i, parent (link_at st' i) = parent (link_at st i)) ∧
  (∀ i, i ∈ ls → parent (link_at st i) = PNone → base = None ∧ base' = Some i) ∧
  (∀ i s, i ∈ ls → parent (link_at st i) ≠ PName s) ∧
  (∀ b, base' = Some b → base = Some b ∨ parent (link_at st b) = PNone) ∧
  (∀ b, base = Some b → base' = Some b).
Proof.
  induction ls as [|h ls IH] in st, base |- *; simpl.
  - intros H. injection H as <- <-.
    split_and!; auto; [intros i Hi|intros i s Hi]; inversion Hi.
  - destruct (parent (link_at st h)) as [|p|s] eqn:Eh; [destruct base as [b0|]| |]; try discriminate.
    + intros H. destruct (IH _ _ H) as (Hp & Hb & Hs & Hb' & Hkeep).
      split_and!.
      * exact Hp.
      * intros i Hi Hpi. apply elem_of_cons in Hi as [->|Hi].
        -- split; [reflexivity|apply Hkeep; reflexivity].
        -- destruct (Hb i Hi Hpi) as [Hc _]. discriminate.
      * intros i s Hi. apply elem_of_cons in Hi as [->|Hi]; [rewrite Eh; discriminate|].
        apply Hs, Hi.
      * intros b Hbb. destruct (Hb' b Hbb) as [Hc|Hc]; [injection Hc as <-; right; exact Eh|].
        right. exact Hc.
      * intros b Hc. discriminate.
    + intros H. destruct (IH _ _ H) as (Hp & Hb & Hs & Hb' & Hkeep).
      split_and!.
      * intros i. rewrite Hp. apply parent_add_child.
      * intros i Hi Hpi. apply elem_of_cons in Hi as [->|Hi]; [congruence|].
        apply Hb; [exact Hi|rewrite parent_add_child; exact Hpi].
      * intros i s Hi. apply elem_of_cons in Hi as [->|Hi]; [rewrite Eh; discriminate|].
        rewrite <- (parent_add_child h p st). apply Hs, Hi.
      * intros b Hbb. rewrite <- (parent_add_child h p st b). exact (Hb' b Hbb).
      * exact Hkeep.
Qed.

(** After a successful construction no parent is left as a name, and the
    links of the robot without a parent are exactly its base link: at
    most one link has no parent, and it is [robot.base_link]. *)
Theorem construct_base_link st0 gl chk bt tt r i :
  construct st0 gl chk bt tt = Ok r → i < length (r_store r) →
  (parent (link_at (r_store r) i) = PNone ↔ r_base_link r = Some i) ∧
  ∀ s, parent (link_at (r_store r) i) ≠ PName s.
Proof.
  intros H Hi.
  destruct (construct_facts _ _ _ _ _ _ H)
    as (st & dict & n0 & base & ls & gs & E1 & E2 & E3 & _ & Hb & _).
  destruct (Build.build_tree_facts _ _ _ _ _ E1) as (Hlen & _).
  destruct (Assign.extract_facts _ _ _ _ _ _ E2) as (gnew & _ & Hp & _).
  assert (Hls : ∀ x, x ∈ ls → x < length st).
  { intros x Hx. rewrite Hlen. apply (elem_of_seq 0).
    rewrite Hp. apply elem_of_app. right. exact Hx. }
  destruct (assign_rtc _ _ _ _ _ _ _ Hls E3) as [Hr _].
  pose proof (Store.astep_length _ _ _ Hr) as Hlen'.
  assert (Hpar : ∀ j, parent (link_at (r_store r) j) = parent (link_at st j)).
  { apply (Store.astep_field parent Build.jsetter); [|exact Hr]. intros f x [k ->]. reflexivity. }
  rewrite Hpar, Hb. rewrite Hlen', Hlen in Hi.
  assert (Hin : i ∈ seq 0 (length st0)) by (apply elem_of_seq; lia).
  clear H E2 E3 Hp Hls Hr Hlen' Hpar Hb.
  unfold build_tree in E1. cbv zeta in E1.
  destruct (name_links _ _ _ _ _) as [[[st1 d1] n1]| |]; cbn in E1; try discriminate.
  destruct (resolve_parents _ _ _) as [st2| |]; cbn in E1; try discriminate.
  destruct (scan_base _ _ _) as [[st4 b4]| |] eqn:E4; cbn in E1; try discriminate.
  injection E1 as <- _ _ <-.
  destruct (scan_base_spec _ _ _ _ _ E4) as (Hp & Hbase & Hs & Hb' & _).
  rewrite Hp. split; [split|].
  - intros Hn. exact (proj2 (Hbase i Hin Hn)).
  - intros Hb. destruct (Hb' i Hb) as [Hc|Hc]; [discriminate|exact Hc].
  - intros s. exact (Hs i s Hin).
Qed.

Lemma construct_base_link_witness :
  construct branch_links [] true None None = Ok branch_robot ∧ 0 < length (r_store branch_robot) ∧
  (parent (link_at (r_store branch_robot) 0) = PNone ↔ r_base_link branch_robot = Some 0) ∧
  ∀ s, parent (link_at (r_store branch_robot) 0) ≠ PName s.
Proof.
  assert (H : construct branch_links [] true None None = Ok branch_robot) by (vm_compute; reflexivity).
  assert (Hi : 0 < length (r_store branch_robot)) by (vm_compute; lia).
  split; [exact H|]. split; [exact Hi|]. exact (construct_base_link _ _ _ _ _ _ _ H Hi).
Defined.

End Base.

(** ** The depth-first traversal [dfs_links] *)

Module Dfs.
Import Tree.

(** [b] is in the [children] list of [a]. *)
Definition child_link (st : list ELink) (a b : nat) : Prop := b ∈ children (link_at st a).

#[local] Instance prefix_rel_po : PreOrder prefix_rel.
Proof.
  split.
  - intros a. exists []. rewrite app_nil_r. reflexivity.
  - intros a b c [s1 ->] [s2 ->]. exists (s1 ++ s2). rewrite app_assoc. reflexivity.
Qed.

Lemma prefix_rel_elem a b y : prefix_rel a b → y ∈ a → y ∈ b.
Proof. intros [s ->] Hy. apply elem_of_app. left. exact Hy. Qed.

Lemma visit_fold_inv_in (R : list nat -> list nat -> Prop) `{!PreOrder R} g cs acc res :
  (∀ vis li res, li ∈ cs → li ∉ vis → g vis li = Some res → R vis res) →
  visit_fold g cs (Some acc) = Some res → R acc res.
Proof.
  induction cs as [|c cs IH] in acc |- *; simpl; intros Hg.
  - intros H. injection H as <-. reflexivity.
  - unfold visit_fold in IH |- *. simpl.
    assert (Hg' : ∀ vis li res, li ∈ cs → li ∉ vis → g vis li = Some res → R vis res)
      by (intros; eapply Hg; [right|..]; eauto).
    case_bool_decide as Hc; [apply IH, Hg'|].
    destruct (g acc c) as [acc'|] eqn:E.
    + intros H. transitivity acc'; [exact (Hg _ _ _ ltac:(left) Hc E)|exact (IH _ Hg' H)].
    + intros H. change (visit_fold g cs None = Some res) in H.
      rewrite visit_fold_none in H. discriminate.
Qed.

(** Every child in [cs] is in the result of the fold. *)
Lemma visit_fold_mem g cs acc res :
  (∀ v li r, li ∉ v → g v li = Some r → prefix_rel v r ∧ li ∈ r) →
  visit_fold g cs (Some acc) = Some res → prefix_rel acc res ∧ ∀ c, c ∈ cs → c ∈ res.
Proof.
  intros Hg. induction cs as [|c cs IH] in acc |- *; simpl.
  - intros H. injection H as <-. split; [reflexivity|intros c Hc; inversion Hc].
  - unfold visit_fold in IH |- *. simpl.
    case_bool_decide as Hc.
    + intros H. destruct (IH _ H) as [Hp Hm]. split; [exact Hp|].
      intros c' Hc'. apply elem_of_cons in Hc' as [->|Hc']; [|auto].
      exact (prefix_rel_elem _ _ _ Hp Hc).
    + destruct (g acc c) as [acc'|] eqn:E.
      * intros H. destruct (Hg _ _ _ Hc E) as [Hp1 Hm1]. destruct (IH _ H) as [Hp Hm].
        split; [transitivity acc'; assumption|].
        intros c' Hc'. apply elem_of_cons in Hc' as [->|Hc']; [|auto].
        exact (prefix_rel_elem _ _ _ Hp Hm1).
      * intros H. change (visit_fold g cs None = Some res) in H.
        rewrite visit_fold_none in H. discriminate.
Qed.

Definition closed_rel (st : list ELink) (a b : list nat) : Prop :=
  prefix_rel a b ∧ ∀ y, y ∈ b → y ∉ a → ∀ c, child_link st y c → c ∈ b.

#[local] Instance closed_rel_po st : PreOrder (closed_rel st).
Proof.
  split.
  - intros a. split; [reflexivity|]. intros y Hy Hn. contradiction.
  - intros a b c [Hab Ha] [Hbc Hb]. split; [transitivity b; assumption|].
    intros y Hy Hya z Hz. destruct (decide (y ∈ b)) as [Hyb|Hyb].
    + exact (prefix_rel_elem _ _ _ Hbc (Ha y Hyb Hya z Hz)).
    + exact (Hb y Hy Hyb z Hz).
Qed.

Definition reach_rel (st : list ELink) (x : nat) (a b : list nat) : Prop :=
  ∀ y, y ∈ b → y ∈ a ∨ rtc (child_link st) x y.

#[local] Instance reach_rel_po st x : PreOrder (reach_rel st x).
Proof.
  split.
  - intros a y Hy. left. exact Hy.
  - intros a b c Hab Hbc y Hy. destruct (Hbc y Hy) as [Hb|Hr]; [exact (Hab y Hb)|right; exact Hr].
Qed.

Lemma vis_children_head f st x vis res :
  vis_children f st x vis = Some res → prefix_rel vis res ∧ x ∈ res.
Proof.
  intros H. destruct (vis_children_prefix _ _ _ _ _ H) as [s ->].
  split; [exists (x :: s); reflexivity|]. apply elem_of_app. right. left.
Qed.

(** The links a visit adds have all their children in the result. *)
Lemma vis_children_closed f st x vis res :
  vis_children f st x vis = Some res → closed_rel st vis res.
Proof.
  induction f as [|f IH] in x, vis, res |- *; [discriminate|].
  rewrite vis_children_unfold. intros H.
  assert (Hc : closed_rel st (vis ++ [x]) res).
  { refine (visit_fold_inv (closed_rel st) _ _ _ _ _ H).
    intros v li r _ Hv. exact (IH _ _ _ Hv). }
  assert (Hm : ∀ c, c ∈ children (link_at st x) → c ∈ res).
  { refine (proj2 (visit_fold_mem _ _ _ _ _ H)).
    intros v li r _ Hv. exact (vis_children_head _ _ _ _ _ Hv). }
  destruct Hc as [Hp Hcl]. split.
  - transitivity (vis ++ [x]); [exists [x]; reflexivity|exact Hp].
  - intros y Hy Hyv c Hyc. destruct (decide (y = x)) as [->|Hyx]; [exact (Hm c Hyc)|].
    apply (Hcl y Hy); [|exact Hyc].
    intros Hin. apply elem_of_app in Hin as [Hin|Hin]; [contradiction|].
    apply list_elem_of_singleton in Hin. contradiction.
Qed.

(** The links a visit adds are all below [x]. *)
Lemma vis_children_reach f st x vis res :
  vis_children f st x vis = Some res → reach_rel st x vis res.
Proof.
  induction f as [|f IH] in x, vis, res |- *; [discriminate|].
  rewrite vis_children_unfold. intros H.
  assert (Hr : reach_rel st x (vis ++ [x]) res).
  { refine (visit_fold_inv_in (reach_rel st x) _ _ _ _ _ H).
    intros v li r Hli _ Hv y Hy. destruct (IH _ _ _ Hv y Hy) as [Hy'|Hy']; [left; exact Hy'|].
    right. eapply rtc_l; [exact Hli|exact Hy']. }
  intros y Hy. destruct (Hr y Hy) as [Hin|Hin]; [|right; exact Hin].
  apply elem_of_app in Hin as [Hin|Hin]; [left; exact Hin|].
  apply list_elem_of_singleton in Hin as ->. right. reflexivity.
Qed.

(** The links of the store not yet visited. *)
Definition n_free (st : list ELink) (vis : list nat) : nat :=
  length (filter (fun k => k ∉ vis) (seq 0 (length st))).

Lemma free_le (L a b : list nat) :
  (∀ y, y ∈ a → y ∈ b) →
  length (filter (fun k => k ∉ b) L) ≤ length (filter (fun k => k ∉ a) L).
Proof.
  intros Hab. induction L as [|y L IH]; [reflexivity|].
  rewrite !filter_cons. destruct (decide (y ∉ b)) as [Hb|Hb]; destruct (decide (y ∉ a)) as [Ha|Ha];
    simpl; try lia.
  exfalso. apply Ha. intros Hya. exact (Hb (Hab y Hya)).
Qed.

Lemma free_lt (L a b : list nat) x :
  (∀ y, y ∈ a → y ∈ b) → x ∈ L → x ∉ a → x ∈ b →
  length (filter (fun k => k ∉ b) L) < length (filter (fun k => k ∉ a) L).
Proof.
  intros Hab HxL Hxa Hxb. induction L as [|y L IH]; [inversion HxL|].
  rewrite !filter_cons. apply elem_of_cons in HxL as [<-|HxL].
  - pose proof (free_le L a b Hab).
    destruct (decide (x ∉ b)) as [Hb|Hb]; [contradiction|].
    destruct (decide (x ∉ a)) as [Ha|Ha]; [simpl; lia|contradiction].
  - specialize (IH HxL).
    destruct (decide (y ∉ b)) as [Hb|Hb]; destruct (decide (y ∉ a)) as [Ha|Ha]; simpl; try lia.
    exfalso. apply Ha. intros Hya. exact (Hb (Hab y Hya)).
Qed.

Lemma visit_fold_total g cs acc (P : list nat -> Prop) :
  P acc → (∀ v li, P v → li ∉ v → ∃ r, g v li = Some r ∧ P r) →
  ∃ res, visit_fold g cs (Some acc) = Some res.
Proof.
  intros HP Hg. induction cs as [|c cs IH] in acc, HP |- *; [eexists; reflexivity|].
  unfold visit_fold in IH |- *. simpl. case_bool_decide as Hc; [exact (IH _ HP)|].
  destruct (Hg _ _ HP Hc) as (r & -> & Hr). exact (IH _ Hr).
Qed.

(** The recursion of [vis_children] stops before its fuel runs out when
    the fuel exceeds the number of links not yet visited. *)
Lemma vis_children_total st f x vis :
  n_free st vis < f → x ∉ vis → ∃ res, vis_children f st x vis = Some res.
Proof.
  induction f as [|f IH] in x, vis |- *; [lia|]. intros Hf Hx.
  rewrite vis_children_unfold.
  destruct (decide (x < length st)) as [Hlt|Hge].
  - apply (visit_fold_total _ _ _ (fun v => ∀ y, y ∈ vis ++ [x] → y ∈ v)); [auto|].
    intros v li Hv Hli.
    assert (Hlt' : n_free st v < f).
    { unfold n_free in *.
      pose proof (free_lt (seq 0 (length st)) vis v x
                    ltac:(intros y Hy; apply Hv, elem_of_app; left; exact Hy)
                    ltac:(apply elem_of_seq; lia) Hx
                    ltac:(apply Hv, elem_of_app; right; left)). lia. }
    destruct (IH li v Hlt' Hli) as [r Hr]. exists r. split; [exact Hr|].
    intros y Hy. exact (prefix_rel_elem _ _ _ (proj1 (vis_children_head _ _ _ _ _ Hr)) (Hv y Hy)).
  - unfold link_at. rewrite lookup_ge_None_2 by lia. eexists. reflexivity.
Qed.

Lemma dfs_links_subtree_aux st x :
  ∃ vis, dfs_links st x = Some vis ∧ (∃ t, vis = x :: t) ∧ NoDup vis ∧
    ∀ y, y ∈ vis ↔ rtc (child_link st) x y.
Proof.
  assert (Hf : n_free st [] < S (length st)).
  { unfold n_free. pose proof (length_filter (fun k => k ∉ []) (seq 0 (length st))).
    rewrite length_seq in *. lia. }
  destruct (vis_children_total st _ x [] Hf ltac:(intros Hx; inversion Hx)) as [vis Hv].
  change (vis_children (S (length st)) st x []) with (dfs_links st x) in Hv.
  exists vis. split; [exact Hv|]. split; [exact (dfs_links_head _ _ _ Hv)|].
  split; [exact (dfs_links_nodup _ _ _ Hv)|].
  destruct (vis_children_closed _ _ _ _ _ Hv) as [_ Hcl].
  pose proof (vis_children_reach _ _ _ _ _ Hv) as Hr.
  assert (Hx : x ∈ vis) by (destruct (dfs_links_head _ _ _ Hv) as [t ->]; left).
  intros y. split.
  - intros Hy. destruct (Hr y Hy) as [Hc|Hc]; [inversion Hc|exact Hc].
  - assert (Hcl' : ∀ a c, rtc (child_link st) a c → a ∈ vis → c ∈ vis).
    { induction 1 as [a|a b c Hab _ IHy]; intros Ha; [exact Ha|].
      apply IHy. exact (Hcl a Ha ltac:(intros Hc; inversion Hc) b Hab). }
    intros Hy. exact (Hcl' _ _ Hy Hx).
Qed.

(** [dfs_links(start)] returns, for any store of links, even one whose
    children lists form cycles: [start] first, then every link reachable
    from [start] through [children] lists, each exactly once, and no other
    link. *)
Theorem dfs_links_subtree st x :
  ∃ vis, dfs_links st x = Some vis ∧ (∃ t, vis = x :: t) ∧ NoDup vis ∧
    ∀ y, y ∈ vis ↔ rtc (child_link st) x y.
Proof. apply dfs_links_subtree_aux. Qed.

End Dfs.

(** ** Grippers *)

Module Grip.

Definition lr_err : pyerr := ValueError "list.remove(x): x not in list".

Lemma list_remove_cases x ls : (∃ l, list_remove x ls = Ok l) ∨ list_remove x ls = Err lr_err.
Proof.
  induction ls as [|y ls IH]; simpl; [right; reflexivity|].
  destruct (Nat.eq_dec x y); [left; eauto|].
  destruct IH as [[l ->] | ->]; cbn; [left; eauto|right; reflexivity].
Qed.

Lemma remove_links_cases gs ls : (∃ l, remove_links gs ls = Ok l) ∨ remove_links gs ls = Err lr_err.
Proof.
  induction gs as [|g gs IH] in ls |- *; simpl; [left; eauto|].
  destruct (list_remove_cases g ls) as [[l ->] | ->]; cbn; [apply IH|right; reflexivity].
Qed.

(** The gripper loop of [__init__] either succeeds or raises the
    ValueError of [links.remove]. *)
Lemma extract_cases gl st ls acc :
  (∃ v, extract_grippers gl st ls acc = Ok v) ∨ extract_grippers gl st ls acc = Err lr_err.
Proof.
  induction gl as [|g gl IH] in ls, acc |- *; simpl; [left; eauto|].
  destruct (Dfs.dfs_links_subtree_aux st g) as (vis & -> & _).
  destruct (remove_links_cases vis ls) as [[l ->] | ->]; cbn; [apply IH|right; reflexivity].
Qed.

Lemma extract_roots gl st ls acc v :
  extract_grippers gl st ls acc = Ok v → ∀ g, g ∈ gl → g ∈ ls.
Proof.
  induction gl as [|x gl IH] in ls, acc |- *; simpl; [intros _ g Hg; inversion Hg|].
  destruct (dfs_links st x) as [vis|] eqn:Ed; [|discriminate].
  destruct (remove_links vis ls) as [l1| |] eqn:Er; cbn; try discriminate.
  intros H g Hg. rewrite (Tree.remove_links_perm _ _ _ Er). apply elem_of_app.
  apply elem_of_cons in Hg as [->|Hg].
  - left. destruct (Tree.dfs_links_head _ _ _ Ed) as [t ->]. left.
  - right. exact (IH _ _ H g Hg).
Qed.

Lemma extract_nodup gl st ls acc v :
  extract_grippers gl st ls acc = Ok v → NoDup ls → NoDup gl.
Proof.
  induction gl as [|x gl IH] in ls, acc |- *; simpl; [intros; constructor|].
  destruct (dfs_links st x) as [vis|] eqn:Ed; [|discriminate].
  destruct (remove_links vis ls) as [l1| |] eqn:Er; cbn; try discriminate.
  intros H Hnd. rewrite (Tree.remove_links_perm _ _ _ Er) in Hnd.
  apply NoDup_app in Hnd as (_ & Hdis & Hnd1).
  constructor; [|exact (IH _ _ H Hnd1)].
  intros Hx. apply (Hdis x).
  - destruct (Tree.dfs_links_head _ _ _ Ed) as [t ->]. left.
  - exact (extract_roots _ _ _ _ _ H x Hx).
Qed.

(** A link listed twice in [gripper_links] makes the constructor raise
    the ValueError of [links.remove] once the tree is built: the second
    sub-tree has already left [links]. *)
Theorem construct_duplicate_gripper st0 gl chk bt tt st dict n b :
  ¬ NoDup gl → build_tree st0 = Ok (st, dict, n, b) →
  construct st0 gl chk bt tt = Err lr_err.
Proof.
  intros Hgl Hb. unfold construct. rewrite Hb. cbn.
  destruct (extract_cases gl st (seq 0 (length st0)) []) as [[v E]|E]; rewrite E; [|reflexivity].
  exfalso. exact (Hgl (extract_nodup _ _ _ _ _ E (NoDup_seq 0 _))).
Qed.

Lemma construct_duplicate_gripper_witness :
  ¬ NoDup [2; 2] ∧ construct chain_links [2; 2] true None None = Err lr_err.
Proof.
  assert (Hn : ¬ NoDup [2; 2]).
  { intros H. apply NoDup_cons in H as [H _]. apply H. left. }
  split; [exact Hn|].
  destruct (build_tree chain_links) as [[[[st d] n] b]|e|] eqn:E.
  - exact (construct_duplicate_gripper _ _ _ _ _ st d n b Hn E).
  - vm_compute in E. discriminate.
  - vm_compute in E. discriminate.
Defined.

End Grip.

(** ** [ets()] *)

Module EtsProps.

Lemma getlink_link r i j : getlink r (LLink i) = Ok j → j = i.
Proof.
  unfold getlink. case_bool_decide as Hin; [intros H; injection H as <-; reflexivity|].
  destruct (in_gripper_links r i); [intros H; injection H as <-; reflexivity|discriminate].
Qed.

(** With [start] and [end] the same link, [ets] returns [None], not an
    empty sequence: the first call finds [link == end] while its [path] is
    still [None]. *)
Theorem ets_same_link ets_t mul inv le fuel r start end_ x y ys :
  getlink_default r start (opt_arg (r_base_link r)) = Ok x →
  r_ee_links r = y :: ys →
  getlink_default r end_ (opt_arg y) = Ok x →
  (end_ = LNone → ys = []) →
  ets ets_t mul inv le (S fuel) r start end_ = Ok None.
Proof.
  intros Hs Hee He Hamb. unfold ets. cbn [ets_go]. rewrite Hs. cbn [mbind res_bind].
  assert (Hc : match end_ with LNone => Nat.ltb 1 (length (r_ee_links r)) | _ => false end = false).
  { destruct end_; try reflexivity. rewrite Hee, (Hamb eq_refl). reflexivity. }
  rewrite Hc, Hee. cbn [mbind res_bind]. rewrite He. cbn [mbind res_bind].
  rewrite Nat.eqb_refl. reflexivity.
Qed.

Lemma ets_same_link_witness :
  getlink_default chain_robot (LName "b") (opt_arg (r_base_link chain_robot)) = Ok 1 ∧
  r_ee_links chain_robot = [Some 2] ∧
  getlink_default chain_robot (LLink 1) (opt_arg (Some 2)) = Ok 1 ∧
  (LLink 1 = LNone → @nil (option nat) = []) ∧
  ets _ (@app (string * bool)) ets_names_inv ets_names 1 chain_robot (LName "b") (LLink 1) = Ok None.
Proof.
  assert (H1 : getlink_default chain_robot (LName "b") (opt_arg (r_base_link chain_robot)) = Ok 1)
    by (vm_compute; reflexivity).
  assert (H2 : r_ee_links chain_robot = [Some 2]) by (vm_compute; reflexivity).
  assert (H3 : getlink_default chain_robot (LLink 1) (opt_arg (Some 2)) = Ok 1)
    by (vm_compute; reflexivity).
  assert (H4 : LLink 1 = LNone → @nil (option nat) = []) by (intros _; reflexivity).
  split_and!; [exact H1|exact H2|exact H3|exact H4|].
  exact (ets_same_link _ _ _ _ 0 _ _ _ _ _ _ H1 H2 H3 H4).
Defined.

(** [self.ee_links[0]] is evaluated as the default of [end] even when
    [end] is given: a robot without end-effector links raises IndexError
    once [start] is found. *)
Theorem ets_no_ee_links ets_t mul inv le fuel r start end_ x :
  getlink_default r start (opt_arg (r_base_link r)) = Ok x →
  r_ee_links r = [] →
  ets ets_t mul inv le (S fuel) r start end_ = Err IndexError.
Proof.
  intros Hs Hee. unfold ets. cbn [ets_go]. rewrite Hs. cbn. rewrite Hee.
  destruct end_; reflexivity.
Qed.

Lemma ets_no_ee_links_witness :
  getlink_default loop_robot (LName "b") (opt_arg (r_base_link loop_robot)) = Ok 0 ∧
  r_ee_links loop_robot = [] ∧
  ets _ (@app (string * bool)) ets_names_inv ets_names 1 loop_robot (LName "b") (LName "b")
    = Err IndexError.
Proof.
  assert (H1 : getlink_default loop_robot (LName "b") (opt_arg (r_base_link loop_robot)) = Ok 0)
    by (vm_compute; reflexivity).
  assert (H2 : r_ee_links loop_robot = []) by (vm_compute; reflexivity).
  split_and!; [exact H1|exact H2|].
  exact (ets_no_ee_links _ _ _ _ 0 _ _ _ _ H1 H2).
Defined.

End EtsProps.

Module EtsRoute.

Section Route.
Variable ets_t : Type.
Variable mul : ets_t -> ets_t -> ets_t.
Variable inv : ets_t -> ets_t.
Variable le : ELink -> ets_t.

(** [ets_walk st x e acc p]: [p] is [acc] extended along a route from [x]
    to [e] whose steps go down to a child [c], multiplying by [c.ets()],
    or up to the parent, multiplying by the inverse of the ETS of the link
    left. *)
Inductive ets_walk (st : list ELink) : nat -> nat -> ets_t -> ets_t -> Prop :=
| walk_here x acc : ets_walk st x x acc acc
| walk_down x c e acc p :
    c ∈ children (link_at st x) →
    ets_walk st c e (mul acc (le (link_at st c))) p → ets_walk st x e acc p
| walk_parent x par e acc p :
    parent_of st x = Some par →
    ets_walk st par e (mul acc (inv (le (link_at st x)))) p → ets_walk st x e acc p.

Lemma children_sound go st x path pth cs ex p ex' e :
  (∀ c ex0 a p ex1, go c ex0 a = Ok (Some p, ex1) → ets_walk st c e a p) →
  (∀ c, c ∈ cs → c ∈ children (link_at st x)) →
  ets_children ets_t mul inv le go st x path pth cs ex = Ok (Some p, ex') →
  (∃ c, c ∈ children (link_at st x) ∧ ets_walk st c e (mul pth (le (link_at st c))) p) ∨
  (∃ par, parent_of st x = Some par ∧
     ets_walk st par e (match path with
                        | None => inv (le (link_at st x))
                        | Some p0 => mul p0 (inv (le (link_at st x))) end) p).
Proof.
  intros Hgo. induction cs as [|c cs IH] in ex |- *; intros Hcs; cbn [ets_children].
  - unfold ets_up. destruct (parent_of st x) as [par|] eqn:Ep; [|discriminate].
    case_bool_decide as Hin; [discriminate|]. intros H. right. exists par.
    split; [reflexivity|]. exact (Hgo _ _ _ _ _ H).
  - assert (Hcs' : ∀ c', c' ∈ cs → c' ∈ children (link_at st x))
      by (intros c' Hc'; apply Hcs; right; exact Hc').
    case_bool_decide as Hin; [exact (IH _ Hcs')|].
    destruct (go c ex _) as [[[p0|] ex0]| |] eqn:E; cbn; try discriminate.
    + intros H. injection H as <- _. left. exists c. split; [apply Hcs; left|].
      exact (Hgo _ _ _ _ _ E).
    + exact (IH _ Hcs').
Qed.

(** The calls below the top level: [path] is given. *)
Lemma ets_go_sound f r start end_ ex acc p ex' :
  ets_go ets_t mul inv le f r start end_ ex (Some acc) = Ok (Some p, ex') →
  ∃ x e, getlink_default r start (opt_arg (r_base_link r)) = Ok x ∧
    (∃ y ys, r_ee_links r = y :: ys ∧ getlink_default r end_ (opt_arg y) = Ok e) ∧
    ets_walk (r_store r) x e acc p.
Proof.
  induction f as [|f IH] in start, end_, ex, acc, p, ex' |- *; [discriminate|].
  cbn [ets_go]. destruct (getlink_default r start _) as [x| |] eqn:Ex; cbn; try discriminate.
  destruct (match end_ with LNone => _ | _ => false end); [discriminate|].
  destruct (r_ee_links r) as [|y ys] eqn:Ee; cbn; [discriminate|].
  destruct (getlink_default r end_ (opt_arg y)) as [e| |] eqn:Eg; cbn; try discriminate.
  intros H. exists x, e. split; [reflexivity|]. split; [exists y, ys; auto|].
  destruct (Nat.eqb_spec x e) as [<-|Hne].
  - injection H as <- _. constructor.
  - assert (Hgo : ∀ c ex0 a p0 ex1,
              ets_go ets_t mul inv le f r (LLink c) (LLink e) ex0 (Some a) = Ok (Some p0, ex1) →
              ets_walk (r_store r) c e a p0).
    { intros c ex0 a p0 ex1 Hc.
      destruct (IH _ _ _ _ _ _ Hc) as (x' & e' & Hx' & (y' & ys' & _ & He') & Hw).
      apply EtsProps.getlink_link in Hx'. apply EtsProps.getlink_link in He'. subst. exact Hw. }
    destruct (children_sound _ _ _ _ _ _ _ _ _ e Hgo (fun c Hc => Hc) H)
      as [(c & Hc & Hw)|(par & Hp & Hw)].
    + exact (walk_down _ _ _ _ _ _ Hc Hw).
    + exact (walk_parent _ _ _ _ _ _ Hp Hw).
Qed.

End Route.

(** [robot.ets(start, end)] returns an ETS only for [start] different from
    [end], and that ETS is a product along a route through the links from
    [start] to [end]: down to a child, multiplying by its [ets()], or up to
    the parent, multiplying by the inverse of the [ets()] of the link left.
    A route that starts downward starts from [start.ets()]; a route that
    starts upward starts from [start.ets().inv()], without [start.ets()]. *)
Theorem ets_route ets_t mul inv le fuel r start end_ p :
  ets ets_t mul inv le fuel r start end_ = Ok (Some p) →
  ∃ x e, getlink_default r start (opt_arg (r_base_link r)) = Ok x ∧
    (∃ y ys, r_ee_links r = y :: ys ∧ getlink_default r end_ (opt_arg y) = Ok e) ∧ x ≠ e ∧
    ((∃ c, c ∈ children (link_at (r_store r) x) ∧
        ets_walk ets_t mul inv le (r_store r) c e
          (mul (le (link_at (r_store r) x)) (le (link_at (r_store r) c))) p) ∨
     (∃ par, parent_of (r_store r) x = Some par ∧
        ets_walk ets_t mul inv le (r_store r) par e (inv (le (link_at (r_store r) x))) p)).
Proof.
  unfold ets. destruct fuel as [|f]; [discriminate|].
  cbn [ets_go]. destruct (getlink_default r start _) as [x| |] eqn:Ex; cbn; try discriminate.
  destruct (match end_ with LNone => _ | _ => false end); [discriminate|].
  destruct (r_ee_links r) as [|y ys] eqn:Ee; cbn; [discriminate|].
  destruct (getlink_default r end_ (opt_arg y)) as [e| |] eqn:Eg; cbn; try discriminate.
  destruct (Nat.eqb_spec x e) as [<-|Hne]; [discriminate|].
  destruct (ets_children _ _ _ _ _ _ _ _ _ _ _) as [[p0 ex']| |] eqn:Ec; cbn; try discriminate.
  intros H. injection H as ->.
  exists x, e. split; [reflexivity|]. split; [exists y, ys; auto|]. split; [exact Hne|].
  assert (Hgo : ∀ c ex0 a p0 ex1,
            ets_go ets_t mul inv le f r (LLink c) (LLink e) ex0 (Some a) = Ok (Some p0, ex1) →
            ets_walk ets_t mul inv le (r_store r) c e a p0).
  { intros c ex0 a p0 ex1 Hc.
    destruct (ets_go_sound _ _ _ _ _ _ _ _ _ _ _ _ Hc)
      as (x' & e' & Hx' & (y' & ys' & _ & He') & Hw).
    apply EtsProps.getlink_link in Hx'. apply EtsProps.getlink_link in He'. subst. exact Hw. }
  exact (children_sound _ _ _ _ _ _ _ _ _ _ _ _ _ e Hgo (fun c Hc => Hc) Ec).
Qed.

Lemma ets_route_witness :
  ets _ (@app (string * bool)) ets_names_inv ets_names 10 chain_robot (LName "a") (LName "c")
    = Ok (Some [("a", false); ("b", false); ("c", false)]) ∧
  ∃ x e, getlink_default chain_robot (LName "a") (opt_arg (r_base_link chain_robot)) = Ok x ∧
    (∃ y ys, r_ee_links chain_robot = y :: ys ∧
       getlink_default chain_robot (LName "c") (opt_arg y) = Ok e) ∧ x ≠ e ∧
    ((∃ c, c ∈ children (link_at (r_store chain_robot) x) ∧
        ets_walk _ (@app (string * bool)) ets_names_inv ets_names (r_store chain_robot) c e
          (ets_names (link_at (r_store chain_robot) x) ++
           ets_names (link_at (r_store chain_robot) c))
          [("a", false); ("b", false); ("c", false)]) ∨
     (∃ par, parent_of (r_store chain_robot) x = Some par ∧
        ets_walk _ (@app (string * bool)) ets_names_inv ets_names (r_store chain_robot) par e
          (ets_names_inv (ets_names (link_at (r_store chain_robot) x)))
          [("a", false); ("b", false); ("c", false)])).
Proof.
  assert (H : ets _ (@app (string * bool)) ets_names_inv ets_names 10 chain_robot
                (LName "a") (LName "c") = Ok (Some [("a", false); ("b", false); ("c", false)]))
    by (vm_compute; reflexivity).
  split; [exact H|]. exact (ets_route _ _ _ _ _ _ _ _ _ H).
Defined.

End EtsRoute.

Module EtsDown.

(** [down_chain st l]: each link of [l] after the first is in the
    [children] list of the one before it. *)
Inductive down_chain (st : list ELink) : list nat -> Prop :=
| dc_one a : down_chain st [a]
| dc_cons a b l :
    b ∈ children (link_at st a) → down_chain st (b :: l) → down_chain st (a :: b :: l).

Lemma ancestor_add st m n z :
  GetPath.ancestor st (m + n) z = GetPath.ancestor st n z ≫= GetPath.ancestor st m.
Proof.
  induction n as [|n IH] in z |- *.
  - rewrite Nat.add_0_r. reflexivity.
  - rewrite Nat.add_succ_r. simpl. destruct (parent_of st z) as [p|]; simpl; [apply IH|reflexivity].
Qed.

Lemma getlink_default_link r i d : getlink_default r (LLink i) d = getlink r (LLink i).
Proof. reflexivity. Qed.

Section Down.
Variable r : ERobot.
Local Abbreviation st := (r_store r).
Local Abbreviation sub := (rtc (Dfs.child_link (r_store r))).

(** The links form a tree: a link listed as a child has the listing link
    as its parent, and following parents never comes back. *)
Hypothesis Hpar : ∀ y c, c ∈ children (link_at st y) → parent_of st c = Some y.
Hypothesis Hacyc : ∀ k z, GetPath.ancestor st (S k) z ≠ Some z.

Lemma anc_inj k1 k2 z a :
  GetPath.ancestor st k1 z = Some a → GetPath.ancestor st k2 z = Some a → k1 = k2.
Proof.
  assert (Hlt : ∀ j1 j2, j1 < j2 → GetPath.ancestor st j1 z = Some a →
                GetPath.ancestor st j2 z = Some a → False).
  { intros j1 j2 Hj H1 H2. replace j2 with (S (j2 - j1 - 1) + j1) in H2 by lia.
    rewrite ancestor_add, H1 in H2. exact (Hacyc (j2 - j1 - 1) a H2). }
  intros H1 H2. destruct (Nat.lt_total k1 k2) as [Hl|[Heq|Hl]];
    [exfalso; eauto|exact Heq|exfalso; eauto].
Qed.

Lemma sub_anc y z : sub y z → ∃ k, GetPath.ancestor st k z = Some y.
Proof.
  induction 1 as [a|a b c Hab _ [k Hk]]; [exists 0; reflexivity|].
  exists (S k). rewrite GetPath.ancestor_S_r, Hk. exact (Hpar _ _ Hab).
Qed.

Lemma not_sub_up y c : c ∈ children (link_at st y) → ¬ sub c y.
Proof.
  intros Hc Hs. destruct (sub_anc _ _ Hs) as [k Hk]. apply (Hacyc k y).
  rewrite GetPath.ancestor_S_r, Hk. exact (Hpar _ _ Hc).
Qed.

Lemma siblings_disjoint y c1 c2 z :
  c1 ∈ children (link_at st y) → c2 ∈ children (link_at st y) → sub c1 z → sub c2 z → c1 = c2.
Proof.
  intros H1 H2 S1 S2. destruct (sub_anc _ _ S1) as [k1 K1]. destruct (sub_anc _ _ S2) as [k2 K2].
  assert (Y1 : GetPath.ancestor st (S k1) z = Some y)
    by (rewrite GetPath.ancestor_S_r, K1; exact (Hpar _ _ H1)).
  assert (Y2 : GetPath.ancestor st (S k2) z = Some y)
    by (rewrite GetPath.ancestor_S_r, K2; exact (Hpar _ _ H2)).
  pose proof (anc_inj _ _ _ _ Y1 Y2) as E. injection E as ->. congruence.
Qed.

Lemma in_range_of_child y c : c ∈ children (link_at st y) → y < length st.
Proof.
  unfold link_at. destruct (st !! y) as [l|] eqn:E; intros Hc.
  - exact (lookup_lt_Some _ _ _ E).
  - simpl in Hc. inversion Hc.
Qed.

Lemma sub_range x z : sub x z → z = x ∨ z < length st.
Proof.
  intros Hs. apply rtc_inv_r in Hs as [->|(a & _ & Ha)]; [left; reflexivity|right].
  pose proof (Hpar _ _ Ha) as Hp. unfold parent_of in Hp.
  destruct (st !! z) as [l|] eqn:E; [exact (lookup_lt_Some _ _ _ E)|discriminate].
Qed.

Lemma chain_sub c t e : down_chain st (c :: t) → last (c :: t) = Some e → sub c e.
Proof.
  induction t as [|b t IH] in c |- *; intros Hd Hl.
  - simpl in Hl. injection Hl as ->. apply rtc_refl.
  - inversion Hd as [|? ? ? Hcb Hd']; subst. eapply rtc_l; [exact Hcb|]. apply IH; [exact Hd'|].
    exact Hl.
Qed.

Lemma loop_in_done y (ex exk : gset nat) done c cs :
  (∀ z, sub y z → z ∉ ex) → children (link_at st y) = done ++ c :: cs →
  (∀ z, z ∈ exk ↔ z ∈ ex ∨ z = y ∨ ∃ c', c' ∈ done ∧ sub c' z) →
  c ∈ exk → c ∈ done.
Proof.
  intros Hfree Hch Hk Hin.
  assert (Hcy : c ∈ children (link_at st y)) by (rewrite Hch; apply elem_of_app; right; left).
  apply Hk in Hin as [Hin|[->|(c' & Hc' & Hs)]].
  - exfalso. apply (Hfree c); [|exact Hin]. apply rtc_once. exact Hcy.
  - exfalso. exact (not_sub_up _ _ Hcy (rtc_refl _ _)).
  - assert (c' = c) as <-; [|exact Hc'].
    apply (siblings_disjoint y c' c c); [|exact Hcy|exact Hs|apply rtc_refl].
    rewrite Hch. apply elem_of_app. left. exact Hc'.
Qed.

Lemma loop_fresh y (ex exk : gset nat) done c cs :
  (∀ z, sub y z → z ∉ ex) → children (link_at st y) = done ++ c :: cs →
  (∀ z, z ∈ exk ↔ z ∈ ex ∨ z = y ∨ ∃ c', c' ∈ done ∧ sub c' z) →
  c ∉ exk → ∀ z, sub c z → z ∉ exk.
Proof.
  intros Hfree Hch Hk Hin z Hs Hz.
  assert (Hcy : c ∈ children (link_at st y)) by (rewrite Hch; apply elem_of_app; right; left).
  apply Hk in Hz as [Hz|[->|(c' & Hc' & Hs')]].
  - apply (Hfree z); [eapply rtc_l; [exact Hcy|exact Hs]|exact Hz].
  - exact (not_sub_up _ _ Hcy Hs).
  - assert (c' = c) as ->.
    { apply (siblings_disjoint y c' c z); [|exact Hcy|exact Hs'|exact Hs].
      rewrite Hch. apply elem_of_app. left. exact Hc'. }
    apply Hin, Hk. right. right. exists c. split; [exact Hc'|apply rtc_refl].
Qed.

Lemma done_snoc_old (ex exk : gset nat) y done c :
  c ∈ done →
  (∀ z, z ∈ exk ↔ z ∈ ex ∨ z = y ∨ ∃ c', c' ∈ done ∧ sub c' z) →
  (∀ z, z ∈ exk ↔ z ∈ ex ∨ z = y ∨ ∃ c', c' ∈ done ++ [c] ∧ sub c' z).
Proof.
  intros Hcd Hk z. rewrite Hk. split.
  - intros [H|[H|(c' & Hc' & Hs)]]; [left; exact H|right; left; exact H|].
    right. right. exists c'. split; [apply elem_of_app; left; exact Hc'|exact Hs].
  - intros [H|[H|(c' & Hc' & Hs)]]; [left; exact H|right; left; exact H|].
    right. right. exists c'. split; [|exact Hs].
    apply elem_of_app in Hc' as [Hc'|Hc']; [exact Hc'|].
    apply list_elem_of_singleton in Hc' as ->. exact Hcd.
Qed.

Lemma done_snoc_new (ex exk ex' : gset nat) y done c :
  (∀ z, z ∈ exk ↔ z ∈ ex ∨ z = y ∨ ∃ c', c' ∈ done ∧ sub c' z) →
  (∀ z, z ∈ ex' ↔ z ∈ exk ∨ sub c z) →
  (∀ z, z ∈ ex' ↔ z ∈ ex ∨ z = y ∨ ∃ c', c' ∈ done ++ [c] ∧ sub c' z).
Proof.
  intros Hk Hk' z. rewrite Hk', Hk. split.
  - intros [[H|[H|(c' & Hc' & Hs)]]|Hs]; [left; exact H|right; left; exact H| |].
    + right. right. exists c'. split; [apply elem_of_app; left; exact Hc'|exact Hs].
    + right. right. exists c. split; [apply elem_of_app; right; left|exact Hs].
  - intros [H|[H|(c' & Hc' & Hs)]]; [left; left; exact H|left; right; left; exact H|].
    apply elem_of_app in Hc' as [Hc'|Hc'].
    + left. right. right. exists c'. split; [exact Hc'|exact Hs].
    + apply list_elem_of_singleton in Hc' as ->. right. exact Hs.
Qed.

Variable ets_t : Type.
Variable mul : ets_t -> ets_t -> ets_t.
Variable inv : ets_t -> ets_t.
Variable le : ELink -> ets_t.
Variable e : nat.

Local Abbreviation prod := (foldl (fun a c => mul a (le (link_at (r_store r) c)))).

Section Loop.
Variable go : nat -> gset nat -> ets_t -> res (option ets_t * gset nat).
Variables (y : nat) (ex : gset nat).
Hypothesis Hfree : ∀ z, sub y z → z ∉ ex.
Hypothesis Hgo_none : ∀ c exk a,
  c ∈ children (link_at st y) → y ∈ exk → (∀ z, z ∈ ex → z ∈ exk) → c ∉ exk →
  (∀ z, sub c z → z ∉ exk) → ¬ sub c e →
  ∃ ex', go c exk a = Ok (None, ex') ∧ ∀ z, z ∈ ex' ↔ z ∈ exk ∨ sub c z.

Lemma loop_none path pth :
  ¬ sub y e → (∀ p, parent_of st y = Some p → p ∈ ex) →
  ∀ cs done exk, children (link_at st y) = done ++ cs →
    (∀ z, z ∈ exk ↔ z ∈ ex ∨ z = y ∨ ∃ c, c ∈ done ∧ sub c z) →
    ∃ ex', ets_children ets_t mul inv le go st y path pth cs exk = Ok (None, ex') ∧
      ∀ z, z ∈ ex' ↔ z ∈ ex ∨ sub y z.
Proof.
  intros Hne Hup. induction cs as [|c cs IH]; intros done exk Hch Hk; cbn [ets_children].
  - rewrite app_nil_r in Hch.
    assert (Hset : ∀ z, z ∈ exk ↔ z ∈ ex ∨ sub y z).
    { intros z. rewrite Hk. split.
      - intros [H|[->|(c & Hc & Hs)]]; [left; exact H|right; apply rtc_refl|].
        right. eapply rtc_l; [|exact Hs]. unfold Dfs.child_link. rewrite Hch. exact Hc.
      - intros [H|Hs]; [left; exact H|].
        apply rtc_inv in Hs as [->|(c & Hc & Hs)]; [right; left; reflexivity|].
        right. right. exists c. split; [|exact Hs]. unfold Dfs.child_link in Hc.
        rewrite <- Hch. exact Hc. }
    unfold ets_up. destruct (parent_of st y) as [p|] eqn:Ep.
    + rewrite bool_decide_eq_true_2; [exists exk; split; [reflexivity|exact Hset]|].
      apply Hset. left. apply Hup. reflexivity.
    + exists exk. split; [reflexivity|exact Hset].
  - case_bool_decide as Hin.
    + apply (IH (done ++ [c])); [rewrite <- app_assoc; exact Hch|].
      exact (done_snoc_old _ _ _ _ _ (loop_in_done _ _ _ _ _ _ Hfree Hch Hk Hin) Hk).
    + assert (Hcy : c ∈ children (link_at st y)) by (rewrite Hch; apply elem_of_app; right; left).
      assert (Hce : ¬ sub c e) by (intros Hs; apply Hne; eapply rtc_l; [exact Hcy|exact Hs]).
      assert (Hyk : y ∈ exk) by (apply Hk; right; left; reflexivity).
      assert (Hek : ∀ z, z ∈ ex → z ∈ exk) by (intros z Hz; apply Hk; left; exact Hz).
      destruct (Hgo_none c exk (mul pth (le (link_at st c))) Hcy Hyk Hek Hin
                  (loop_fresh _ _ _ _ _ _ Hfree Hch Hk Hin) Hce) as (ex'' & Hg & Hex'').
      rewrite Hg. cbn [mbind res_bind].
      apply (IH (done ++ [c])); [rewrite <- app_assoc; exact Hch|].
      exact (done_snoc_new _ _ _ _ _ _ Hk Hex'').
Qed.

Hypothesis Hgo_some : ∀ c exk a t,
  c ∈ children (link_at st y) → y ∈ exk → (∀ z, z ∈ ex → z ∈ exk) → c ∉ exk →
  (∀ z, sub c z → z ∉ exk) → down_chain st (c :: t) → last (c :: t) = Some e →
  ∃ ex', go c exk a = Ok (Some (prod a t), ex').

Lemma loop_some path pth c0 t :
  down_chain st (c0 :: t) → last (c0 :: t) = Some e →
  ∀ cs done exk, children (link_at st y) = done ++ cs → c0 ∈ cs →
    (∀ c, c ∈ done → ¬ sub c e) →
    (∀ z, z ∈ exk ↔ z ∈ ex ∨ z = y ∨ ∃ c, c ∈ done ∧ sub c z) →
    ∃ ex', ets_children ets_t mul inv le go st y path pth cs exk =
           Ok (Some (prod (mul pth (le (link_at st c0))) t), ex').
Proof.
  intros Hd Hl. pose proof (chain_sub _ _ _ Hd Hl) as Hc0e.
  induction cs as [|c cs IH]; intros done exk Hch Hc0 Hdone Hk; [inversion Hc0|].
  cbn [ets_children].
  assert (Hcy : c ∈ children (link_at st y)) by (rewrite Hch; apply elem_of_app; right; left).
  assert (Hc0y : c0 ∈ children (link_at st y))
    by (rewrite Hch; apply elem_of_app; right; exact Hc0).
  case_bool_decide as Hin.
  - pose proof (loop_in_done _ _ _ _ _ _ Hfree Hch Hk Hin) as Hcd.
    apply (IH (done ++ [c])).
    + rewrite <- app_assoc. exact Hch.
    + apply elem_of_cons in Hc0 as [->|Hc0]; [|exact Hc0].
      exfalso. exact (Hdone _ Hcd Hc0e).
    + intros c' Hc'. apply elem_of_app in Hc' as [Hc'|Hc']; [exact (Hdone _ Hc')|].
      apply list_elem_of_singleton in Hc' as ->. exact (Hdone _ Hcd).
    + exact (done_snoc_old _ _ _ _ _ Hcd Hk).
  - assert (Hyk : y ∈ exk) by (apply Hk; right; left; reflexivity).
    assert (Hek : ∀ z, z ∈ ex → z ∈ exk) by (intros z Hz; apply Hk; left; exact Hz).
    pose proof (loop_fresh _ _ _ _ _ _ Hfree Hch Hk Hin) as Hfc.
    destruct (decide (c = c0)) as [<-|Hne].
    + destruct (Hgo_some c exk (mul pth (le (link_at st c))) t Hcy Hyk Hek Hin Hfc Hd Hl)
        as (ex' & Hg). rewrite Hg. cbn [mbind res_bind]. exists ex'. reflexivity.
    + assert (Hce : ¬ sub c e)
        by (intros Hs; apply Hne; exact (siblings_disjoint _ _ _ _ Hcy Hc0y Hs Hc0e)).
      destruct (Hgo_none c exk (mul pth (le (link_at st c))) Hcy Hyk Hek Hin Hfc Hce)
        as (ex'' & Hg & Hex''). rewrite Hg. cbn [mbind res_bind].
      apply (IH (done ++ [c])).
      * rewrite <- app_assoc. exact Hch.
      * apply elem_of_cons in Hc0 as [->|Hc0]; [congruence|exact Hc0].
      * intros c' Hc'. apply elem_of_app in Hc' as [Hc'|Hc']; [exact (Hdone _ Hc')|].
        apply list_elem_of_singleton in Hc' as ->. exact Hce.
      * exact (done_snoc_new _ _ _ _ _ _ Hk Hex'').
Qed.

End Loop.

Variable x0 : nat.
Hypothesis Hvalid : ∀ z, sub x0 z → getlink r (LLink z) = Ok z.
Hypothesis He : getlink r (LLink e) = Ok e.
Variables (y0 : option nat) (ys : list (option nat)).
Hypothesis Hee : r_ee_links r = y0 :: ys.

Lemma down_go f : ∀ y (ex : gset nat) acc,
  sub x0 y → y ∉ ex → (∀ z, sub y z → z ∉ ex) → Dfs.n_free st (elements ex) < f →
  (∀ t, down_chain st (y :: t) → last (y :: t) = Some e →
     ∃ ex', ets_go ets_t mul inv le f r (LLink y) (LLink e) ex (Some acc) =
            Ok (Some (prod acc t), ex')) ∧
  (¬ sub y e → (∀ p, parent_of st y = Some p → p ∈ ex) →
     ∃ ex', ets_go ets_t mul inv le f r (LLink y) (LLink e) ex (Some acc) = Ok (None, ex') ∧
       ∀ z, z ∈ ex' ↔ z ∈ ex ∨ sub y z).
Proof.
  induction f as [|f IH]; intros y ex acc Hy Hyex Hfree Hf; [lia|].
  cbn [ets_go]. rewrite !getlink_default_link, (Hvalid y Hy). cbn [mbind res_bind].
  rewrite Hee. cbn [mbind res_bind]. rewrite getlink_default_link, He. cbn [mbind res_bind].
  (* the recursive calls, for a child [c] of [y] *)
  assert (Hrec : ∀ c exk a, c ∈ children (link_at st y) → y ∈ exk →
            (∀ z, z ∈ ex → z ∈ exk) → c ∉ exk → (∀ z, sub c z → z ∉ exk) →
            (∀ t, down_chain st (c :: t) → last (c :: t) = Some e →
               ∃ ex', ets_go ets_t mul inv le f r (LLink c) (LLink e) exk (Some a) =
                      Ok (Some (prod a t), ex')) ∧
            (¬ sub c e → (∀ p, parent_of st c = Some p → p ∈ exk) →
               ∃ ex', ets_go ets_t mul inv le f r (LLink c) (LLink e) exk (Some a) = Ok (None, ex') ∧
                 ∀ z, z ∈ ex' ↔ z ∈ exk ∨ sub c z)).
  { intros c exk a Hc Hyk Hek Hck Hfc. apply IH; [|exact Hck|exact Hfc|].
    - etrans; [exact Hy|]. apply rtc_once. exact Hc.
    - assert (Hlt : Dfs.n_free st (elements exk) < Dfs.n_free st (elements ex)).
      { unfold Dfs.n_free. apply (Dfs.free_lt _ _ _ y).
        - intros z. rewrite !elem_of_elements. apply Hek.
        - apply elem_of_seq. pose proof (in_range_of_child _ _ Hc). lia.
        - rewrite elem_of_elements. exact Hyex.
        - rewrite elem_of_elements. exact Hyk. }
      lia. }
  destruct (Nat.eqb_spec y e) as [<-|Hne].
  - split.
    + intros t Hd Hl. destruct t as [|c t]; [exists ({[y]} ∪ ex); reflexivity|].
      exfalso. inversion Hd as [|? ? ? Hc Hd']; subst.
      exact (not_sub_up _ _ Hc (chain_sub _ _ _ Hd' Hl)).
    + intros Hn. exfalso. apply Hn. apply rtc_refl.
  - set (go := fun c ex p => ets_go ets_t mul inv le f r (LLink c) (LLink e) ex (Some p)).
    assert (Hnone : ∀ c exk a, c ∈ children (link_at st y) → y ∈ exk →
              (∀ z, z ∈ ex → z ∈ exk) → c ∉ exk → (∀ z, sub c z → z ∉ exk) → ¬ sub c e →
              ∃ ex', go c exk a = Ok (None, ex') ∧ ∀ z, z ∈ ex' ↔ z ∈ exk ∨ sub c z).
    { intros c exk a Hc Hyk Hek Hck Hfc Hce.
      apply (Hrec c exk a Hc Hyk Hek Hck Hfc); [exact Hce|].
      intros p Hp. rewrite (Hpar _ _ Hc) in Hp. injection Hp as <-. exact Hyk. }
    assert (Hsome : ∀ c exk a t, c ∈ children (link_at st y) → y ∈ exk →
              (∀ z, z ∈ ex → z ∈ exk) → c ∉ exk → (∀ z, sub c z → z ∉ exk) →
              down_chain st (c :: t) → last (c :: t) = Some e →
              ∃ ex', go c exk a = Ok (Some (prod a t), ex')).
    { intros c exk a t Hc Hyk Hek Hck Hfc. exact (proj1 (Hrec c exk a Hc Hyk Hek Hck Hfc) t). }
    assert (Hk0 : ∀ z, z ∈ ({[y]} ∪ ex : gset nat) ↔
                  z ∈ ex ∨ z = y ∨ ∃ c, c ∈ @nil nat ∧ sub c z).
    { intros z. rewrite elem_of_union, elem_of_singleton. split.
      - intros [H|H]; [right; left; exact H|left; exact H].
      - intros [H|[H|(c' & Hc' & _)]]; [right; exact H|left; exact H|inversion Hc']. }
    split.
    + intros t Hd Hl. destruct t as [|c t]; [simpl in Hl; congruence|].
      inversion Hd as [|? ? ? Hc Hd']; subst.
      exact (loop_some go y ex Hfree Hnone Hsome (Some acc) acc c t Hd' Hl
               (children (link_at st y)) [] ({[y]} ∪ ex) eq_refl Hc
               (fun c' Hc' => match not_elem_of_nil c' Hc' with end) Hk0).
    + intros Hn Hup.
      exact (loop_none go y ex Hfree Hnone (Some acc) acc Hn Hup
               (children (link_at st y)) [] ({[y]} ∪ ex) eq_refl Hk0).
Qed.

End Down.

(** [robot.ets(start, end)] with [end] a descendant of [start], in a
    robot whose links form a tree (each link listed as a child has the
    listing link as parent, and no link is its own ancestor), returns
    [start.ets() * c1.ets() * ... * end.ets()] along the chain of children
    from [start] to [end]: the search skips every other branch and never
    goes up. *)
Theorem ets_descendant ets_t mul inv le fuel r x t e :
  (∀ y c, c ∈ children (link_at (r_store r) y) → parent_of (r_store r) c = Some y) →
  (∀ k z, GetPath.ancestor (r_store r) (S k) z ≠ Some z) →
  (∀ z, rtc (Dfs.child_link (r_store r)) x z → getlink r (LLink z) = Ok z) →
  r_ee_links r ≠ [] →
  down_chain (r_store r) (x :: t) → last t = Some e →
  length (r_store r) < fuel →
  ets ets_t mul inv le fuel r (LLink x) (LLink e) =
    Ok (Some (foldl (fun a c => mul a (le (link_at (r_store r) c))) (le (link_at (r_store r) x)) t)).
Proof.
  intros Hpar Hacyc Hvalid Hee Hd Hl Hf.
  destruct t as [|c t]; [discriminate|].
  inversion Hd as [|? ? ? Hc Hd']; subst.
  destruct (r_ee_links r) as [|y0 ys] eqn:Ee; [congruence|].
  pose proof (chain_sub r c t e Hd' Hl) as Hce.
  assert (He : getlink r (LLink e) = Ok e) by (apply Hvalid; eapply rtc_l; [exact Hc|exact Hce]).
  destruct fuel as [|f]; [lia|].
  unfold ets. cbn [ets_go]. rewrite getlink_default_link, (Hvalid x (rtc_refl _ _)).
  cbn [mbind res_bind]. rewrite Ee. cbn [mbind res_bind]. rewrite getlink_default_link, He.
  cbn [mbind res_bind].
  destruct (Nat.eqb_spec x e) as [->|_]; [exfalso; exact (not_sub_up r Hpar Hacyc e c Hc Hce)|].
  set (go := fun c ex p => ets_go ets_t mul inv le f r (LLink c) (LLink e) ex (Some p)).
  assert (Hfuel : ∀ c' (exk : gset nat), c' ∈ children (link_at (r_store r) x) → x ∈ exk →
            Dfs.n_free (r_store r) (elements exk) < f).
  { intros c' exk Hc' Hxk.
    assert (Hlt : Dfs.n_free (r_store r) (elements exk) < Dfs.n_free (r_store r) (elements (∅ : gset nat))).
    { unfold Dfs.n_free. apply (Dfs.free_lt _ _ _ x).
      - intros z. rewrite elem_of_elements. intros Hz. exfalso. exact (not_elem_of_empty z Hz).
      - apply elem_of_seq. pose proof (in_range_of_child r x c' Hc'). lia.
      - rewrite elem_of_elements. apply not_elem_of_empty.
      - rewrite elem_of_elements. exact Hxk. }
    assert (Hle : Dfs.n_free (r_store r) (elements (∅ : gset nat)) ≤ length (r_store r)).
    { unfold Dfs.n_free. pose proof (length_filter (fun k => k ∉ elements (∅ : gset nat))
        (seq 0 (length (r_store r)))) as H. rewrite length_seq in H. exact H. }
    lia. }
  assert (Hgo : ∀ c' exk a, c' ∈ children (link_at (r_store r) x) → x ∈ exk →
            c' ∉ exk → (∀ z, rtc (Dfs.child_link (r_store r)) c' z → z ∉ exk) →
            (∀ t', down_chain (r_store r) (c' :: t') → last (c' :: t') = Some e →
               ∃ ex', go c' exk a =
                 Ok (Some (foldl (fun a c => mul a (le (link_at (r_store r) c))) a t'), ex')) ∧
            (¬ rtc (Dfs.child_link (r_store r)) c' e →
               (∀ p, parent_of (r_store r) c' = Some p → p ∈ exk) →
               ∃ ex', go c' exk a = Ok (None, ex') ∧
                 ∀ z, z ∈ ex' ↔ z ∈ exk ∨ rtc (Dfs.child_link (r_store r)) c' z)).
  { intros c' exk a Hc' Hxk Hck Hfc.
    exact (down_go r Hpar Hacyc ets_t mul inv le e x Hvalid He y0 ys Ee f c' exk a
             (rtc_once _ _ Hc') Hck Hfc (Hfuel c' exk Hc' Hxk)). }
  assert (Hk0 : ∀ z, z ∈ ({[x]} ∪ ∅ : gset nat) ↔
                z ∈ (∅ : gset nat) ∨ z = x ∨ ∃ c', c' ∈ @nil nat ∧ rtc (Dfs.child_link (r_store r)) c' z).
  { intros z. rewrite elem_of_union, elem_of_singleton. split.
    - intros [H|H]; [right; left; exact H|left; exact H].
    - intros [H|[H|(c' & Hc' & _)]]; [right; exact H|left; exact H|inversion Hc']. }
  assert (Hnone : ∀ c' exk a, c' ∈ children (link_at (r_store r) x) → x ∈ exk →
            (∀ z, z ∈ (∅ : gset nat) → z ∈ exk) → c' ∉ exk →
            (∀ z, rtc (Dfs.child_link (r_store r)) c' z → z ∉ exk) →
            ¬ rtc (Dfs.child_link (r_store r)) c' e →
            ∃ ex', go c' exk a = Ok (None, ex') ∧
              ∀ z, z ∈ ex' ↔ z ∈ exk ∨ rtc (Dfs.child_link (r_store r)) c' z).
  { intros c' exk a Hc' Hxk _ Hck Hfc Hne.
    apply (proj2 (Hgo c' exk a Hc' Hxk Hck Hfc) Hne).
    intros p Hp. rewrite (Hpar _ _ Hc') in Hp. injection Hp as <-. exact Hxk. }
  assert (Hsome : ∀ c' exk a t', c' ∈ children (link_at (r_store r) x) → x ∈ exk →
            (∀ z, z ∈ (∅ : gset nat) → z ∈ exk) → c' ∉ exk →
            (∀ z, rtc (Dfs.child_link (r_store r)) c' z → z ∉ exk) →
            down_chain (r_store r) (c' :: t') → last (c' :: t') = Some e →
            ∃ ex', go c' exk a =
              Ok (Some (foldl (fun a c => mul a (le (link_at (r_store r) c))) a t'), ex')).
  { intros c' exk a t' Hc' Hxk _ Hck Hfc. exact (proj1 (Hgo c' exk a Hc' Hxk Hck Hfc) t'). }
  destruct (loop_some r Hpar Hacyc ets_t mul inv le e go x ∅
              (fun z _ Hz => not_elem_of_empty z Hz) Hnone Hsome
              None (le (link_at (r_store r) x)) c t Hd' Hl
              (children (link_at (r_store r) x)) [] ({[x]} ∪ ∅) eq_refl Hc
              (fun c' Hc' => match not_elem_of_nil c' Hc' with end) Hk0) as [ex' Hlp].
  cbn [default]. rewrite Hlp. reflexivity.
Qed.

Lemma ets_descendant_witness :
  ets _ (@app (string * bool)) ets_names_inv ets_names 10 branch_robot (LLink 0) (LLink 2) =
    Ok (Some [("a", false); ("c", false)]).
Proof.
  assert (Hpar : ∀ y c, c ∈ children (link_at (r_store branch_robot) y) →
                 parent_of (r_store branch_robot) c = Some y).
  { intros y c Hc. destruct y as [|[|[|y]]]; vm_compute in Hc;
      repeat (apply elem_of_cons in Hc as [->|Hc]; [vm_compute; reflexivity|]); inversion Hc. }
  assert (Hacyc : ∀ k z, GetPath.ancestor (r_store branch_robot) (S k) z ≠ Some z).
  { intros k z. destruct z as [|[|[|z]]]; [|destruct k..|]; vm_compute; congruence. }
  assert (Hvalid : ∀ z, rtc (Dfs.child_link (r_store branch_robot)) 0 z →
                   getlink branch_robot (LLink z) = Ok z).
  { intros z Hz. destruct (sub_range branch_robot Hpar 0 z Hz) as [->|Hlt];
      [vm_compute; reflexivity|].
    change (length (r_store branch_robot)) with 3 in Hlt.
    destruct z as [|[|[|z]]]; [vm_compute; reflexivity..|lia]. }
  assert (Hee : r_ee_links branch_robot ≠ []) by (vm_compute; discriminate).
  assert (Hd : down_chain (r_store branch_robot) [0; 2]).
  { constructor; [|constructor]. vm_compute.
    apply elem_of_cons. right. apply elem_of_cons. left. reflexivity. }
  rewrite (ets_descendant _ (@app (string * bool)) ets_names_inv ets_names 10 branch_robot
             0 [2] 2 Hpar Hacyc Hvalid Hee Hd eq_refl ltac:(vm_compute; lia)).
  vm_compute. reflexivity.
Defined.

End EtsDown.

(** ** [_get_limit_links] with a gripper or a name as [end] *)

Module Limit.

Lemma match_grippers_link k gs i t :
  match_grippers k gs (Ok (LLink i, t)) = Ok (LLink i, t).
Proof. induction gs as [|g gs IH] in k |- *; [reflexivity|]. exact (IH (S k)). Qed.

Lemma match_grippers_name k gs s t :
  match_grippers k gs (Ok (LName s, t)) =
  match list_find (fun g => g_name g = s) gs with
  | Some (_, g) => match g_links g with x :: _ => Ok (LLink x, g_tool g) | [] => Err IndexError end
  | None => Ok (LName s, t)
  end.
Proof.
  induction gs as [|g gs IH] in k |- *; [reflexivity|]. cbn [match_grippers list_find].
  unfold match_gripper. cbn [mbind res_bind].
  destruct (decide (g_name g = s)) as [Hs|Hs].
  - rewrite bool_decide_eq_true_2 by (symmetry; exact Hs).
    destruct (g_links g) as [|x xs]; [|apply match_grippers_link].
    clear. induction gs as [|g' gs IH] in k |- *; [reflexivity|]. exact (IH (S k)).
  - rewrite bool_decide_eq_false_2 by (intros E; apply Hs; symmetry; exact E).
    rewrite IH. destruct (list_find _ gs) as [[j g']|]; reflexivity.
Qed.

Lemma match_grippers_pos k gs j t :
  match_grippers k gs (Ok (LGripper (k + j), t)) =
  match gs !! j with
  | Some g => match g_links g with x :: _ => Ok (LLink x, g_tool g) | [] => Err IndexError end
  | None => Ok (LGripper (k + j), t)
  end.
Proof.
  induction gs as [|g gs IH] in k, j |- *; [reflexivity|]. cbn [match_grippers].
  unfold match_gripper. cbn [mbind res_bind]. destruct j as [|j].
  - rewrite Nat.add_0_r, Nat.eqb_refl. cbn [lookup list_lookup].
    destruct (g_links g) as [|x xs]; [|apply match_grippers_link].
    clear. induction gs as [|g' gs IH] in k |- *; [reflexivity|]. exact (IH (S k)).
  - replace (Nat.eqb k (k + S j)) with false by (symmetry; apply Nat.eqb_neq; lia).
    replace (k + S j) with (S k + j) by lia. apply IH.
Qed.

Lemma getlink_gripper_root r g x xs :
  g ∈ r_grippers r → g_links g = x :: xs → getlink r (LLink x) = Ok x.
Proof.
  intros Hg Hl. cbn [getlink]. case_bool_decide as Hin; [reflexivity|].
  replace (in_gripper_links r x) with true; [reflexivity|]. symmetry.
  apply existsb_exists. exists g. split; [apply list_elem_of_In; exact Hg|].
  apply bool_decide_eq_true_2. rewrite Hl. left.
Qed.

(** [_get_limit_links(end=gripper, start)] with [start] given: a gripper
    of the robot selects its first link and its tool; a gripper that is
    not one of the robot's falls through to [_getlink], which raises
    TypeError.  No attribute is written. *)
Theorem get_limit_links_gripper r j start b :
  start ≠ LNone → getlink r start = Ok b →
  get_limit_links r (LGripper j) start =
  (match r_grippers r !! j with
   | Some g => match g_links g with
               | x :: _ => Ok (Some x, Some b, g_tool g)
               | [] => Err IndexError
               end
   | None => Err (TypeError "unknown argument")
   end, r).
Proof.
  intros Hs Hb. unfold get_limit_links, limit_end. cbn [mbind res_bind].
  pose proof (match_grippers_pos 0 (r_grippers r) j None) as Hm. cbn [Nat.add] in Hm.
  rewrite Hm. destruct (r_grippers r !! j) as [g|] eqn:Eg; cbn [mbind res_bind].
  - destruct (g_links g) as [|x xs] eqn:El; [reflexivity|]. cbn [mbind res_bind].
    rewrite (getlink_gripper_root r g x xs (list_elem_of_lookup_2 _ _ _ Eg) El).
    cbn [mbind res_bind]. destruct start; try (exfalso; apply Hs; reflexivity);
      rewrite Hb; reflexivity.
  - reflexivity.
Qed.

(** [_get_limit_links(end=name, start)] with [start] given: when a gripper
    has that name, the first such gripper in [robot.grippers] selects its
    first link and its tool, even if a link has the same name; otherwise
    the name is looked up among the links, with no tool.  No attribute is
    written. *)
Theorem get_limit_links_name r s start b :
  start ≠ LNone → getlink r start = Ok b →
  get_limit_links r (LName s) start =
  (match list_find (fun g => g_name g = s) (r_grippers r) with
   | Some (_, g) => match g_links g with
                    | x :: _ => Ok (Some x, Some b, g_tool g)
                    | [] => Err IndexError
                    end
   | None => e ← getlink r (LName s); Ok (Some e, Some b, None)
   end, r).
Proof.
  intros Hs Hb. unfold get_limit_links, limit_end. cbn [mbind res_bind].
  rewrite match_grippers_name.
  destruct (list_find _ (r_grippers r)) as [[k g]|] eqn:Ef; cbn [mbind res_bind].
  - destruct (g_links g) as [|x xs] eqn:El; [reflexivity|]. cbn [mbind res_bind].
    apply list_find_Some in Ef as (Eg & _ & _).
    rewrite (getlink_gripper_root r g x xs (list_elem_of_lookup_2 _ _ _ Eg) El).
    cbn [mbind res_bind]. destruct start; try (exfalso; apply Hs; reflexivity);
      rewrite Hb; reflexivity.
  - destruct (getlink r (LName s)) as [e| |]; cbn [mbind res_bind]; [|reflexivity..].
    destruct start; try (exfalso; apply Hs; reflexivity); rewrite Hb; reflexivity.
Qed.

Lemma get_limit_links_gripper_witness :
  get_limit_links grip_robot (LGripper 0) (LName "a") = (Ok (Some 1, Some 0, None), grip_robot) ∧
  get_limit_links grip_robot (LGripper 1) (LName "a") =
    (Err (TypeError "unknown argument"), grip_robot).
Proof.
  assert (Hs : LName "a" ≠ LNone) by discriminate.
  assert (Hb : getlink grip_robot (LName "a") = Ok 0) by (vm_compute; reflexivity).
  split.
  - rewrite (get_limit_links_gripper grip_robot 0 (LName "a") 0 Hs Hb). vm_compute. reflexivity.
  - rewrite (get_limit_links_gripper grip_robot 1 (LName "a") 0 Hs Hb). vm_compute. reflexivity.
Defined.

Lemma get_limit_links_name_witness :
  get_limit_links grip_robot (LName "") (LName "a") = (Ok (Some 1, Some 0, None), grip_robot) ∧
  get_limit_links grip_robot (LName "c") (LName "a") = (Ok (Some 2, Some 0, None), grip_robot).
Proof.
  assert (Hs : LName "a" ≠ LNone) by discriminate.
  assert (Hb : getlink grip_robot (LName "a") = Ok 0) by (vm_compute; reflexivity).
  split.
  - rewrite (get_limit_links_name grip_robot "" (LName "a") 0 Hs Hb). vm_compute. reflexivity.
  - rewrite (get_limit_links_name grip_robot "c" (LName "a") 0 Hs Hb). vm_compute. reflexivity.
Defined.

End Limit.

(** ** [ee_links] and [nbranches] of a robot without grippers *)

Module Leaves.

(** Without grippers, [ERobot(links)] sets [ee_links] to the links that
    have no children, in the order of [links], and [nbranches] to their
    number. *)
Theorem construct_ee_leaves st0 chk bt tt r :
  construct st0 [] chk bt tt = Ok r →
  r_ee_links r =
    map Some (filter (fun i => children (link_at (r_store r) i) = []) (seq 0 (length (r_store r)))) ∧
  r_nbranches r = length (r_ee_links r).
Proof.
  unfold construct. intros H.
  apply Paths.bind_ok in H as ([[[st dict] n0] base] & E1 & H).
  cbn [extract_grippers mbind res_bind] in H.
  apply Paths.bind_ok in H as ([st' orl] & E3 & H).
  injection H as <-. cbn [r_ee_links r_nbranches r_store].
  destruct (Build.build_tree_facts _ _ _ _ _ E1) as (Hlen & _).
  assert (Hls : ∀ x, x ∈ seq 0 (length st0) → x < length st).
  { intros x Hx. apply elem_of_seq in Hx. lia. }
  destruct (Paths.assign_rtc _ _ _ _ _ _ _ Hls E3) as [Hr _].
  assert (Hch : ∀ j, children (link_at st' j) = children (link_at st j)).
  { apply (Store.astep_field children Build.jsetter); [|exact Hr].
    intros f x [k ->]. reflexivity. }
  assert (Hf : filter (fun i => children (link_at st' i) = []) (seq 0 (length st0)) =
               filter (fun i => children (link_at st i) = []) (seq 0 (length st0))).
  { apply list_filter_iff. intros i. rewrite Hch. reflexivity. }
  unfold ee_of. rewrite (Store.astep_length _ _ _ Hr), Hlen, Hf. split; [reflexivity|].
  rewrite length_map. reflexivity.
Qed.

Lemma construct_ee_leaves_witness :
  construct branch_links [] true None None = Ok branch_robot ∧
  r_ee_links branch_robot = [Some 1; Some 2] ∧ r_nbranches branch_robot = 2.
Proof.
  assert (H : construct branch_links [] true None None = Ok branch_robot)
    by (vm_compute; reflexivity).
  destruct (construct_ee_leaves _ _ _ _ _ H) as [He Hn].
  split; [exact H|]. rewrite Hn, He. vm_compute. split; reflexivity.
Defined.

End Leaves.
